(** * Shallow embedding of the godx storage core: the range-limited Merkle
    diff-proof engine (crypto/merkle, in src/consensus/dpos/api.go), the
    lucky-wheel selector, the host upload handler, and the client's
    contract-creation and read flows. *)

From Stdlib Require Import ZArith List Lia Bool.
From Stdlib Require Strings.Byte ListSet.
From Stdlib Require Import Sorting.Sorted Sorting.Permutation.
From Stdlib Require Floats.
Import ListNotations.
Open Scope Z_scope.

(** ** Go machine integers *)

Module GoInt.

(** [uint64(z)]: wrap-around to 64 unsigned bits. *)
Definition to_uint64 (z : Z) : Z := z mod 2 ^ 64.

(** [int(z)] on a 64-bit platform: two's complement wrap-around. *)
Definition to_int64 (z : Z) : Z := (z + 2 ^ 63) mod 2 ^ 64 - 2 ^ 63.

Definition MaxUint64 : Z := 2 ^ 64 - 1.

(** Trailing zeros of a positive number. *)
Fixpoint ptz (p : positive) : Z :=
  match p with
  | xO q => 1 + ptz q
  | _ => 0
  end.

(** [bits.TrailingZeros64]: 64 for a zero argument. *)
Definition TrailingZeros64 (x : Z) : Z :=
  match to_uint64 x with
  | Zpos p => ptz p
  | _ => 64
  end.

(** [bits.Len64]: number of bits needed to represent [x]; 0 for 0. *)
Definition Len64 (x : Z) : Z :=
  let u := to_uint64 x in
  if u =? 0 then 0 else Z.log2 u + 1.

(** The Go expression [1 << uint(s)] of type [int]: shifting by 64 or more
    gives 0, and a shift by 63 wraps to the minimal int. *)
Definition int_shl1 (s : Z) : Z :=
  let u := to_uint64 s in
  if u <? 64 then to_int64 (Z.shiftl 1 u) else 0.

End GoInt.

Import GoInt.

(** Go byte slices; a nil slice and an empty one are both [[]]. *)
Definition bytes := list Byte.byte.

(** [bytes.Equal] *)
Fixpoint bytes_Equal (a b : bytes) : bool :=
  match a, b with
  | [], [] => true
  | x :: a', y :: b' => Byte.eqb x y && bytes_Equal a' b'
  | _, _ => false
  end.

(** A Go call that either returns or panics (index out of range, ...). *)
Inductive outcome (A : Type) : Type :=
| Return (a : A)
| Panic.
Arguments Return {A} a.
Arguments Panic {A}.

Definition bindO {A B : Type} (m : outcome A) (f : A -> outcome B) : outcome B :=
  match m with
  | Return a => f a
  | Panic => Panic
  end.

Notation "'let!' x ':=' m 'in' f" := (bindO m (fun x => f))
  (at level 200, x name, m at level 100, f at level 200).

(** Go [s[i]] on a slice: out of range panics. *)
Definition index {A : Type} (l : list A) (i : nat) : outcome A :=
  match nth_error l i with
  | Some x => Return x
  | None => Panic
  end.

(** Go [s[i] = x]: out of range (in particular on a nil slice) panics. *)
Definition set_index {A : Type} (l : list A) (i : nat) (x : A) : outcome (list A) :=
  if Nat.ltb i (length l) then Return (firstn i l ++ x :: skipn (S i) l) else Panic.

(** [for i := range s { ... }] collecting one value per index. *)
Fixpoint mapO {A B : Type} (f : A -> outcome B) (l : list A) : outcome (list B) :=
  match l with
  | [] => Return []
  | x :: rest =>
      let! y := f x in
      let! ys := mapO f rest in
      Return (y :: ys)
  end.

(** ** The Merkle diff-proof engine (package merkle) *)

Module Merkle.

(** [SubTreeLimit]: a half-open range [[Left, Right)] of leaf indices
    (both uint64). *)
Record SubTreeLimit := mkLimit { Left : Z; Right : Z }.

(** [adjacentSubtreeSize] *)
Definition adjacentSubtreeSize (left right : Z) : Z :=
  let leftInt := TrailingZeros64 left in
  let max := Len64 (right - left) - 1 in
  if max <? leftInt then int_shl1 max else int_shl1 leftInt.

(** [checkLimitList]: [prev] is [limits[i-1]] in the Go loop. *)
Fixpoint checkLimitListFrom (prev : option SubTreeLimit)
    (limits : list SubTreeLimit) : bool :=
  match limits with
  | [] => true
  | r :: rest =>
      if (Left r <? 0) || (Right r <=? Left r) then false
      else
        match prev with
        | Some p => if Left r <? Right p then false
                    else checkLimitListFrom (Some r) rest
        | None => checkLimitListFrom (Some r) rest
        end
  end.

Definition checkLimitList (limits : list SubTreeLimit) : bool :=
  checkLimitListFrom None limits.

(** The iteration [leafIndex += uint64(adjacentSubtreeSize(leafIndex, right))]
    until [leafIndex == right], as the [consumeUntil] closures run it,
    recording each subtree as (start, size).  [fuel] bounds the number of
    iterations; running out is reported as [None]. *)
Fixpoint coverFrom (fuel : nat) (leafIndex right : Z) : option (list (Z * Z)) :=
  if leafIndex =? right then Some []
  else
    match fuel with
    | O => None
    | S f =>
        let size := to_uint64 (adjacentSubtreeSize leafIndex right) in
        match coverFrom f (to_uint64 (leafIndex + size)) right with
        | Some ps => Some ((leafIndex, size) :: ps)
        | None => None
        end
    end.

(** [ps] tiles [[a, b)] with contiguous subtrees, each a power of two in
    size and aligned to its start. *)
Inductive tiles : Z -> Z -> list (Z * Z) -> Prop :=
| tiles_nil b : tiles b b []
| tiles_cons a b (k : nat) ps :
    Z.divide (2 ^ Z.of_nat k) a ->
    tiles (a + 2 ^ Z.of_nat k) b ps ->
    tiles a b ((a, 2 ^ Z.of_nat k) :: ps).

(** Errors of the engine.  [ErrPanic] stands for a run-time panic of a
    leaf-source method (a negative slice bound); [ErrLoopBound] is reported
    when a [for] loop without a static bound exceeds the iteration budget
    [fuel] of the model. *)
Inductive error :=
| EOF                 (* io.EOF *)
| ErrUnexpectedEOF    (* io.ErrUnexpectedEOF *)
| ErrInvalidParam     (* errors.New("the parameter is invalid") *)
| ErrSubtreeHeight    (* Tree.PushSubTree: subtree taller than the smallest one *)
| ErrPanic
| ErrLoopBound.

Inductive result (A : Type) : Type :=
| Ok (a : A)
| Err (e : error).
Arguments Ok {A} a.
Arguments Err {A} e.

(** Modelled from the spec: the Merkle tree of package merkle ([NewTree],
    [Tree.PushLeaf], [Tree.PushSubTree], [Tree.Root], and the cached-root
    helper [CachedTreeRoot]) is not in src.  Following the spec (4.1: proof
    hashes are inserted "as whole subtrees at their implied height", leaf
    hashes "one at a time"), a tree is the stack of the roots of its maximal
    complete subtrees, smallest first; pushing joins equal-height subtrees,
    a subtree taller than the smallest one is refused, and the root of an
    empty tree is nil ([None]), as the nil checks of [SubtreeRootReader] rely
    on.  The hash [h] is abstract: [leafSum] hashes leaf data, [nodeSum]
    joins two subtree roots. *)
Record subTree := mkSubTree { height : nat; sum : bytes }.

Definition Tree := list subTree.

Section Engine.

Variable leafSum : bytes -> bytes.
Variable nodeSum : bytes -> bytes -> bytes.

(** [joinSubTrees(next, head)] *)
Definition joinSubTrees (a b : subTree) : subTree :=
  mkSubTree (S (height a)) (nodeSum (sum a) (sum b)).

Fixpoint joinAllSubTrees (head : subTree) (rest : Tree) : Tree :=
  match rest with
  | [] => [head]
  | next :: rest' =>
      if Nat.eqb (height head) (height next)
      then joinAllSubTrees (joinSubTrees next head) rest'
      else head :: rest
  end.

Definition PushLeaf (data : bytes) (t : Tree) : Tree :=
  joinAllSubTrees (mkSubTree 0 (leafSum data)) t.

Definition PushSubTree (h : Z) (s : bytes) (t : Tree) : result Tree :=
  if h <? 0 then Err ErrSubtreeHeight
  else
    match t with
    | top :: _ =>
        if Nat.ltb (height top) (Z.to_nat h) then Err ErrSubtreeHeight
        else Ok (joinAllSubTrees (mkSubTree (Z.to_nat h) s) t)
    | [] => Ok [mkSubTree (Z.to_nat h) s]
    end.

Definition Root (t : Tree) : option bytes :=
  match t with
  | [] => None
  | top :: rest => Some (fold_left (fun acc st => nodeSum (sum st) acc) rest (sum top))
  end.

(** Go: [tree.Root()] used as a [[]byte] (nil for an empty tree). *)
Definition RootBytes (t : Tree) : bytes :=
  match Root t with Some r => r | None => [] end.

Fixpoint pushCachedRoots (roots : list bytes) (t : Tree) : result Tree :=
  match roots with
  | [] => Ok t
  | r :: rs =>
      match PushSubTree 0 r t with
      | Ok t' => pushCachedRoots rs t'
      | Err e => Err e
      end
  end.

(** The Merkle root of a sequence of leaf roots. *)
Definition CachedTreeRoot (roots : list bytes) : bytes :=
  match pushCachedRoots roots [] with
  | Ok t => RootBytes t
  | Err _ => []
  end.

(** *** Leaf sources: interface [SubtreeRoot] *)

Record SubtreeRoot (Src : Type) := mkSubtreeRootI {
  GetSubtreeRoot : Src -> Z -> result bytes * Src;
  Skip : Src -> Z -> option error * Src
}.
Arguments GetSubtreeRoot {Src} _ _ _.
Arguments Skip {Src} _ _ _.

(** [CachedSubtreeRoot] *)
Record CachedSubtreeRoot := mkCachedSubtreeRoot { leafRoots : list bytes }.

(** [for i := 0; i < n && len(csh.leafRoots) > 0; i++] *)
Fixpoint cachedPushLoop (i n : Z) (t : Tree) (roots : list bytes)
    : result Tree * list bytes :=
  match roots with
  | [] => (Ok t, roots)
  | r :: rest =>
      if i <? n then
        match PushSubTree 0 r t with
        | Err e => (Err e, roots)
        | Ok t' => cachedPushLoop (i + 1) n t' rest
        end
      else (Ok t, roots)
  end.

Definition cached_GetSubtreeRoot (csh : CachedSubtreeRoot) (n : Z)
    : result bytes * CachedSubtreeRoot :=
  match leafRoots csh with
  | [] => (Err EOF, csh)
  | _ =>
      let '(r, rest) := cachedPushLoop 0 n [] (leafRoots csh) in
      match r with
      | Err e => (Err e, mkCachedSubtreeRoot rest)
      | Ok t => (Ok (RootBytes t), mkCachedSubtreeRoot rest)
      end
  end.

Definition cached_Skip (csh : CachedSubtreeRoot) (n : Z)
    : option error * CachedSubtreeRoot :=
  if Z.of_nat (length (leafRoots csh)) <? n then (Some ErrUnexpectedEOF, csh)
  else if n <? 0 then (Some ErrPanic, csh)
  else (None, mkCachedSubtreeRoot (skipn (Z.to_nat n) (leafRoots csh))).

Definition cachedSubtreeRoot : SubtreeRoot CachedSubtreeRoot :=
  mkSubtreeRootI _ cached_GetSubtreeRoot cached_Skip.

(** [SubtreeRootReader]: [rd] is what is left to read of [rsh.r], [leafLen]
    is [len(rsh.leaf)]. *)
Record SubtreeRootReader := mkSubtreeRootReader {
  rd : list Byte.byte;
  leafLen : nat
}.

(** [io.ReadFull(r, buf)] with [len(buf) = n]: the bytes read, the error,
    and what is left of the stream. *)
Definition ReadFull (r : list Byte.byte) (n : nat)
    : list Byte.byte * option error * list Byte.byte :=
  if Nat.eqb n 0 then ([], None, r)
  else
    match r with
    | [] => ([], Some EOF, r)
    | _ =>
        if Nat.ltb (length r) n then (r, Some ErrUnexpectedEOF, [])
        else (firstn n r, None, skipn n r)
    end.

(** [for i := 0; i < leafIndex; i++ { ... }] of [SubtreeRootReader.GetSubtreeRoot] *)
Fixpoint readerPushLoop (k : nat) (n : nat) (t : Tree) (r : list Byte.byte)
    : Tree * list Byte.byte :=
  match k with
  | O => (t, r)
  | S k' =>
      let '(data, err, r') := ReadFull r n in
      let t' := if Nat.ltb 0 (length data) then PushLeaf data t else t in
      match err with
      | Some _ => (t', r')
      | None => readerPushLoop k' n t' r'
      end
  end.

Definition reader_GetSubtreeRoot (rsh : SubtreeRootReader) (leafIndex : Z)
    : result bytes * SubtreeRootReader :=
  let '(t, r') := readerPushLoop (Z.to_nat leafIndex) (leafLen rsh) [] (rd rsh) in
  let rsh' := mkSubtreeRootReader r' (leafLen rsh) in
  match Root t with
  | None => (Err EOF, rsh')
  | Some root => (Ok root, rsh')
  end.

(** [io.CopyN(ioutil.Discard, rsh.r, skipSize)] and the error mapping of
    [SubtreeRootReader.Skip]. *)
Definition reader_Skip (rsh : SubtreeRootReader) (n : Z)
    : option error * SubtreeRootReader :=
  let skipSize := to_int64 (Z.of_nat (leafLen rsh) * n) in
  if skipSize <=? 0 then (None, rsh)
  else if Z.of_nat (length (rd rsh)) <? skipSize
  then (Some ErrUnexpectedEOF, mkSubtreeRootReader [] (leafLen rsh))
  else (None, mkSubtreeRootReader (skipn (Z.to_nat skipSize) (rd rsh)) (leafLen rsh)).

Definition subtreeRootReader : SubtreeRoot SubtreeRootReader :=
  mkSubtreeRootI _ reader_GetSubtreeRoot reader_Skip.

(** *** Leaf sources: interface [LeafRoot] *)

Record LeafRoot (L : Type) := mkLeafRootI {
  GetLeafRoot : L -> result bytes * L
}.
Arguments GetLeafRoot {L} _ _.

Record LeafRootCached := mkLeafRootCached { cachedLeafRoots : list bytes }.

Definition cached_GetLeafRoot (clh : LeafRootCached) : result bytes * LeafRootCached :=
  match cachedLeafRoots clh with
  | [] => (Err EOF, clh)
  | h :: rest => (Ok h, mkLeafRootCached rest)
  end.

Definition leafRootCached : LeafRoot LeafRootCached :=
  mkLeafRootI _ cached_GetLeafRoot.

(** [LeafRootReader]: [lrd] is what is left to read of [rlh.r], [lleafLen]
    is [len(rlh.leaf)] ([leafSize] of [NewLeafRootReader]).  The leaf hash
    [leafTotal(rlh.h, ...)] of package merkle is [leafSum]. *)
Record LeafRootReader := mkLeafRootReader {
  lrd : list Byte.byte;
  lleafLen : nat
}.

(** [LeafRootReader.GetLeafRoot]: [n] is the number of bytes read. *)
Definition reader_GetLeafRoot (rlh : LeafRootReader) : result bytes * LeafRootReader :=
  let '(data, err, r') := ReadFull (lrd rlh) (lleafLen rlh) in
  let rlh' := mkLeafRootReader r' (lleafLen rlh) in
  let ok := if Nat.eqb (length data) 0 then (Err EOF, rlh') else (Ok (leafSum data), rlh') in
  match err with
  | None | Some EOF | Some ErrUnexpectedEOF => ok
  | Some e => (Err e, rlh')
  end.

Definition leafRootReader : LeafRoot LeafRootReader :=
  mkLeafRootI _ reader_GetLeafRoot.

(** *** Diff-proof construction: [getLimitStorageProof] *)

Section Construct.
Context {Src : Type} (sr : SubtreeRoot Src).

Record proofState := mkProofState {
  leafIndex : Z;
  storageProofList : list bytes;
  source : Src
}.

(** The [consumeUntil] closure. *)
Fixpoint consumeUntil (fuel : nat) (end_ : Z) (st : proofState)
    : option error * proofState :=
  if leafIndex st =? end_ then (None, st)
  else
    match fuel with
    | O => (Some ErrLoopBound, st)
    | S f =>
        let subtreeSize := adjacentSubtreeSize (leafIndex st) end_ in
        let '(r, src') := GetSubtreeRoot sr (source st) subtreeSize in
        match r with
        | Err e => (Some e, mkProofState (leafIndex st) (storageProofList st) src')
        | Ok root =>
            consumeUntil f end_
              (mkProofState (to_uint64 (leafIndex st + to_uint64 subtreeSize))
                 (storageProofList st ++ [root]) src')
        end
    end.

(** [for _, r := range limits { ... }] *)
Fixpoint excludeRanges (fuel : nat) (limits : list SubTreeLimit) (st : proofState)
    : option error * proofState :=
  match limits with
  | [] => (None, st)
  | r :: rest =>
      match consumeUntil fuel (Left r) st with
      | (Some e, st') => (Some e, st')
      | (None, st') =>
          let width := to_uint64 (Right r - Left r) in
          let '(e, src') := Skip sr (source st') (to_int64 width) in
          match e with
          | Some e => (Some e, mkProofState (leafIndex st') (storageProofList st') src')
          | None =>
              excludeRanges fuel rest
                (mkProofState (to_uint64 (leafIndex st' + width))
                   (storageProofList st') src')
          end
      end
  end.

(** Returns [(storageProofList, err)] and the leaf source after the call. *)
Definition getLimitStorageProof (fuel : nat) (limits : list SubTreeLimit) (src : Src)
    : (list bytes * option error) * Src :=
  match limits with
  | [] => (([], None), src)
  | _ =>
      if negb (checkLimitList limits) then (([], Some ErrInvalidParam), src)
      else
        match excludeRanges fuel limits (mkProofState 0 [] src) with
        | (Some e, st) => (([], Some e), source st)
        | (None, st) =>
            let '(e, st') := consumeUntil fuel MaxUint64 st in
            let e' := match e with Some EOF => None | _ => e end in
            ((storageProofList st', e'), source st')
        end
  end.

End Construct.

(** *** Diff-proof verification: [checkLimitStorageProof] *)

Section Verify.
Context {L : Type} (lr : LeafRoot L).

(** The [consumeUntil] closure of the verifier: it runs while
    [leafIndex != end && len(storageProofList) > 0]. *)
Fixpoint vConsumeUntil (end_ : Z) (proofs : list bytes) (i : Z) (t : Tree)
    : option error * (Z * list bytes * Tree) :=
  match proofs with
  | [] => (None, (i, proofs, t))
  | p :: rest =>
      if i =? end_ then (None, (i, proofs, t))
      else
        let subtreeSize := adjacentSubtreeSize i end_ in
        let h := TrailingZeros64 (to_uint64 subtreeSize) in
        match PushSubTree h p t with
        | Err e => (Some e, (i, proofs, t))
        | Ok t' => vConsumeUntil end_ rest (to_uint64 (i + to_uint64 subtreeSize)) t'
        end
  end.

(** [for i := r.Left; i < r.Right; i++ { ... }] *)
Fixpoint pushClaimedLeaves (k : nat) (t : Tree) (lh : L)
    : outcome (option error * Tree) * L :=
  match k with
  | O => (Return (None, t), lh)
  | S k' =>
      let '(r, lh') := GetLeafRoot lr lh in
      match r with
      | Err e => (Return (Some e, t), lh')
      | Ok leafHash =>
          match PushSubTree 0 leafHash t with
          | Err _ => (Panic, lh')
          | Ok t' => pushClaimedLeaves k' t' lh'
          end
      end
  end.

Fixpoint verifyRanges (limits : list SubTreeLimit) (proofs : list bytes)
    (i : Z) (t : Tree) (lh : L)
    : outcome (option error * (Z * list bytes * Tree)) * L :=
  match limits with
  | [] => (Return (None, (i, proofs, t)), lh)
  | r :: rest =>
      match vConsumeUntil (Left r) proofs i t with
      | (Some e, st) => (Return (Some e, st), lh)
      | (None, (i', proofs', t')) =>
          match pushClaimedLeaves (Z.to_nat (Right r - Left r)) t' lh with
          | (Panic, lh') => (Panic, lh')
          | (Return (Some e, t''), lh') => (Return (Some e, (i', proofs', t'')), lh')
          | (Return (None, t''), lh') =>
              verifyRanges rest proofs'
                (to_uint64 (i' + to_uint64 (Right r - Left r))) t'' lh'
          end
      end
  end.

Definition checkLimitStorageProof (lh : L) (limits : list SubTreeLimit)
    (storageProofList : list bytes) (root : bytes)
    : outcome (bool * option error) * L :=
  match limits with
  | [] => (Return (true, None), lh)
  | _ =>
      if negb (checkLimitList limits) then (Return (false, Some ErrInvalidParam), lh)
      else
        match verifyRanges limits storageProofList 0 [] lh with
        | (Panic, lh') => (Panic, lh')
        | (Return (Some e, _), lh') => (Return (false, Some e), lh')
        | (Return (None, (i, ps, t)), lh') =>
            match vConsumeUntil MaxUint64 ps i t with
            | (Some e, _) => (Return (false, Some e), lh')
            | (None, (_, _, t')) => (Return (bytes_Equal (RootBytes t') root, None), lh')
            end
        end
  end.

End Verify.

End Engine.
Arguments proofState : clear implicits.
Arguments GetSubtreeRoot {Src} _ _ _.
Arguments Skip {Src} _ _ _.
Arguments GetLeafRoot {L} _ _.

(** [GetLimitStorageProof(left, right, h)]: [left] and [right] are Go ints. *)
Definition GetLimitStorageProof {Src : Type} (sr : SubtreeRoot Src) (fuel : nat)
    (left right : Z) (src : Src) : (list bytes * option error) * Src :=
  if (left <? 0) || (right <? left) || (left =? right) then (([], Some ErrInvalidParam), src)
  else getLimitStorageProof sr fuel [mkLimit (to_uint64 left) (to_uint64 right)] src.

(** [CheckLimitStorageProof(lh, h, left, right, storageProofList, root)] *)
Definition CheckLimitStorageProof (nodeSum : bytes -> bytes -> bytes) {L : Type}
    (lr : LeafRoot L) (lh : L) (left right : Z) (storageProofList : list bytes)
    (root : bytes) : outcome (bool * option error) * L :=
  if (left <? 0) || (right <? left) || (left =? right) then (Return (false, Some ErrInvalidParam), lh)
  else checkLimitStorageProof nodeSum lr lh [mkLimit (to_uint64 left) (to_uint64 right)]
         storageProofList root.

(** The claimed leaf hashes of the excluded ranges, in order. *)
Definition claimedLeaves (limits : list SubTreeLimit) (leaves : list bytes) : list bytes :=
  flat_map (fun r => firstn (Z.to_nat (Right r - Left r)) (skipn (Z.to_nat (Left r)) leaves))
    limits.

(** *** Auxiliary notions for reasoning about the tree stack *)

Section Aux.
Variable nodeSum : bytes -> bytes -> bytes.

(** Pushing leaf roots one by one at height 0, as [pushCachedRoots] and the
    cached leaf source do. *)
Definition push0All (s : Tree) (l : list bytes) : Tree :=
  fold_left (fun t x => joinAllSubTrees nodeSum (mkSubTree 0 x) t) l s.

(** The root of the perfect subtree of height [k] over [2^k] leaf roots. *)
Fixpoint ptree (k : nat) (l : list bytes) : bytes :=
  match k with
  | O => hd [] l
  | S k' => nodeSum (ptree k' (firstn (2 ^ k') l)) (ptree k' (skipn (2 ^ k') l))
  end.

(** The leaf chunks that [io.ReadFull] cuts from a stream: [n] bytes
    each, the last one possibly shorter. *)
Fixpoint chunksF (fuel n : nat) (r : list Byte.byte) : list bytes :=
  match fuel with
  | O => []
  | S f =>
      match r with
      | [] => []
      | _ => firstn n r :: chunksF f n (skipn n r)
      end
  end.

Definition chunks (n : nat) (r : list Byte.byte) : list bytes := chunksF (length r) n r.

End Aux.

(** The tree of the given leaves, pushed one at a time with [PushLeaf]. *)
Definition leafTree (leafSum : bytes -> bytes) (nodeSum : bytes -> bytes -> bytes)
    (leaves : list bytes) : Tree :=
  fold_left (fun t d => PushLeaf leafSum nodeSum d t) leaves [].

(** Every subtree of the stack has height at least [h]. *)
Definition ready (h : nat) (s : Tree) : Prop :=
  Forall (fun st => (h <= height st)%nat) s.

(** The number of leaves under the stack. *)
Fixpoint sumH (s : Tree) : nat :=
  match s with
  | [] => O
  | a :: r => (2 ^ height a + sumH r)%nat
  end.

(** Heights strictly increase from the top of the stack. *)
Fixpoint incr (s : Tree) : Prop :=
  match s with
  | [] => True
  | a :: r => ready (S (height a)) r /\ incr r
  end.

(** The ranges are ordered, non-empty and start at or after [i]. *)
Fixpoint validFrom (i : Z) (limits : list SubTreeLimit) : Prop :=
  match limits with
  | [] => True
  | r :: rest => i <= Left r /\ Left r < Right r /\ validFrom (Right r) rest
  end.

End Merkle.

(** ** Host upload negotiation (package hostnegotiation) *)

Module Upload.

(** [types.DxcoinCharge]; addresses are kept abstract. *)
Record DxcoinCharge := mkDxcoinCharge { Value : Z; Address : Z }.

(** The fields of [types.StorageContractRevision] that the upload handler
    reads or writes. *)
Record StorageContractRevision := mkRevision {
  ParentID : bytes;
  NewRevisionNumber : Z;
  NewFileSize : Z;
  NewFileMerkleRoot : bytes;
  NewWindowStart : Z;
  NewWindowEnd : Z;
  NewValidProofOutputs : list DxcoinCharge;
  NewMissedProofOutputs : list DxcoinCharge;
  Signatures : list bytes
}.

Definition setNewRevisionNumber (r : StorageContractRevision) (n : Z) :=
  mkRevision (ParentID r) n (NewFileSize r) (NewFileMerkleRoot r) (NewWindowStart r)
    (NewWindowEnd r) (NewValidProofOutputs r) (NewMissedProofOutputs r) (Signatures r).

Definition setNewFileSize (r : StorageContractRevision) (n : Z) :=
  mkRevision (ParentID r) (NewRevisionNumber r) n (NewFileMerkleRoot r) (NewWindowStart r)
    (NewWindowEnd r) (NewValidProofOutputs r) (NewMissedProofOutputs r) (Signatures r).

Definition setNewFileMerkleRoot (r : StorageContractRevision) (h : bytes) :=
  mkRevision (ParentID r) (NewRevisionNumber r) (NewFileSize r) h (NewWindowStart r)
    (NewWindowEnd r) (NewValidProofOutputs r) (NewMissedProofOutputs r) (Signatures r).

Definition setProofOutputs (r : StorageContractRevision) (valid missed : list DxcoinCharge) :=
  mkRevision (ParentID r) (NewRevisionNumber r) (NewFileSize r) (NewFileMerkleRoot r)
    (NewWindowStart r) (NewWindowEnd r) valid missed (Signatures r).

(** [storage.UploadActionAppend] and any other action type string. *)
Inductive UploadActionType := UploadActionAppend | UploadActionOther.

(** [Type] is a keyword of Rocq: the field [Type] is [Type_]. *)
Record UploadAction := mkUploadAction { Type_ : UploadActionType; Data : bytes }.

Module Req.
(** [storage.UploadRequest] *)
Record UploadRequest := mkUploadRequest {
  StorageContractID : bytes;
  Actions : list UploadAction;
  NewRevisionNumber : Z;
  NewValidProofValues : list Z;
  NewMissedProofValues : list Z
}.
End Req.

(** The fields of [storagehost.StorageResponsibility] used here. *)
Record StorageResponsibility := mkStorageResponsibility {
  SectorRoots : list bytes;
  StorageContractRevisions : list StorageContractRevision
}.

(** [uploadNegotiationData]; the set [sectorsChanged] is a list of keys. *)
Record uploadNegotiationData := mkNegotiationData {
  newRoots : list bytes;
  sectorGained : list bytes;
  gainedSectorData : list bytes;
  sectorsChanged : list Z;
  bandwidthRevenue : Z;
  newMerkleRoot : bytes
}.

(** The zero value of [var nd uploadNegotiationData]. *)
Definition emptyNegotiationData : uploadNegotiationData :=
  mkNegotiationData [] [] [] [] 0 [].

Inductive error :=
| ErrUnknownActionType     (* "failed to parse the upload action, unknown upload action type" *)
| ErrRevisionValidation.   (* an error of uploadRevisionValidation *)

Inductive res (A : Type) : Type :=
| ROk (a : A)
| RErr (e : error).
Arguments ROk {A} a.
Arguments RErr {A} e.

Section Handler.

(** [storage.SectorSize] *)
Variable SectorSize : Z.
(** [merkle.Sha256MerkleTreeRoot], the root of one sector's data. *)
Variable Sha256MerkleTreeRoot : bytes -> bytes.
(** The node hash of the sha256 Merkle tree. *)
Variable sha256Node : bytes -> bytes -> bytes.
(** [uploadRevisionValidation], applied to the block height and host revenue
    of the negotiation. *)
Variable uploadRevisionValidation : StorageResponsibility -> StorageContractRevision -> option error.

(** Modelled from the spec: [merkle.Sha256CachedTreeRoot2] is not in src;
    it is the Merkle root of a sequence of leaf roots (the cached-root
    helper of the Merkle model). *)
Definition Sha256CachedTreeRoot2 (roots : list bytes) : bytes :=
  Merkle.CachedTreeRoot sha256Node roots.

(** [handleUploadAppendType] *)
Definition handleUploadAppendType (action : UploadAction) (nd : uploadNegotiationData)
    (uploadBandwidthPrice : Z) : uploadNegotiationData :=
  let newRoot := Sha256MerkleTreeRoot (Data action) in
  let roots := newRoots nd ++ [newRoot] in
  mkNegotiationData roots (sectorGained nd ++ [newRoot])
    (gainedSectorData nd ++ [Data action])
    (ListSet.set_add Z.eq_dec (Z.of_nat (length roots) - 1) (sectorsChanged nd))
    (bandwidthRevenue nd + uploadBandwidthPrice * SectorSize)
    (newMerkleRoot nd).

Fixpoint handleUploadActions (actions : list UploadAction) (nd : uploadNegotiationData)
    (uploadBandwidthPrice : Z) : res uploadNegotiationData :=
  match actions with
  | [] => ROk nd
  | action :: rest =>
      match Type_ action with
      | UploadActionAppend =>
          handleUploadActions rest (handleUploadAppendType action nd uploadBandwidthPrice)
            uploadBandwidthPrice
      | UploadActionOther => RErr ErrUnknownActionType
      end
  end.

(** [parseAndHandleUploadActions] *)
Definition parseAndHandleUploadActions (uploadReq : Req.UploadRequest) (nd : uploadNegotiationData)
    (sr : StorageResponsibility) (uploadBandwidthPrice : Z) : res uploadNegotiationData :=
  let nd1 := mkNegotiationData (newRoots nd ++ SectorRoots sr) (sectorGained nd)
               (gainedSectorData nd) [] (bandwidthRevenue nd) (newMerkleRoot nd) in
  handleUploadActions (Req.Actions uploadReq) nd1 uploadBandwidthPrice.

(** [updateRevisionFileSize] *)
Definition updateRevisionFileSize (newRev : StorageContractRevision) (uploadReq : Req.UploadRequest)
    : StorageContractRevision :=
  fold_left (fun r action =>
               match Type_ action with
               | UploadActionAppend => setNewFileSize r (NewFileSize r + SectorSize)
               | UploadActionOther => r
               end) (Req.Actions uploadReq) newRev.

(** [calcAndUpdateRevisionMerkleRoot] *)
Definition calcAndUpdateRevisionMerkleRoot (nd : uploadNegotiationData)
    (newRev : StorageContractRevision) : uploadNegotiationData * StorageContractRevision :=
  let root := Sha256CachedTreeRoot2 (newRoots nd) in
  (mkNegotiationData (newRoots nd) (sectorGained nd) (gainedSectorData nd)
     (sectorsChanged nd) (bandwidthRevenue nd) root,
   setNewFileMerkleRoot newRev root).

(** [updateRevisionMissedAndValidPayback]: both loops range over the
    indices of [currentRev.NewValidProofOutputs] and APPEND to the slices
    of [newRev]. *)
Definition updateRevisionMissedAndValidPayback (newRev currentRev : StorageContractRevision)
    (uploadReq : Req.UploadRequest) : outcome StorageContractRevision :=
  let idx := seq 0 (length (NewValidProofOutputs currentRev)) in
  let! valid := mapO (fun i =>
                  let! v := index (Req.NewValidProofValues uploadReq) i in
                  let! o := index (NewValidProofOutputs currentRev) i in
                  Return (mkDxcoinCharge v (Address o))) idx in
  let! missed := mapO (fun i =>
                   let! v := index (Req.NewMissedProofValues uploadReq) i in
                   let! o := index (NewMissedProofOutputs currentRev) i in
                   Return (mkDxcoinCharge v (Address o))) idx in
  Return (setProofOutputs newRev (NewValidProofOutputs newRev ++ valid)
            (NewMissedProofOutputs newRev ++ missed)).

Definition setSectorRoots (sr : StorageResponsibility) (roots : list bytes) :=
  mkStorageResponsibility roots (StorageContractRevisions sr).

(** [constructAndVerifyNewRevision]: the new revision and the updated
    negotiation data, or the validation error. *)
Definition constructAndVerifyNewRevision (nd : uploadNegotiationData)
    (sr : StorageResponsibility) (uploadReq : Req.UploadRequest)
    : outcome (res (StorageContractRevision * uploadNegotiationData)) :=
  let revs := StorageContractRevisions sr in
  let! currentRev := index revs (length revs - 1) in
  let newRev := setNewRevisionNumber currentRev (Req.NewRevisionNumber uploadReq) in
  let newRev := updateRevisionFileSize newRev uploadReq in
  let '(nd', newRev) := calcAndUpdateRevisionMerkleRoot nd newRev in
  let! newRev := updateRevisionMissedAndValidPayback newRev currentRev uploadReq in
  match uploadRevisionValidation (setSectorRoots sr (newRoots nd')) newRev with
  | Some e => Return (RErr e)
  | None => Return (ROk (newRev, nd'))
  end.

(** The sort of [calcAndSortProofRanges], [sort.Slice] with [less]
    comparing [Left], as an insertion sort.  [sort.Slice] is not stable,
    but the keys of the set [sectorsChanged] are distinct, so every sorting
    algorithm yields the same list. *)
Fixpoint insertByLeft (r : Merkle.SubTreeLimit) (l : list Merkle.SubTreeLimit)
    : list Merkle.SubTreeLimit :=
  match l with
  | [] => [r]
  | x :: rest => if Merkle.Left x <? Merkle.Left r then x :: insertByLeft r rest else r :: l
  end.

Definition sortByLeft (l : list Merkle.SubTreeLimit) : list Merkle.SubTreeLimit :=
  fold_right insertByLeft [] l.

(** [calcAndSortProofRanges]: the loop visits the keys of [sectorsChanged]
    in the order of the key list (Go's map order is unspecified; the sort
    below removes it), appending [[i, i+1)] for every key below the old
    number of sectors. *)
Definition calcAndSortProofRanges (sr : StorageResponsibility) (nd : uploadNegotiationData)
    : list Merkle.SubTreeLimit :=
  let oldNumSectors := to_uint64 (Z.of_nat (length (SectorRoots sr))) in
  let proofRanges :=
    fold_left (fun acc i =>
                 if i <? oldNumSectors
                 then acc ++ [Merkle.mkLimit i (to_uint64 (i + 1))]
                 else acc) (sectorsChanged nd) [] in
  sortByLeft proofRanges.

(** [calcLeafHashes]: [sr.SectorRoots[proofRange.Left]] panics when the
    uint64 index is out of range. *)
Definition calcLeafHashes (proofRanges : list Merkle.SubTreeLimit) (sr : StorageResponsibility)
    : outcome (list bytes) :=
  mapO (fun proofRange => index (SectorRoots sr) (Z.to_nat (Merkle.Left proofRange))) proofRanges.

End Handler.

(** Modelled from the spec: [uploadRevisionValidation] is not in src.  The
    spec lists its checks: the revision number increases by exactly one,
    the proof window is unchanged, and the host's valid and missed payouts
    (index 1, the host's entry) move by at least the host revenue and by at
    most the risked collateral. *)
Definition uploadRevisionValidation_spec (hostRevenue riskedCollateral : Z)
    (sr : StorageResponsibility) (newRev : StorageContractRevision) : option error :=
  let oldRev := last (StorageContractRevisions sr) newRev in
  let hostValid r := match nth_error (NewValidProofOutputs r) 1 with
                     | Some o => Value o | None => 0 end in
  let hostMissed r := match nth_error (NewMissedProofOutputs r) 1 with
                      | Some o => Value o | None => 0 end in
  if negb (NewRevisionNumber newRev =? NewRevisionNumber oldRev + 1) then Some ErrRevisionValidation
  else if negb ((NewWindowStart newRev =? NewWindowStart oldRev) &&
                (NewWindowEnd newRev =? NewWindowEnd oldRev)) then Some ErrRevisionValidation
  else if hostValid newRev <? hostValid oldRev + hostRevenue then Some ErrRevisionValidation
  else if hostMissed newRev <? hostMissed oldRev - riskedCollateral then Some ErrRevisionValidation
  else None.

End Upload.

(** ** Storage client: contract creation and download *)

Module Client.

Inductive error :=
| ErrIllegalOffsetLength   (* "illegal offset and/or length" *)
| ErrSegmentAlignment      (* "offset and length must be multiples of SegmentSize ..." *)
| ErrSession (code : nat). (* an error returned by the session or a decoder *)

(** The fields of [types.StorageContract] set by [ContractCreate]; the
    collaterals are omitted. *)
Record StorageContract := mkStorageContract {
  FileSize : Z;
  FileMerkleRoot : bytes;
  WindowStart : Z;
  WindowEnd : Z;
  UnlockHash : bytes;
  RevisionNumber : Z;
  ValidProofOutputs : list Upload.DxcoinCharge;
  MissedProofOutputs : list Upload.DxcoinCharge;
  Signatures : list bytes
}.

Definition setSignatures (c : StorageContract) (s : list bytes) :=
  mkStorageContract (FileSize c) (FileMerkleRoot c) (WindowStart c) (WindowEnd c)
    (UnlockHash c) (RevisionNumber c) (ValidProofOutputs c) (MissedProofOutputs c) s.

Section ContractCreate.
(** A message read from the session, and [msg.Decode(&hostSign)]. *)
Variable Msg : Type.
Variable Decode : Msg -> option error * bytes.

(** The [types.StorageContract{...}] literal of [ContractCreate]: no
    [Signatures] field is given, so it is the nil slice. *)
Definition newStorageContract (renterPayout hostPayout clientAddr hostAddr endHeight
    windowSize : Z) (unlockHash : bytes) : StorageContract :=
  {| FileSize := 0; FileMerkleRoot := []; WindowStart := endHeight;
     WindowEnd := endHeight + windowSize; UnlockHash := unlockHash; RevisionNumber := 0;
     ValidProofOutputs := [Upload.mkDxcoinCharge renterPayout clientAddr;
                           Upload.mkDxcoinCharge hostPayout hostAddr];
     MissedProofOutputs := [Upload.mkDxcoinCharge renterPayout clientAddr;
                            Upload.mkDxcoinCharge hostPayout hostAddr];
     Signatures := [] |}.

(** [ContractCreate] from the contract literal to the two signature
    assignments: [sendErr] is the result of [SendStorageContractCreation],
    [readMsg] the pair returned by [session.ReadMsg()].  It returns the
    function's error and, when the flow gets past both assignments, the
    assembled contract. *)
Definition ContractCreate (renterPayout hostPayout clientAddr hostAddr endHeight windowSize : Z)
    (unlockHash clientContractSign : bytes) (sendErr : option error)
    (readMsg : Msg * option error) : outcome (option error * option StorageContract) :=
  let storageContract :=
    newStorageContract renterPayout hostPayout clientAddr hostAddr endHeight windowSize unlockHash in
  match sendErr with
  | Some e => Return (Some e, None)
  | None =>
      let '(msg, err) := readMsg in
      match err with
      | Some _ =>
          match Decode msg with
          | (Some e, _) => Return (Some e, None)
          | (None, hostSign) =>
              let! sigs := set_index (Signatures storageContract) 1 hostSign in
              let storageContract := setSignatures storageContract sigs in
              let! sigs := set_index (Signatures storageContract) 0 clientContractSign in
              Return (None, Some (setSignatures storageContract sigs))
          end
      | None => Return (err, None)   (* [else { return err }] with [err == nil] *)
      end
  end.

End ContractCreate.

(** [storage.DownloadRequestSection]: [Offset] and [Length] are uint32 (the
    check converts them to uint64 before adding). *)
Record DownloadRequestSection := mkSection {
  MerkleRoot : bytes;
  Offset : Z;
  Length : Z
}.

Record DownloadRequest := mkDownloadRequest {
  Sections : list DownloadRequestSection;
  MerkleProof : bool
}.

Section Read.
(** [storage.SectorSize] and [storage.SegmentSize] *)
Variable SectorSize SegmentSize : Z.
(** Messages sent to the host. *)
Variable Message : Type.
(** What [Read] does after the sanity check: the remaining exchange with
    the host, with its error and the messages it sends. *)
Variable readExchange : DownloadRequest -> option error * list Message.

(** The sanity-check loop of [Read]. *)
Fixpoint checkSections (merkleProof : bool) (secs : list DownloadRequestSection)
    : option error :=
  match secs with
  | [] => None
  | sec :: rest =>
      if SectorSize <? to_uint64 (Offset sec + Length sec) then Some ErrIllegalOffsetLength
      else if merkleProof &&
              (negb (Offset sec mod SegmentSize =? 0) || negb (Length sec mod SegmentSize =? 0))
      then Some ErrSegmentAlignment
      else checkSections merkleProof rest
  end.

(** [Read]: its error and the messages sent to the host. *)
Definition Read (req : DownloadRequest) : option error * list Message :=
  match checkSections (MerkleProof req) (Sections req) with
  | Some e => (Some e, [])
  | None => readExchange req
  end.

End Read.

(** The prices of [storage.HostInfo] used by [Write] and [Read]
    ([common.BigInt] values). *)
Record HostInfo := mkHostInfo {
  UploadBandwidthPrice : Z;
  DownloadBandwidthPrice : Z;
  StoragePrice : Z;
  Deposit : Z;
  BaseRPCPrice : Z;
  SectorAccessPrice : Z
}.

(** [types.StorageContractRevision{}]: every field zero, every slice nil. *)
Definition emptyRevision : Upload.StorageContractRevision :=
  Upload.mkRevision [] 0 0 [] 0 0 [] [] [].

(** [big.Int] addition [z.Add(x, y)] on pointers, a nil pointer being [None]: a nil
    receiver or operand is dereferenced and panics. *)
Definition bigIntAdd (z x y : option Z) : outcome (option Z) :=
  match z, x, y with
  | Some _, Some a, Some b => Return (Some (a + b))
  | _, _, _ => Panic
  end.

Section Write.
(** [storage.SectorSize] (a positive constant) and [storage.HashSize]. *)
Variable SectorSize HashSize : Z.
(** [sc.ethBackend.GetCurrentBlockHeight()] *)
Variable currentBlockHeight : Z.
Variable Message : Type.
(** What [Write] does after the estimate of the Merkle proof cost, from
    [bandwidthPrice], [storagePrice], [deposit] and [newFileSize]: the
    funds checks, the exchange with the host, its error and the messages
    it sends. *)
Variable writeRest : option Z -> option Z -> option Z -> Z -> outcome (option error * list Message).

(** The [for _, action := range actions] loop of [Write]. *)
Fixpoint writeLoop (sectorBandwidthPrice : Z) (actions : list Upload.UploadAction)
    (bandwidthPrice : option Z) (newFileSize : Z) : outcome (option Z * Z) :=
  match actions with
  | [] => Return (bandwidthPrice, newFileSize)
  | action :: rest =>
      match Upload.Type_ action with
      | Upload.UploadActionAppend =>
          let! bandwidthPrice :=
            bigIntAdd bandwidthPrice bandwidthPrice (Some sectorBandwidthPrice) in
          writeLoop sectorBandwidthPrice rest bandwidthPrice (to_uint64 (newFileSize + SectorSize))
      | Upload.UploadActionOther => writeLoop sectorBandwidthPrice rest bandwidthPrice newFileSize
      end
  end.

(** [StorageClient.Write]: [contractRevision] is [&types.StorageContractRevision{}]
    and [var bandwidthPrice, storagePrice, deposit *big.Int] are nil. *)
Definition Write (hostInfo : HostInfo) (actions : list Upload.UploadAction)
    : outcome (option error * list Message) :=
  let contractRevision := emptyRevision in
  let blockBytes :=
    to_uint64 (SectorSize * to_uint64 (Upload.NewWindowEnd contractRevision - currentBlockHeight)) in
  let sectorBandwidthPrice := UploadBandwidthPrice hostInfo * SectorSize in
  let sectorStoragePrice := StoragePrice hostInfo * blockBytes in
  let sectorDeposit := Deposit hostInfo * blockBytes in
  let! loop := writeLoop sectorBandwidthPrice actions None (Upload.NewFileSize contractRevision) in
  let bandwidthPrice := fst loop in
  let newFileSize := snd loop in
  let prices :=
    if Upload.NewFileSize contractRevision <? newFileSize then
      let addedSectors := (newFileSize - Upload.NewFileSize contractRevision) / SectorSize in
      (Some (sectorStoragePrice * addedSectors), Some (sectorDeposit * addedSectors))
    else (None, None) in
  let proofSize := to_int64 (HashSize * (128 + Z.of_nat (length actions))) in
  let! bandwidthPrice :=
    bigIntAdd bandwidthPrice bandwidthPrice
      (Some (DownloadBandwidthPrice hostInfo * to_uint64 proofSize)) in
  writeRest bandwidthPrice (fst prices) (snd prices) newFileSize.

(** [StorageClient.Append] *)
Definition Append (hostInfo : HostInfo) (data : bytes) : outcome (option error * list Message) :=
  Write hostInfo [Upload.mkUploadAction Upload.UploadActionAppend data].

End Write.

Section ReadPrice.
(** [storage.SectorSize], [storage.SegmentSize], [storage.HashSize] and
    [storage.RPCMinLen]. *)
Variable SectorSize SegmentSize HashSize RPCMinLen : Z.
Variable Message : Type.
(** What [Read] does after the funds check, from the price: the
    exchange with the host, its error, the messages it sends and the bytes
    it writes to [w]. *)
Variable readRest : Z -> outcome (option error * list Message * bytes).

(** [StorageClient.Read] in full up to the funds check: the sanity check,
    the bandwidth estimate, the sector accesses (a set of Merkle roots) and
    the price; [lastRevision] is [types.StorageContractRevision{}].  The
    result is the error, the messages sent and the bytes written to [w]. *)
Definition ReadPriced (hostInfo : HostInfo) (req : DownloadRequest)
    : outcome (option error * list Message * bytes) :=
  match checkSections SectorSize SegmentSize (MerkleProof req) (Sections req) with
  | Some e => Return (Some e, [], [])
  | None =>
      let totalLength := fold_left (fun t sec => to_uint64 (t + Length sec)) (Sections req) 0 in
      let estProofHashes :=
        if MerkleProof req then
          let estHashesPerProof := 2 * Len64 (SectorSize / SegmentSize) in
          to_uint64 (Z.of_nat (length (Sections req)) * estHashesPerProof)
        else 0 in
      let estBandwidth := to_uint64 (totalLength + to_uint64 (estProofHashes * HashSize)) in
      let estBandwidth := if estBandwidth <? RPCMinLen then RPCMinLen else estBandwidth in
      let sectorAccesses :=
        nodup (list_eq_dec Byte.byte_eq_dec) (map MerkleRoot (Sections req)) in
      let lastRevision := emptyRevision in
      let bandwidthPrice := DownloadBandwidthPrice hostInfo * estBandwidth in
      let sectorAccessPrice := SectorAccessPrice hostInfo * Z.of_nat (length sectorAccesses) in
      let price := BaseRPCPrice hostInfo + bandwidthPrice + sectorAccessPrice in
      let! out0 := index (Upload.NewValidProofOutputs lastRevision) 0 in
      if Upload.Value out0 <? price
      then Return (Some (ErrSession 0), [], [])  (* "contract has insufficient funds ..." *)
      else readRest price
  end.

(** [StorageClient.Download]: one section, a Merkle proof requested,
    the bytes written to the buffer and the error. *)
Definition Download (hostInfo : HostInfo) (root : bytes) (offset length : Z)
    : outcome (bytes * option error) :=
  let req := mkDownloadRequest [mkSection root offset length] true in
  let! r := ReadPriced hostInfo req in
  let '(err, _, buf) := r in
  Return (buf, err).

End ReadPrice.

End Client.

(** ** Host scoring (package storagehostmanager, src/unnamed/part_000) *)

Module HostScore.
Import Floats.

(** [storage.HostInfo] is not in src: its fields [FirstSeen] and
    [RemainingStorage] and the host manager's [blockHeight] are unsigned
    block heights and byte counts, modelled as non-negative [Z]; the
    constant [minStorage] (not in src) is a parameter, and the products
    [k*minStorage] are exact.  A [float64] is a primitive binary64 float,
    whose operations round as Go's do. *)

(** [ageAdjustment] *)
Definition ageAdjustment (blockHeight FirstSeen : Z) : float :=
  let base := 1%float in
  if FirstSeen <=? blockHeight then
    let age := blockHeight - FirstSeen in
    let base := if age <? 12000 then (base * 2 / 3)%float else base in
    let base := if age <? 6000 then (base / 2)%float else base in
    let base := if age <? 4000 then (base / 2)%float else base in
    let base := if age <? 2000 then (base / 2)%float else base in
    let base := if age <? 1000 then (base / 3)%float else base in
    let base := if age <? 576 then (base / 3)%float else base in
    let base := if age <? 288 then (base / 3)%float else base in
    let base := if age <? 144 then (base / 3)%float else base in
    base
  else base.

(** [storageRemainingAdjustment] *)
Definition storageRemainingAdjustment (minStorage RemainingStorage : Z) : float :=
  let base := 1%float in
  let base := if RemainingStorage <? 100 * minStorage then (base / 2)%float else base in
  let base := if RemainingStorage <? 80 * minStorage then (base / 2)%float else base in
  let base := if RemainingStorage <? 40 * minStorage then (base / 2)%float else base in
  let base := if RemainingStorage <? 20 * minStorage then (base / 2)%float else base in
  let base := if RemainingStorage <? 15 * minStorage then (base / 2)%float else base in
  let base := if RemainingStorage <? 10 * minStorage then (base / 2)%float else base in
  let base := if RemainingStorage <? 5 * minStorage then (base / 2)%float else base in
  let base := if RemainingStorage <? 3 * minStorage then (base / 2)%float else base in
  let base := if RemainingStorage <? 2 * minStorage then (base / 2)%float else base in
  let base := if RemainingStorage <? minStorage then (base / 2)%float else base in
  base.

(** Auxiliary notions for the proofs: a chain of [if x < t { base = op(base) }]
    steps, and the same operations applied unconditionally. *)
Definition thresholdFold (x : Z) (l : list (Z * (float -> float))) (b : float) : float :=
  fold_left (fun b p => if x <? fst p then snd p b else b) l b.

Definition applyAll (l : list (Z * (float -> float))) (b : float) : float :=
  fold_left (fun b p => snd p b) l b.

Definition ageSteps : list (Z * (float -> float)) :=
  [(12000, fun b => (b * 2 / 3)%float); (6000, fun b => (b / 2)%float);
   (4000, fun b => (b / 2)%float); (2000, fun b => (b / 2)%float);
   (1000, fun b => (b / 3)%float); (576, fun b => (b / 3)%float);
   (288, fun b => (b / 3)%float); (144, fun b => (b / 3)%float)].

Definition storageSteps (minStorage : Z) : list (Z * (float -> float)) :=
  [(100 * minStorage, fun b => (b / 2)%float); (80 * minStorage, fun b => (b / 2)%float);
   (40 * minStorage, fun b => (b / 2)%float); (20 * minStorage, fun b => (b / 2)%float);
   (15 * minStorage, fun b => (b / 2)%float); (10 * minStorage, fun b => (b / 2)%float);
   (5 * minStorage, fun b => (b / 2)%float); (3 * minStorage, fun b => (b / 2)%float);
   (2 * minStorage, fun b => (b / 2)%float); (minStorage, fun b => (b / 2)%float)].

End HostScore.

(** ** Lucky wheel (package dpos) *)

Module LuckyWheel.

Record randomSelectorEntry := mkEntry { addr : Z; vote : Z }.

(** The [for i, entry := range lw.entries] scan with the running value of
    [selected]. *)
Fixpoint scanEntries (i : Z) (entries : list randomSelectorEntry) (selected : Z) : option Z :=
  match entries with
  | [] => None
  | entry :: rest =>
      if vote entry <=? selected then Some i
      else scanEntries (i + 1) rest (selected - vote entry)
  end.

(** [selectSingleEntry], with [selected = randomBigInt(lw.rand, lw.sumVotes)]
    as input. *)
Definition selectSingleEntry (entries : list randomSelectorEntry) (selected : Z) : Z :=
  match scanEntries 0 entries selected with
  | Some i => i
  | None => Z.of_nat (length entries) - 1
  end.

(** [errRandomSelectNotEnoughEntries] *)
Inductive error := errRandomSelectNotEnoughEntries.

(** [luckyWheel]: addresses are [Z], the zero address is [0].  The random
    source is not a field of the model: the [i]-th number drawn by
    [randomBigInt(lw.rand, lw.sumVotes)] is an input of [randomSelect], so
    every statement holds for every sequence of draws.  [done] is the state
    of [lw.once]. *)
Record luckyWheel := mkLuckyWheel {
  entries : list randomSelectorEntry;
  target : Z;
  results : list Z;
  sumVotes : Z;
  done : bool
}.

(** [newLuckyWheel]: [make([]common.Address, target)] panics on a negative
    length. *)
Definition newLuckyWheel (es : list randomSelectorEntry) (target : Z)
    : outcome (option luckyWheel * option error) :=
  if Z.of_nat (length es) <? target then Return (None, Some errRandomSelectNotEnoughEntries)
  else if target <? 0 then Panic
  else Return (Some (mkLuckyWheel es target (repeat 0 (Z.to_nat target))
                       (fold_left (fun s e => s + vote e) es 0) false), None).

(** [lw.entries[selectedIndex]] with an [int] index. *)
Definition indexZ {A : Type} (l : list A) (i : Z) : outcome A :=
  if i <? 0 then Panic else index l (Z.to_nat i).

(** The loop of [randomSelect], [n] iterations left, [i] the iteration
    number.  The result of [lw.sumVotes.Sub(selectedEntry.vote)] is
    discarded by the source; the sum only feeds the draws. *)
Fixpoint randomSelectLoop (draws : nat -> Z) (i n : nat) (lw : luckyWheel) : outcome luckyWheel :=
  match n with
  | O => Return lw
  | S n' =>
      let selectedIndex := selectSingleEntry (entries lw) (draws i) in
      let! selectedEntry := indexZ (entries lw) selectedIndex in
      let results' := results lw ++ [addr selectedEntry] in
      let entries' :=
        if selectedIndex =? Z.of_nat (length (entries lw)) - 1
        then firstn (length (entries lw) - 1) (entries lw)
        else firstn (Z.to_nat selectedIndex) (entries lw) ++
             skipn (Z.to_nat (selectedIndex + 1)) (entries lw) in
      randomSelectLoop draws (S i) n'
        (mkLuckyWheel entries' (target lw) results' (sumVotes lw) (done lw))
  end.

(** [randomSelect]: [for i := 0; i < lw.target; i++]. *)
Definition randomSelect (draws : nat -> Z) (lw : luckyWheel) : outcome luckyWheel :=
  randomSelectLoop draws 0 (Z.to_nat (target lw)) lw.

(** [RandomSelect]: [lw.once.Do(lw.randomSelect)], then [lw.results]. *)
Definition RandomSelect (draws : nat -> Z) (lw : luckyWheel) : outcome (list Z * luckyWheel) :=
  if done lw then Return (results lw, lw)
  else
    let! lw' := randomSelect draws lw in
    let lw' := mkLuckyWheel (entries lw') (target lw') (results lw') (sumVotes lw') true in
    Return (results lw', lw').

End LuckyWheel.

(** ** Host sector reads (package storagehost) *)

Module Host.

(** A host error value. *)
Inductive error := ErrSectorNotFound.

(** The execution of a call to [StorageHost.ReadSector]: the call stack of
    pending [ReadSector] frames and either the running call or its
    result. *)
Inductive state :=
| Running (depth : nat) (sectorRoot : bytes)
| Returned (data : bytes) (err : option error).

(** The body of [ReadSector] is [return h.ReadSector(sectorRoot)]: it calls
    itself with the same argument, pushing a new frame. *)
Inductive step : state -> state -> Prop :=
| step_call d r : step (Running d r) (Running (S d) r).

Inductive steps : state -> state -> Prop :=
| steps_refl s : steps s s
| steps_next s1 s2 s3 : step s1 s2 -> steps s2 s3 -> steps s1 s3.

(** [h.ReadSector(sectorRoot)] called from outside. *)
Definition ReadSector (sectorRoot : bytes) : state := Running 0 sectorRoot.

End Host.

(** * Proofs *)

(** ** Go integers *)

Lemma to_uint64_small (z : Z) : 0 <= z < 2 ^ 64 -> to_uint64 z = z.
Proof. intros H. unfold to_uint64. apply Z.mod_small; exact H. Qed.

Lemma to_int64_small (z : Z) : 0 <= z < 2 ^ 63 -> to_int64 z = z.
Proof.
  intros H. unfold to_int64. rewrite Z.mod_small; lia.
Qed.

Lemma to_uint64_to_int64 (z : Z) : 0 <= z < 2 ^ 64 -> to_uint64 (to_int64 z) = z.
Proof.
  intros H. unfold to_uint64, to_int64.
  rewrite Zminus_mod_idemp_l. replace (z + 2 ^ 63 - 2 ^ 63) with z by lia.
  apply Z.mod_small; exact H.
Qed.

Lemma ptz_nonneg (p : positive) : 0 <= ptz p.
Proof. induction p; cbn [ptz]; lia. Qed.

Lemma ptz_divide (p : positive) : Z.divide (2 ^ ptz p) (Zpos p).
Proof.
  induction p as [q _|q IH|]; cbn [ptz].
  - exists (Zpos (xI q)). lia.
  - destruct IH as [c Hc]. exists c.
    rewrite Z.pow_add_r by (lia || apply ptz_nonneg).
    rewrite (Pos2Z.inj_xO q), Hc. lia.
  - exists 1. lia.
Qed.

Lemma TrailingZeros64_range (x : Z) : 0 <= TrailingZeros64 x <= 64.
Proof.
  unfold TrailingZeros64.
  assert (Hr : 0 <= to_uint64 x < 2 ^ 64) by (apply Z.mod_pos_bound; lia).
  destruct (to_uint64 x) as [|p|p] eqn:E; try lia.
  split; [apply ptz_nonneg|].
  assert (Hd := ptz_divide p).
  apply Z.divide_pos_le in Hd; [|lia].
  destruct (Z.le_gt_cases (ptz p) 64) as [|Hgt]; [assumption|].
  assert (2 ^ 64 < 2 ^ ptz p) by (apply Z.pow_lt_mono_r; lia). lia.
Qed.

Lemma TrailingZeros64_divide (x : Z) :
  0 <= x < 2 ^ 64 -> Z.divide (2 ^ TrailingZeros64 x) x.
Proof.
  intros H. unfold TrailingZeros64. rewrite (to_uint64_small x H).
  destruct x as [|p|p]; [apply Z.divide_0_r | apply ptz_divide | lia].
Qed.

Lemma ptz_pow2 (k : nat) :
  exists p, 2 ^ Z.of_nat k = Zpos p /\ ptz p = Z.of_nat k.
Proof.
  induction k as [|k [p [Hp Ht]]].
  - exists xH. split; reflexivity.
  - exists (xO p). split.
    + rewrite Nat2Z.inj_succ, Z.pow_succ_r, Hp by lia. reflexivity.
    + cbn [ptz]. rewrite Ht. lia.
Qed.

Lemma TrailingZeros64_pow2 (k : nat) :
  (k < 64)%nat -> TrailingZeros64 (2 ^ Z.of_nat k) = Z.of_nat k.
Proof.
  intros Hk. unfold TrailingZeros64.
  rewrite to_uint64_small.
  - destruct (ptz_pow2 k) as [p [Hp Ht]]. rewrite Hp. exact Ht.
  - split; [apply Z.pow_nonneg; lia|apply Z.pow_lt_mono_r; lia].
Qed.

(** ** [adjacentSubtreeSize] *)

Section Adjacent.
Import Merkle.

(** The chosen exponent [k] is [min(TrailingZeros64 left, log2(right-left))]. *)
Lemma adjacentSubtreeSize_spec (left right : Z) :
  0 <= left < right -> right <= MaxUint64 ->
  exists k : nat,
    adjacentSubtreeSize left right = to_int64 (2 ^ Z.of_nat k) /\
    2 ^ Z.of_nat k <= right - left /\
    Z.of_nat k <= TrailingZeros64 left /\
    (k <= 63)%nat.
Proof.
  intros Hlr Hr. unfold MaxUint64 in Hr. unfold adjacentSubtreeSize, Len64.
  rewrite (to_uint64_small (right - left)) by lia.
  replace (right - left =? 0) with false by (symmetry; apply Z.eqb_neq; lia).
  assert (Hl0 : 0 <= Z.log2 (right - left)) by apply Z.log2_nonneg.
  assert (Hl63 : Z.log2 (right - left) < 64)
    by (apply Z.log2_lt_pow2; lia).
  assert (Hls := Z.log2_spec (right - left) ltac:(lia)).
  assert (Htz := TrailingZeros64_range left).
  replace (Z.log2 (right - left) + 1 - 1) with (Z.log2 (right - left)) by lia.
  unfold int_shl1.
  destruct (Z.log2 (right - left) <? TrailingZeros64 left) eqn:Ecmp.
  - apply Z.ltb_lt in Ecmp.
    exists (Z.to_nat (Z.log2 (right - left))).
    rewrite Z2Nat.id by lia.
    rewrite to_uint64_small by lia.
    replace (Z.log2 (right - left) <? 64) with true by (symmetry; apply Z.ltb_lt; lia).
    rewrite Z.shiftl_1_l. repeat split; lia.
  - apply Z.ltb_ge in Ecmp.
    exists (Z.to_nat (TrailingZeros64 left)).
    rewrite Z2Nat.id by lia.
    rewrite to_uint64_small by lia.
    replace (TrailingZeros64 left <? 64) with true by (symmetry; apply Z.ltb_lt; lia).
    rewrite Z.shiftl_1_l.
    assert (2 ^ TrailingZeros64 left <= 2 ^ Z.log2 (right - left))
      by (apply Z.pow_le_mono_r; lia).
    repeat split; lia.
Qed.

Lemma pow2_divide_pow2 (a b : Z) : 0 <= a <= b -> Z.divide (2 ^ a) (2 ^ b).
Proof.
  intros H. exists (2 ^ (b - a)). rewrite <- Z.pow_add_r by lia.
  f_equal; lia.
Qed.

Lemma coverFrom_tiles (fuel : nat) (i e : Z) :
  0 <= i <= e -> e <= MaxUint64 -> (Z.to_nat (e - i) <= fuel)%nat ->
  exists ps, coverFrom fuel i e = Some ps /\ tiles i e ps.
Proof.
  revert i. induction fuel as [|f IH]; intros i Hie He Hf.
  - assert (i = e) by lia. subst. exists []. simpl. rewrite Z.eqb_refl.
    split; [reflexivity|constructor].
  - simpl. destruct (i =? e) eqn:Eq.
    + apply Z.eqb_eq in Eq. subst. exists []. split; [reflexivity|constructor].
    + apply Z.eqb_neq in Eq.
      destruct (adjacentSubtreeSize_spec i e ltac:(lia) He)
        as [k [Hs [Hle [Htz Hk]]]].
      assert (Hpos : 1 <= 2 ^ Z.of_nat k)
        by (change 1 with (2 ^ 0); apply Z.pow_le_mono_r; lia).
      unfold MaxUint64 in He.
      rewrite Hs, to_uint64_to_int64 by lia.
      rewrite (to_uint64_small (i + 2 ^ Z.of_nat k)) by lia.
      destruct (IH (i + 2 ^ Z.of_nat k) ltac:(lia) ltac:(unfold MaxUint64; lia) ltac:(lia))
        as [ps [Hps Hti]].
      rewrite Hps. eexists; split; [reflexivity|].
      constructor; [|exact Hti].
      apply Z.divide_trans with (2 ^ TrailingZeros64 i).
      * apply pow2_divide_pow2; lia.
      * apply TrailingZeros64_divide; lia.
Qed.

End Adjacent.

(** ** Claim C2 *)

(** C2 (counterexample): the claim says [adjacentSubtreeSize left right]
    always returns a power of two.  At [left = 0], [right = 2^63] the Go
    [int] result is [1 << 63], which wraps to [-2^63]. *)
Lemma adjacentSubtreeSize_int_overflow :
  ~ (exists k : nat, Merkle.adjacentSubtreeSize 0 (2 ^ 63) = 2 ^ Z.of_nat k).
Proof.
  intros [k Hk].
  assert (Hv : Merkle.adjacentSubtreeSize 0 (2 ^ 63) = - 2 ^ 63)
    by (vm_compute; reflexivity).
  rewrite Hv in Hk.
  assert (0 < 2 ^ Z.of_nat k) by (apply Z.pow_pos_nonneg; lia). lia.
Qed.

(** C2 (amended): for uint64 indices [left < right], the size returned by
    [adjacentSubtreeSize], read as uint64 as its callers do, is a power of
    two [2^k] no larger than [right - left] that divides the largest power
    of two dividing [left] ([2^64] for [left = 0]); as a Go [int] it is that
    same power of two whenever [right - left < 2^63].  Iterating
    [leafIndex += uint64(adjacentSubtreeSize(leafIndex, right))] from
    [left] stops at [right] within [right - left] steps, and the subtrees
    it visits tile [[left, right)] contiguously, each aligned to its start. *)
Theorem adjacentSubtreeSize_aligned_cover (left right : Z) :
  0 <= left < right -> right <= MaxUint64 ->
  (exists k : nat,
      to_uint64 (Merkle.adjacentSubtreeSize left right) = 2 ^ Z.of_nat k /\
      2 ^ Z.of_nat k <= right - left /\
      Z.divide (2 ^ Z.of_nat k) (2 ^ TrailingZeros64 left) /\
      (right - left < 2 ^ 63 ->
       Merkle.adjacentSubtreeSize left right = 2 ^ Z.of_nat k)) /\
  (exists ps, Merkle.coverFrom (Z.to_nat (right - left)) left right = Some ps /\
              Merkle.tiles left right ps).
Proof.
  intros Hlr Hr. split.
  - destruct (adjacentSubtreeSize_spec left right Hlr Hr) as [k [Hs [Hle [Htz Hk]]]].
    exists k. unfold MaxUint64 in Hr.
    assert (Hpos : 0 < 2 ^ Z.of_nat k) by (apply Z.pow_pos_nonneg; lia).
    split; [rewrite Hs; apply to_uint64_to_int64; lia|].
    split; [exact Hle|].
    split; [apply pow2_divide_pow2; split; [lia|exact Htz]|].
    intros Hsmall. rewrite Hs. apply to_int64_small. lia.
  - apply coverFrom_tiles; lia.
Qed.

Lemma adjacentSubtreeSize_aligned_cover_witness :
  (0 <= 3 < 10 /\ 10 <= MaxUint64) /\
  ((exists k : nat,
      to_uint64 (Merkle.adjacentSubtreeSize 3 10) = 2 ^ Z.of_nat k /\
      2 ^ Z.of_nat k <= 10 - 3 /\
      Z.divide (2 ^ Z.of_nat k) (2 ^ TrailingZeros64 3) /\
      (10 - 3 < 2 ^ 63 -> Merkle.adjacentSubtreeSize 3 10 = 2 ^ Z.of_nat k)) /\
   (exists ps, Merkle.coverFrom (Z.to_nat (10 - 3)) 3 10 = Some ps /\
               Merkle.tiles 3 10 ps)).
Proof.
  split; [unfold MaxUint64; lia|].
  apply (adjacentSubtreeSize_aligned_cover 3 10); unfold MaxUint64; lia.
Defined.

(** ** The Merkle tree stack *)

Section Stack.
Import Merkle.
Variable nodeSum : bytes -> bytes -> bytes.

Local Abbreviation J := (joinAllSubTrees nodeSum).
Local Abbreviation P0 := (push0All nodeSum).

Lemma ready_0 (s : Tree) : ready 0 s.
Proof. unfold ready. rewrite Forall_forall. intros; lia. Qed.

Lemma ready_weaken (h h' : nat) (s : Tree) : (h' <= h)%nat -> ready h s -> ready h' s.
Proof. intros Hle. unfold ready. apply Forall_impl. intros; lia. Qed.

Lemma J_nil (a : subTree) : J a [] = [a].
Proof. reflexivity. Qed.

Lemma J_top (a : subTree) (s : Tree) : ready (S (height a)) s -> J a s = a :: s.
Proof.
  intros H. destruct s as [|b s]; [reflexivity|].
  inversion H as [|? ? Hb _]; subst. simpl.
  replace (Nat.eqb (height a) (height b)) with false
    by (symmetry; apply Nat.eqb_neq; lia).
  reflexivity.
Qed.

Lemma push0All_nil (s : Tree) : P0 s [] = s.
Proof. reflexivity. Qed.

Lemma push0All_app (s : Tree) (l1 l2 : list bytes) :
  P0 s (l1 ++ l2) = P0 (P0 s l1) l2.
Proof. unfold push0All. apply fold_left_app. Qed.

Lemma push0All_cons (s : Tree) (x : bytes) (l : list bytes) :
  P0 s (x :: l) = P0 (J (mkSubTree 0 x) s) l.
Proof. reflexivity. Qed.

Lemma pow2_pos (k : nat) : (0 < 2 ^ k)%nat.
Proof. apply Nat.neq_0_lt_0. apply Nat.pow_nonzero. lia. Qed.

(** Pushing the [2^k] leaves of a perfect block onto a stack whose subtrees
    are all at least [2^k] wide amounts to pushing the block's root. *)
Lemma push0All_perfect (k : nat) : forall (blk : list bytes) (s : Tree),
  length blk = (2 ^ k)%nat -> ready k s ->
  P0 s blk = J (mkSubTree k (ptree nodeSum k blk)) s.
Proof.
  induction k as [|k IH]; intros blk s Hlen Hs.
  - destruct blk as [|x [|y l]]; simpl in Hlen; try lia. reflexivity.
  - rewrite <- (firstn_skipn (2 ^ k) blk) at 1.
    assert (H1 : length (firstn (2 ^ k) blk) = (2 ^ k)%nat)
      by (rewrite length_firstn, Hlen; simpl; lia).
    assert (H2 : length (skipn (2 ^ k) blk) = (2 ^ k)%nat)
      by (rewrite length_skipn, Hlen; simpl; lia).
    rewrite push0All_app.
    rewrite (IH _ s H1 (ready_weaken (S k) k s ltac:(lia) Hs)).
    rewrite J_top by exact Hs.
    rewrite (IH _ _ H2).
    + simpl. rewrite Nat.eqb_refl. reflexivity.
    + constructor; [simpl; lia|]. apply (ready_weaken (S k)); [lia|exact Hs].
Qed.

Lemma J_incr (s : Tree) : forall (a : subTree),
  incr s -> ready (height a) s ->
  incr (J a s) /\ sumH (J a s) = (2 ^ height a + sumH s)%nat.
Proof.
  induction s as [|b s IH]; intros a Hi Hr.
  - simpl. split; [split; [constructor|exact I]|reflexivity].
  - inversion Hr as [|? ? Hab Hrs]; subst. destruct Hi as [Hbs Hi].
    simpl. destruct (Nat.eqb (height a) (height b)) eqn:E.
    + apply Nat.eqb_eq in E.
      destruct (IH (joinSubTrees nodeSum b a) Hi) as [Hi' Hs'].
      * unfold joinSubTrees. simpl. exact Hbs.
      * split; [exact Hi'|]. rewrite Hs'. unfold joinSubTrees. simpl.
        rewrite E. lia.
    + apply Nat.eqb_neq in E. split; [|reflexivity].
      split; [|split; [exact Hbs|exact Hi]].
      constructor; [lia|].
      apply (ready_weaken (S (height b))); [lia|exact Hbs].
Qed.

Lemma push0All_incr (l : list bytes) : forall (s : Tree),
  incr s -> incr (P0 s l) /\ sumH (P0 s l) = (sumH s + length l)%nat.
Proof.
  induction l as [|x l IH]; intros s Hs.
  - simpl. split; [exact Hs|lia].
  - rewrite push0All_cons.
    destruct (J_incr s (mkSubTree 0 x) Hs (ready_0 s)) as [Hi Hsum].
    destruct (IH _ Hi) as [Hi' Hs']. split; [exact Hi'|].
    rewrite Hs', Hsum. simpl. lia.
Qed.

Lemma push0All_nil_incr (l : list bytes) :
  incr (P0 [] l) /\ sumH (P0 [] l) = length l.
Proof. apply (push0All_incr l [] I). Qed.

Lemma ready_sumH_divide (g : nat) (s : Tree) :
  ready g s -> Nat.divide (2 ^ g) (sumH s).
Proof.
  induction s as [|a s IH]; intros H.
  - apply Nat.divide_0_r.
  - inversion H as [|? ? Ha Hs]; subst. simpl.
    apply Nat.divide_add_r; [|exact (IH Hs)].
    exists (2 ^ (height a - g))%nat. rewrite <- Nat.pow_add_r. f_equal. lia.
Qed.

(** A stack of strictly increasing heights whose leaf count is a multiple
    of [2^h] holds only subtrees of height [h] or more. *)
Lemma ready_of_divide (h : nat) (s : Tree) :
  incr s -> Nat.divide (2 ^ h) (sumH s) -> ready h s.
Proof.
  destruct s as [|a r]; intros Hi Hd; [constructor|].
  destruct Hi as [Hr _].
  assert (Hle : (h <= height a)%nat).
  { destruct (Nat.le_gt_cases h (height a)) as [|Hgt]; [assumption|exfalso].
    assert (Hd1 : Nat.divide (2 ^ S (height a)) (sumH (a :: r))).
    { apply Nat.divide_trans with (2 ^ h)%nat; [|exact Hd].
      exists (2 ^ (h - S (height a)))%nat. rewrite <- Nat.pow_add_r. f_equal. lia. }
    cbn [sumH] in Hd1.
    assert (Hd2 := ready_sumH_divide _ _ Hr).
    rewrite Nat.add_comm in Hd1.
    assert (Hd3 := Nat.divide_add_cancel_r _ _ _ Hd2 Hd1).
    apply Nat.divide_pos_le in Hd3; [|apply pow2_pos].
    rewrite Nat.pow_succ_r' in Hd3. assert (Hp := pow2_pos (height a)). lia. }
  constructor; [exact Hle|]. apply (ready_weaken (S (height a))); [lia|exact Hr].
Qed.

Lemma J_app (P : Tree) : forall (a : subTree) (t : Tree) (h : nat),
  ready h t -> (2 ^ height a + sumH P < 2 ^ h)%nat ->
  J a (P ++ t) = J a P ++ t.
Proof.
  induction P as [|b P IH]; intros a t h Ht Hlt.
  - simpl app. destruct t as [|c t]; [reflexivity|].
    inversion Ht as [|? ? Hc _]; subst.
    assert (Hah : (height a < h)%nat).
    { destruct (Nat.le_gt_cases h (height a)) as [Hge|]; [|assumption].
      assert (Nat.pow 2 h <= Nat.pow 2 (height a))%nat by (apply Nat.pow_le_mono_r; lia).
      cbn [sumH] in Hlt. lia. }
    simpl. replace (Nat.eqb (height a) (height c)) with false
      by (symmetry; apply Nat.eqb_neq; lia). reflexivity.
  - simpl. destruct (Nat.eqb (height a) (height b)) eqn:E; [|reflexivity].
    apply Nat.eqb_eq in E.
    apply (IH _ t h Ht). unfold joinSubTrees. cbn [height sumH] in *.
    rewrite Nat.pow_succ_r'. rewrite E in Hlt. lia.
Qed.

(** Fewer than [2^h] leaves pushed onto a stack of subtrees of height [h]
    or more build a separate stack on top of it. *)
Lemma push0All_short (h : nat) (t : Tree) (l : list bytes) :
  ready h t -> (length l < 2 ^ h)%nat -> P0 t l = P0 [] l ++ t.
Proof.
  intros Ht. induction l as [|x l IH] using rev_ind; intros Hl.
  - reflexivity.
  - rewrite length_app in Hl. simpl in Hl.
    rewrite !push0All_app, IH by lia. simpl.
    apply (J_app _ _ _ h Ht). simpl.
    rewrite (proj2 (push0All_nil_incr l)). lia.
Qed.

Lemma Root_J (s : Tree) : forall (a : subTree),
  Root nodeSum (J a s) = Root nodeSum (a :: s).
Proof.
  induction s as [|b s IH]; intros a; [reflexivity|].
  simpl. destruct (Nat.eqb (height a) (height b)); [|reflexivity].
  rewrite IH. reflexivity.
Qed.

Lemma RootBytes_app (P t : Tree) : P <> [] ->
  RootBytes nodeSum (P ++ t) =
  fold_left (fun acc st => nodeSum (sum st) acc) t (RootBytes nodeSum P).
Proof.
  destruct P as [|p P]; intros H; [congruence|].
  unfold RootBytes. simpl. rewrite fold_left_app. reflexivity.
Qed.

Lemma PushSubTree_ready (h : nat) (x : bytes) (t : Tree) :
  ready h t -> PushSubTree nodeSum (Z.of_nat h) x t = Ok (J (mkSubTree h x) t).
Proof.
  intros Ht. unfold PushSubTree.
  replace (Z.of_nat h <? 0) with false by (symmetry; apply Z.ltb_ge; lia).
  rewrite Nat2Z.id.
  destruct t as [|top r]; [reflexivity|].
  inversion Ht as [|? ? Htop _]; subst.
  replace (Nat.ltb (height top) h) with false by (symmetry; apply Nat.ltb_ge; lia).
  reflexivity.
Qed.

Lemma PushSubTree_0 (x : bytes) (t : Tree) :
  PushSubTree nodeSum 0 x t = Ok (J (mkSubTree 0 x) t).
Proof. apply (PushSubTree_ready 0 x t (ready_0 t)). Qed.

Lemma pushCachedRoots_spec (roots : list bytes) : forall (t : Tree),
  pushCachedRoots nodeSum roots t = Ok (P0 t roots).
Proof.
  induction roots as [|r rs IH]; intros t; [reflexivity|].
  simpl. rewrite PushSubTree_0. apply IH.
Qed.

Lemma CachedTreeRoot_spec (roots : list bytes) :
  CachedTreeRoot nodeSum roots = RootBytes nodeSum (P0 [] roots).
Proof. unfold CachedTreeRoot. rewrite pushCachedRoots_spec. reflexivity. Qed.

Lemma cachedPushLoop_spec (roots : list bytes) : forall (i n : Z) (t : Tree),
  cachedPushLoop nodeSum i n t roots =
  (Ok (P0 t (firstn (Z.to_nat (n - i)) roots)), skipn (Z.to_nat (n - i)) roots).
Proof.
  induction roots as [|r rest IH]; intros i n t.
  - simpl. rewrite firstn_nil, skipn_nil. reflexivity.
  - simpl. destruct (i <? n) eqn:E.
    + apply Z.ltb_lt in E. rewrite PushSubTree_0, IH.
      replace (Z.to_nat (n - i)) with (S (Z.to_nat (n - (i + 1)))) by lia.
      reflexivity.
    + apply Z.ltb_ge in E. replace (Z.to_nat (n - i)) with O by lia. reflexivity.
Qed.

Lemma cached_GetSubtreeRoot_spec (roots : list bytes) (n : Z) :
  cached_GetSubtreeRoot nodeSum (mkCachedSubtreeRoot roots) n =
  match roots with
  | [] => (Err EOF, mkCachedSubtreeRoot roots)
  | _ => (Ok (RootBytes nodeSum (P0 [] (firstn (Z.to_nat n) roots))),
          mkCachedSubtreeRoot (skipn (Z.to_nat n) roots))
  end.
Proof.
  unfold cached_GetSubtreeRoot. simpl. destruct roots as [|r rest]; [reflexivity|].
  rewrite cachedPushLoop_spec, Z.sub_0_r. reflexivity.
Qed.

Lemma RootBytes_perfect (k : nat) (blk : list bytes) :
  length blk = (2 ^ k)%nat -> RootBytes nodeSum (P0 [] blk) = ptree nodeSum k blk.
Proof.
  intros H. rewrite (push0All_perfect k blk [] H (Forall_nil _)). reflexivity.
Qed.

End Stack.

Lemma firstn_add {A : Type} (i m : nat) (l : list A) :
  firstn (i + m) l = firstn i l ++ firstn m (skipn i l).
Proof.
  revert l. induction i as [|i IH]; intros l; [reflexivity|].
  destruct l as [|x l]; simpl; [rewrite firstn_nil; reflexivity|].
  rewrite IH. reflexivity.
Qed.

Lemma Zdivide_nat (a b : nat) :
  Z.divide (Z.of_nat a) (Z.of_nat b) -> Nat.divide a b.
Proof.
  intros [z Hz]. destruct a as [|a].
  - assert (b = O) by lia. subst. apply Nat.divide_0_r.
  - assert (0 <= z) by nia. exists (Z.to_nat z). apply Nat2Z.inj.
    rewrite Nat2Z.inj_mul, Z2Nat.id by lia. lia.
Qed.

Section Steps.
Import Merkle.

Lemma consumeUntil_done {Src : Type} (sr : SubtreeRoot Src) (fuel : nat) (e : Z)
    (P : list bytes) (s : Src) :
  consumeUntil sr fuel e (mkProofState e P s) = (None, mkProofState e P s).
Proof. destruct fuel; cbn [consumeUntil leafIndex]; rewrite Z.eqb_refl; reflexivity. Qed.

Lemma consumeUntil_S {Src : Type} (sr : SubtreeRoot Src) (f : nat) (e : Z)
    (st : proofState Src) :
  leafIndex st <> e ->
  consumeUntil sr (S f) e st =
  match GetSubtreeRoot sr (source st) (adjacentSubtreeSize (leafIndex st) e) with
  | (Err er, src') => (Some er, mkProofState (leafIndex st) (storageProofList st) src')
  | (Ok root, src') =>
      consumeUntil sr f e
        (mkProofState (to_uint64 (leafIndex st + to_uint64 (adjacentSubtreeSize (leafIndex st) e)))
           (storageProofList st ++ [root]) src')
  end.
Proof.
  intros H. cbn [consumeUntil]. rewrite (proj2 (Z.eqb_neq _ _) H).
  destruct (GetSubtreeRoot sr (source st) (adjacentSubtreeSize (leafIndex st) e))
    as [[r|er] src']; reflexivity.
Qed.

Lemma vConsumeUntil_done (nodeSum : bytes -> bytes -> bytes) (e : Z)
    (R : list bytes) (t : Tree) :
  vConsumeUntil nodeSum e R e t = (None, (e, R, t)).
Proof. destruct R; cbn [vConsumeUntil]; [reflexivity|]. rewrite Z.eqb_refl. reflexivity. Qed.

Lemma vConsumeUntil_cons (nodeSum : bytes -> bytes -> bytes) (e : Z) (p : bytes)
    (rest : list bytes) (i : Z) (t : Tree) :
  i <> e ->
  vConsumeUntil nodeSum e (p :: rest) i t =
  match PushSubTree nodeSum (TrailingZeros64 (to_uint64 (adjacentSubtreeSize i e))) p t with
  | Err er => (Some er, (i, p :: rest, t))
  | Ok t' => vConsumeUntil nodeSum e rest (to_uint64 (i + to_uint64 (adjacentSubtreeSize i e))) t'
  end.
Proof. intros H. cbn [vConsumeUntil]. rewrite (proj2 (Z.eqb_neq _ _) H). reflexivity. Qed.

End Steps.

Section RoundTrip.
Import Merkle.
Variable nodeSum : bytes -> bytes -> bytes.
Variable L : list bytes.
Hypothesis HN : Z.of_nat (length L) < 2 ^ 63.

Local Abbreviation P0 := (push0All nodeSum).
Local Abbreviation CS := (cachedSubtreeRoot nodeSum).

Lemma cached_GetSubtreeRoot_some (roots : list bytes) (n : Z) :
  roots <> [] ->
  cached_GetSubtreeRoot nodeSum (mkCachedSubtreeRoot roots) n =
  (Ok (RootBytes nodeSum (P0 [] (firstn (Z.to_nat n) roots))),
   mkCachedSubtreeRoot (skipn (Z.to_nat n) roots)).
Proof.
  intros H. rewrite cached_GetSubtreeRoot_spec. destruct roots; [congruence|reflexivity].
Qed.

Lemma stack_ready (i k : nat) :
  (i <= length L)%nat -> Z.divide (2 ^ Z.of_nat k) (Z.of_nat i) ->
  ready k (P0 [] (firstn i L)).
Proof.
  intros Hi Hd. destruct (push0All_nil_incr nodeSum (firstn i L)) as [Hinc Hs].
  apply ready_of_divide; [exact Hinc|]. rewrite Hs, length_firstn.
  replace (Nat.min i (length L)) with i by lia.
  apply Zdivide_nat. rewrite Nat2Z.inj_pow. exact Hd.
Qed.

(** One subtree step of both [consumeUntil] closures from an aligned index
    [i] towards [e]. *)
Lemma aligned_step (i e : nat) :
  (i < e)%nat -> Z.of_nat e <= MaxUint64 ->
  Z.of_nat e - Z.of_nat i < 2 ^ 63 \/ (1 <= i /\ i <= length L)%nat ->
  exists k : nat,
    adjacentSubtreeSize (Z.of_nat i) (Z.of_nat e) = Z.of_nat (2 ^ k) /\
    (1 <= 2 ^ k <= e - i)%nat /\
    TrailingZeros64 (to_uint64 (Z.of_nat (2 ^ k))) = Z.of_nat k /\
    Z.divide (2 ^ Z.of_nat k) (Z.of_nat i) /\
    (i + 2 ^ k <= 2 * i \/ i = O)%nat.
Proof.
  intros Hie He Hd. unfold MaxUint64 in He.
  destruct (adjacentSubtreeSize_spec (Z.of_nat i) (Z.of_nat e) ltac:(lia)
              ltac:(unfold MaxUint64; lia)) as [k [Hs [Hle [Htz Hk]]]].
  assert (Hm : Z.of_nat (2 ^ k) = 2 ^ Z.of_nat k) by (rewrite Nat2Z.inj_pow; reflexivity).
  assert (Hp := pow2_pos k).
  assert (Hdiv : Z.divide (2 ^ Z.of_nat k) (Z.of_nat i)).
  { apply Z.divide_trans with (2 ^ TrailingZeros64 (Z.of_nat i)).
    - apply pow2_divide_pow2; lia.
    - apply TrailingZeros64_divide; lia. }
  assert (Hsmall : 2 ^ Z.of_nat k < 2 ^ 63).
  { destruct Hd as [Hd|[Hi1 HiN]]; [lia|].
    apply Z.divide_pos_le in Hdiv; lia. }
  exists k. split; [rewrite Hs, <- Hm; apply to_int64_small; lia|].
  split; [lia|]. split.
  { rewrite to_uint64_small by lia. rewrite Hm. apply TrailingZeros64_pow2. lia. }
  split; [exact Hdiv|].
  destruct i as [|i']; [right; reflexivity|left].
  apply Z.divide_pos_le in Hdiv; lia.
Qed.

Lemma gap_roundtrip (fuel : nat) : forall (i e : nat) (P : list bytes),
  (i <= e <= length L)%nat -> (e - i <= fuel)%nat ->
  exists G,
    consumeUntil CS fuel (Z.of_nat e)
      (mkProofState (Z.of_nat i) P (mkCachedSubtreeRoot (skipn i L)))
    = (None, mkProofState (Z.of_nat e) (P ++ G) (mkCachedSubtreeRoot (skipn e L))) /\
    forall R, vConsumeUntil nodeSum (Z.of_nat e) (G ++ R) (Z.of_nat i) (P0 [] (firstn i L))
      = (None, (Z.of_nat e, R, P0 [] (firstn e L))).
Proof.
  induction fuel as [|f IH]; intros i e P Hie Hf.
  - assert (i = e) by lia. subst. exists []. rewrite app_nil_r.
    split; [apply consumeUntil_done|intros R; apply vConsumeUntil_done].
  - destruct (Nat.eq_dec i e) as [->|Hne].
    { exists []. rewrite app_nil_r.
      split; [apply consumeUntil_done|intros R; apply vConsumeUntil_done]. }
    destruct (aligned_step i e ltac:(lia) ltac:(unfold MaxUint64; lia) ltac:(left; lia))
      as [k [Hsz [Hm [Htzm [Hdiv _]]]]].
    set (m := (2 ^ k)%nat) in *.
    assert (Hidx : to_uint64 (Z.of_nat i + to_uint64 (Z.of_nat m)) = Z.of_nat (i + m)).
    { rewrite (to_uint64_small (Z.of_nat m)) by lia. rewrite to_uint64_small; lia. }
    set (blk := firstn m (skipn i L)).
    assert (Hblk : length blk = m) by (unfold blk; rewrite length_firstn, length_skipn; lia).
    assert (Hne' : skipn i L <> []).
    { intros E. assert (Hl := length_skipn i L). rewrite E in Hl. simpl in Hl. lia. }
    destruct (IH (i + m)%nat e (P ++ [RootBytes nodeSum (P0 [] blk)]) ltac:(lia) ltac:(lia))
      as [G [HC HV]].
    exists (RootBytes nodeSum (P0 [] blk) :: G). split.
    + rewrite consumeUntil_S by (cbn [leafIndex]; lia).
      cbn [leafIndex source storageProofList GetSubtreeRoot cachedSubtreeRoot].
      rewrite Hsz, cached_GetSubtreeRoot_some by exact Hne'.
      rewrite Nat2Z.id, skipn_skipn, Hidx.
      replace (m + i)%nat with (i + m)%nat by lia. fold blk.
      rewrite HC, <- app_assoc. reflexivity.
    + intros R. simpl app.
      rewrite vConsumeUntil_cons by lia.
      rewrite Hsz, Htzm.
      assert (Hr : ready k (P0 [] (firstn i L))) by (apply stack_ready; [lia|exact Hdiv]).
      rewrite PushSubTree_ready by exact Hr.
      rewrite (RootBytes_perfect nodeSum k blk Hblk).
      rewrite <- (push0All_perfect nodeSum k blk _ Hblk Hr).
      rewrite <- push0All_app. unfold blk. rewrite <- firstn_add, Hidx.
      apply HV.
Qed.


Lemma MaxUint64_nat : MaxUint64 = Z.of_nat (Z.to_nat MaxUint64).
Proof. rewrite Z2Nat.id; [reflexivity|unfold MaxUint64; lia]. Qed.

Lemma drain_roundtrip (fuel : nat) : forall (i : nat) (P : list bytes),
  (1 <= i <= length L)%nat -> (length L - i < fuel)%nat ->
  exists j D,
    consumeUntil CS fuel MaxUint64
      (mkProofState (Z.of_nat i) P (mkCachedSubtreeRoot (skipn i L)))
    = (Some EOF, mkProofState j (P ++ D) (mkCachedSubtreeRoot [])) /\
    exists j' t',
      vConsumeUntil nodeSum MaxUint64 D (Z.of_nat i) (P0 [] (firstn i L))
        = (None, (j', [], t')) /\
      RootBytes nodeSum t' = RootBytes nodeSum (P0 [] L).
Proof.
  induction fuel as [|f IH]; intros i P Hi Hf; [lia|].
  assert (HiM : Z.of_nat i <> MaxUint64) by (unfold MaxUint64; lia).
  destruct (Nat.eq_dec i (length L)) as [HiN|HiN].
  - (* no leaf left: the source reports EOF *)
    rewrite (skipn_all2 L) by lia.
    exists (Z.of_nat i), []. rewrite app_nil_r. split.
    + rewrite consumeUntil_S by (cbn [leafIndex]; exact HiM).
      cbn [leafIndex source storageProofList GetSubtreeRoot cachedSubtreeRoot].
      rewrite cached_GetSubtreeRoot_spec. reflexivity.
    + exists (Z.of_nat i), (P0 [] (firstn i L)). split; [reflexivity|].
      rewrite firstn_all2 by lia. reflexivity.
  - rewrite MaxUint64_nat in HiM |- *.
    destruct (aligned_step i (Z.to_nat MaxUint64) ltac:(unfold MaxUint64; lia)
                ltac:(rewrite <- MaxUint64_nat; lia) ltac:(right; lia))
      as [k [Hsz [Hm [Htzm [Hdiv H2i]]]]].
    set (m := (2 ^ k)%nat) in *.
    assert (Hidx : to_uint64 (Z.of_nat i + to_uint64 (Z.of_nat m)) = Z.of_nat (i + m)).
    { rewrite (to_uint64_small (Z.of_nat m)) by lia. rewrite to_uint64_small; lia. }
    set (blk := firstn m (skipn i L)).
    assert (Hne' : skipn i L <> []).
    { intros E. assert (Hl := length_skipn i L). rewrite E in Hl. simpl in Hl. lia. }
    assert (Hr : ready k (P0 [] (firstn i L))) by (apply stack_ready; [lia|exact Hdiv]).
    destruct (Nat.le_gt_cases (i + m) (length L)) as [Hfull|Hshort].
    + (* a whole subtree of the leaves *)
      assert (Hblk : length blk = m) by (unfold blk; rewrite length_firstn, length_skipn; lia).
      destruct (IH (i + m)%nat (P ++ [RootBytes nodeSum (P0 [] blk)]) ltac:(lia) ltac:(lia))
        as [j [D [HC [j' [t' [HV Ht']]]]]].
      exists j, (RootBytes nodeSum (P0 [] blk) :: D). split.
      * rewrite consumeUntil_S by (cbn [leafIndex]; exact HiM).
        cbn [leafIndex source storageProofList GetSubtreeRoot cachedSubtreeRoot].
        rewrite Hsz, cached_GetSubtreeRoot_some by exact Hne'.
        rewrite Nat2Z.id, skipn_skipn, Hidx.
        replace (m + i)%nat with (i + m)%nat by lia. fold blk.
        rewrite <- MaxUint64_nat, HC, <- app_assoc. reflexivity.
      * exists j', t'. split; [|exact Ht'].
        rewrite vConsumeUntil_cons by exact HiM.
        rewrite Hsz, Htzm, PushSubTree_ready by exact Hr.
        rewrite (RootBytes_perfect nodeSum k blk Hblk).
        rewrite <- (push0All_perfect nodeSum k blk _ Hblk Hr).
        rewrite <- push0All_app. unfold blk. rewrite <- firstn_add, Hidx.
        rewrite <- MaxUint64_nat. exact HV.
    + (* the short boundary subtree of the remaining leaves *)
      assert (Hblk : blk = skipn i L) by (unfold blk; apply firstn_all2; rewrite length_skipn; lia).
      destruct f as [|f']; [lia|].
      exists (Z.of_nat (i + m)), [RootBytes nodeSum (P0 [] blk)]. split.
      * rewrite consumeUntil_S by (cbn [leafIndex]; exact HiM).
        cbn [leafIndex source storageProofList GetSubtreeRoot cachedSubtreeRoot].
        rewrite Hsz, cached_GetSubtreeRoot_some by exact Hne'.
        rewrite Nat2Z.id, skipn_skipn, Hidx. fold blk.
        rewrite (skipn_all2 L) by lia.
        rewrite consumeUntil_S by (cbn [leafIndex]; unfold MaxUint64 in *; lia).
        cbn [leafIndex source storageProofList GetSubtreeRoot cachedSubtreeRoot].
        rewrite cached_GetSubtreeRoot_spec. reflexivity.
      * exists (Z.of_nat (i + m)), (joinAllSubTrees nodeSum (mkSubTree k (RootBytes nodeSum (P0 [] blk)))
                                      (P0 [] (firstn i L))).
        split.
        { rewrite vConsumeUntil_cons by exact HiM.
          rewrite Hsz, Htzm, PushSubTree_ready by exact Hr.
          rewrite Hidx. reflexivity. }
        unfold RootBytes at 1. rewrite Root_J.
        rewrite <- (firstn_skipn i L) at 2.
        rewrite push0All_app, (push0All_short nodeSum k _ _ Hr)
          by (rewrite length_skipn; lia).
        rewrite RootBytes_app.
        { rewrite Hblk. reflexivity. }
        intros E. destruct (push0All_nil_incr nodeSum (skipn i L)) as [_ Hs].
        rewrite E in Hs. simpl in Hs. rewrite length_skipn in Hs. lia.
Qed.


Lemma pushClaimedLeaves_cached (l : list bytes) : forall (t : Tree) (lh : list bytes),
  pushClaimedLeaves nodeSum leafRootCached (length l) t (mkLeafRootCached (l ++ lh))
  = (Return (None, P0 t l), mkLeafRootCached lh).
Proof.
  induction l as [|x l IH]; intros t lh; [reflexivity|].
  cbn [length pushClaimedLeaves app GetLeafRoot leafRootCached cached_GetLeafRoot cachedLeafRoots].
  rewrite PushSubTree_0. apply IH.
Qed.

Lemma cached_Skip_ok (l : list bytes) (n : nat) :
  (n <= length l)%nat ->
  cached_Skip (mkCachedSubtreeRoot l) (Z.of_nat n) = (None, mkCachedSubtreeRoot (skipn n l)).
Proof.
  intros H. unfold cached_Skip. cbn [leafRoots].
  replace (Z.of_nat (length l) <? Z.of_nat n) with false by (symmetry; apply Z.ltb_ge; lia).
  replace (Z.of_nat n <? 0) with false by (symmetry; apply Z.ltb_ge; lia).
  rewrite Nat2Z.id. reflexivity.
Qed.

Lemma claimedLeaves_cons (r : SubTreeLimit) (rest : list SubTreeLimit) (l : list bytes) :
  claimedLeaves (r :: rest) l =
  firstn (Z.to_nat (Right r - Left r)) (skipn (Z.to_nat (Left r)) l) ++ claimedLeaves rest l.
Proof. reflexivity. Qed.

Lemma ranges_roundtrip (fuel : nat) : forall (limits : list SubTreeLimit) (i : nat) (P : list bytes),
  validFrom (Z.of_nat i) limits ->
  Forall (fun r => Right r <= Z.of_nat (length L)) limits ->
  (i <= length L)%nat -> (length L <= fuel)%nat ->
  exists j G, (i <= j <= length L)%nat /\ (limits <> [] -> 1 <= j)%nat /\
    excludeRanges CS fuel limits (mkProofState (Z.of_nat i) P (mkCachedSubtreeRoot (skipn i L)))
    = (None, mkProofState (Z.of_nat j) (P ++ G) (mkCachedSubtreeRoot (skipn j L))) /\
    forall R lh,
      verifyRanges nodeSum leafRootCached limits (G ++ R) (Z.of_nat i) (P0 [] (firstn i L))
        (mkLeafRootCached (claimedLeaves limits L ++ lh))
      = (Return (None, (Z.of_nat j, R, P0 [] (firstn j L))), mkLeafRootCached lh).
Proof.
  induction limits as [|r rest IH]; intros i P Hv Hb Hi Hf.
  - exists i, []. rewrite app_nil_r. split; [lia|]. split; [congruence|].
    split; [reflexivity|]. intros R lh. reflexivity.
  - destruct Hv as [Hl [Hlr Hv]]. inversion Hb as [|? ? Hrb Hb']; subst.
    set (a := Z.to_nat (Left r)). set (b := Z.to_nat (Right r)).
    assert (Ha : Left r = Z.of_nat a) by (unfold a; rewrite Z2Nat.id; lia).
    assert (Hbz : Right r = Z.of_nat b) by (unfold b; rewrite Z2Nat.id; lia).
    destruct (gap_roundtrip fuel i a P ltac:(lia) ltac:(lia)) as [G1 [HC1 HV1]].
    rewrite Hbz in Hv.
    destruct (IH b (P ++ G1) Hv Hb' ltac:(lia) Hf) as [j [G2 [Hj [Hj1 [HC2 HV2]]]]].
    assert (Hw : to_uint64 (Right r - Left r) = Z.of_nat (b - a)).
    { rewrite Ha, Hbz, to_uint64_small by lia. lia. }
    assert (Hw' : to_uint64 (Right r - Z.of_nat a) = Z.of_nat (b - a)) by (rewrite <- Ha; exact Hw).
    assert (Hidx : to_uint64 (Z.of_nat a + Z.of_nat (b - a)) = Z.of_nat b)
      by (rewrite to_uint64_small; lia).
    exists j, (G1 ++ G2). split; [lia|]. split; [intros _; lia|]. split.
    + cbn [excludeRanges]. rewrite Ha, HC1.
      cbn [source leafIndex storageProofList Skip cachedSubtreeRoot].
      rewrite Hw', to_int64_small by lia.
      rewrite cached_Skip_ok by (rewrite length_skipn; lia).
      rewrite skipn_skipn, Hidx.
      replace (b - a + a)%nat with b by lia.
      rewrite HC2, app_assoc. reflexivity.
    + intros R lh. cbn [verifyRanges].
      rewrite claimedLeaves_cons, <- app_assoc, <- app_assoc, Ha, HV1.
      replace (Z.to_nat (Right r - Z.of_nat a)) with (b - a)%nat by lia.
      rewrite Nat2Z.id.
      assert (Hseg : length (firstn (b - a) (skipn a L)) = (b - a)%nat)
        by (rewrite length_firstn, length_skipn; lia).
      rewrite <- Hseg at 1. rewrite pushClaimedLeaves_cached.
      rewrite <- push0All_app, <- firstn_add.
      rewrite Hw', Hidx.
      replace (a + (b - a))%nat with b by lia.
      apply HV2.
Qed.

End RoundTrip.

Lemma checkLimitListFrom_valid (limits : list Merkle.SubTreeLimit) :
  forall prev, Merkle.checkLimitListFrom prev limits = true ->
  Merkle.validFrom (match prev with Some p => Merkle.Right p | None => 0 end) limits.
Proof.
  induction limits as [|r rest IH]; intros prev H; [exact I|].
  cbn [Merkle.checkLimitListFrom] in H.
  destruct ((Merkle.Left r <? 0) || (Merkle.Right r <=? Merkle.Left r)) eqn:E;
    [discriminate|].
  apply orb_false_iff in E. destruct E as [E1 E2].
  apply Z.ltb_ge in E1. apply Z.leb_gt in E2.
  destruct prev as [p|].
  - destruct (Merkle.Left r <? Merkle.Right p) eqn:E3; [discriminate|].
    apply Z.ltb_ge in E3. split; [lia|]. split; [lia|]. exact (IH (Some r) H).
  - split; [lia|]. split; [lia|]. exact (IH (Some r) H).
Qed.

Lemma bytes_Equal_refl (a : bytes) : bytes_Equal a a = true.
Proof.
  induction a as [|x a IH]; [reflexivity|].
  simpl. rewrite (Byte.byte_dec_lb (eq_refl x)). exact IH.
Qed.

(** ** Claim C1 *)

(** C1: round trip of the diff-proof engine.  For every sequence [leaves]
    of leaf roots (fewer than [2^63], the bound of a Go slice length) held
    by a cached leaf source, every hash [nodeSum] and every valid list of
    exclusion ranges (sorted, disjoint, non-empty ranges, [checkLimitList]
    true) inside the leaves, [getLimitStorageProof] succeeds, and
    [checkLimitStorageProof] given that proof, the claimed leaf roots of the
    ranges and the Merkle root [CachedTreeRoot leaves] returns [true] with
    no error.  [fuel >= length leaves] only bounds the loops of the model. *)
Theorem limit_storage_proof_roundtrip (nodeSum : bytes -> bytes -> bytes)
    (leaves : list bytes) (limits : list Merkle.SubTreeLimit) (fuel : nat) :
  Merkle.checkLimitList limits = true ->
  Forall (fun r => Merkle.Right r <= Z.of_nat (length leaves)) limits ->
  Z.of_nat (length leaves) < 2 ^ 63 ->
  (length leaves <= fuel)%nat ->
  exists proofs,
    fst (Merkle.getLimitStorageProof (Merkle.cachedSubtreeRoot nodeSum) fuel limits
           (Merkle.mkCachedSubtreeRoot leaves)) = (proofs, None) /\
    fst (Merkle.checkLimitStorageProof nodeSum Merkle.leafRootCached
           (Merkle.mkLeafRootCached (Merkle.claimedLeaves limits leaves))
           limits proofs (Merkle.CachedTreeRoot nodeSum leaves)) = Return (true, None).
Proof.
  intros Hc Hb HN Hf.
  destruct limits as [|r0 rest0]; [exists []; split; reflexivity|].
  assert (Hv := checkLimitListFrom_valid _ None Hc).
  destruct (ranges_roundtrip nodeSum leaves HN fuel (r0 :: rest0) O [] Hv Hb
              ltac:(lia) Hf) as [j [G [Hj [Hj1 [HC HV]]]]].
  cbn [skipn firstn Z.of_nat app] in HC, HV.
  specialize (Hj1 ltac:(discriminate)).
  destruct (drain_roundtrip nodeSum leaves HN fuel j G ltac:(lia) ltac:(lia))
    as [j2 [D [HCd [j' [t' [HVd Ht']]]]]].
  exists (G ++ D). split.
  - unfold Merkle.getLimitStorageProof. rewrite Hc. cbn [negb].
    rewrite HC, HCd. reflexivity.
  - unfold Merkle.checkLimitStorageProof. rewrite Hc. cbn [negb].
    specialize (HV D []). rewrite app_nil_r in HV. cbn [Merkle.push0All fold_left] in HV.
    rewrite HV, HVd.
    rewrite CachedTreeRoot_spec, Ht', bytes_Equal_refl. reflexivity.
Qed.

Lemma limit_storage_proof_roundtrip_witness :
  exists proofs,
    fst (Merkle.getLimitStorageProof (Merkle.cachedSubtreeRoot (@app Byte.byte)) 5
           [Merkle.mkLimit 1 2]
           (Merkle.mkCachedSubtreeRoot [[Byte.x00]; [Byte.x01]; [Byte.x02]; [Byte.x03]; [Byte.x04]]))
      = (proofs, None) /\
    fst (Merkle.checkLimitStorageProof (@app Byte.byte) Merkle.leafRootCached
           (Merkle.mkLeafRootCached (Merkle.claimedLeaves [Merkle.mkLimit 1 2]
              [[Byte.x00]; [Byte.x01]; [Byte.x02]; [Byte.x03]; [Byte.x04]]))
           [Merkle.mkLimit 1 2] proofs
           (Merkle.CachedTreeRoot (@app Byte.byte)
              [[Byte.x00]; [Byte.x01]; [Byte.x02]; [Byte.x03]; [Byte.x04]]))
      = Return (true, None).
Proof.
  apply limit_storage_proof_roundtrip.
  - reflexivity.
  - repeat constructor; simpl; lia.
  - simpl; lia.
  - simpl; lia.
Defined.

(** ** Leaf sources *)

Section LeafSources.
Import Merkle.
Variable leafSum : bytes -> bytes.
Variable nodeSum : bytes -> bytes -> bytes.

Lemma J_nonempty (a : subTree) (s : Tree) : joinAllSubTrees nodeSum a s <> [].
Proof.
  revert a. induction s as [|b s IH]; intros a; simpl; [discriminate|].
  destruct (Nat.eqb (height a) (height b)); [apply IH|discriminate].
Qed.

Lemma chunksF_enough (n : nat) (f1 : nat) : forall (f2 : nat) (r : list Byte.byte),
  (1 <= n)%nat -> (length r <= f1)%nat -> (length r <= f2)%nat ->
  chunksF f1 n r = chunksF f2 n r.
Proof.
  induction f1 as [|f1 IH]; intros f2 r Hn H1 H2.
  - destruct r; [destruct f2; reflexivity|simpl in H1; lia].
  - destruct f2 as [|f2]; [destruct r; [reflexivity|simpl in H2; lia]|].
    destruct r as [|x r']; [reflexivity|].
    cbn [chunksF]. f_equal. apply IH; [exact Hn| |];
      rewrite length_skipn; cbn [length] in *; lia.
Qed.

Lemma chunks_nil (n : nat) : chunks n [] = [].
Proof. reflexivity. Qed.

Lemma chunks_cons (n : nat) (r : list Byte.byte) :
  (1 <= n)%nat -> r <> [] -> chunks n r = firstn n r :: chunks n (skipn n r).
Proof.
  intros Hn Hr. destruct r as [|x r']; [congruence|].
  unfold chunks at 1. cbn [length chunksF]. f_equal.
  unfold chunks. apply chunksF_enough; [exact Hn| |lia].
  rewrite length_skipn. cbn [length]. lia.
Qed.

Lemma chunks_short (n : nat) (r : list Byte.byte) :
  (1 <= n)%nat -> r <> [] -> (length r <= n)%nat -> chunks n r = [r].
Proof.
  intros Hn Hr Hl. rewrite chunks_cons by assumption.
  rewrite firstn_all2, skipn_all2 by exact Hl. reflexivity.
Qed.

Lemma readerPushLoop_all (len : nat) (Hlen : (1 <= len)%nat) (k : nat) :
  forall (t : Tree) (r : list Byte.byte),
  (length (chunks len r) <= k)%nat ->
  readerPushLoop leafSum nodeSum k len t r =
  (fold_left (fun t d => PushLeaf leafSum nodeSum d t) (chunks len r) t, []).
Proof.
  induction k as [|k IH]; intros t r Hk.
  - destruct r as [|x r']; [reflexivity|].
    rewrite chunks_cons in Hk by (lia || discriminate). simpl in Hk. lia.
  - destruct r as [|x r'].
    + cbn [readerPushLoop]. unfold ReadFull.
      replace (Nat.eqb len 0) with false by (symmetry; apply Nat.eqb_neq; lia).
      reflexivity.
    + set (R := x :: r') in *.
      assert (HR : R <> []) by discriminate.
      cbn [readerPushLoop]. unfold ReadFull.
      replace (Nat.eqb len 0) with false by (symmetry; apply Nat.eqb_neq; lia).
      unfold R at 1. cbv iota.
      destruct (Nat.ltb (length R) len) eqn:E.
      * apply Nat.ltb_lt in E.
        replace (Nat.ltb 0 (length R)) with true by (symmetry; apply Nat.ltb_lt; unfold R; simpl; lia).
        rewrite (chunks_short len R) by (lia || exact HR). reflexivity.
      * apply Nat.ltb_ge in E.
        replace (Nat.ltb 0 (length (firstn len R))) with true
          by (symmetry; apply Nat.ltb_lt; rewrite length_firstn; lia).
        rewrite (chunks_cons len R) in Hk |- * by (lia || exact HR).
        simpl in Hk. rewrite IH by lia. reflexivity.
Qed.

Lemma readerPushLoop_nonempty (len : nat) (k : nat) :
  forall (t : Tree) (r : list Byte.byte),
  t <> [] -> fst (readerPushLoop leafSum nodeSum k len t r) <> [].
Proof.
  induction k as [|k IH]; intros t r Ht; [exact Ht|].
  cbn [readerPushLoop].
  destruct (ReadFull r len) as [[data err] r'].
  assert (Ht' : (if Nat.ltb 0 (length data) then PushLeaf leafSum nodeSum data t else t) <> []).
  { destruct (Nat.ltb 0 (length data)); [apply J_nonempty|exact Ht]. }
  destruct err; [exact Ht'|apply IH; exact Ht'].
Qed.

Lemma reader_GetSubtreeRoot_some (len : nat) (r : list Byte.byte) (n : Z) :
  (1 <= len)%nat -> 1 <= n -> r <> [] ->
  exists root, fst (reader_GetSubtreeRoot leafSum nodeSum (mkSubtreeRootReader r len) n) = Ok root.
Proof.
  intros Hlen Hn Hr. unfold reader_GetSubtreeRoot. cbn [rd leafLen].
  destruct (Z.to_nat n) as [|k] eqn:Ek; [lia|].
  assert (Hne : fst (readerPushLoop leafSum nodeSum (S k) len [] r) <> []).
  { destruct r as [|x r']; [congruence|].
    cbn [readerPushLoop]. unfold ReadFull.
    replace (Nat.eqb len 0) with false by (symmetry; apply Nat.eqb_neq; lia).
    cbv iota.
    destruct (Nat.ltb (length (x :: r')) len) eqn:E.
    - replace (Nat.ltb 0 (length (x :: r'))) with true by (symmetry; apply Nat.ltb_lt; simpl; lia).
      apply J_nonempty.
    - apply Nat.ltb_ge in E.
      replace (Nat.ltb 0 (length (firstn len (x :: r')))) with true
        by (symmetry; apply Nat.ltb_lt; rewrite length_firstn; lia).
      apply readerPushLoop_nonempty. apply J_nonempty. }
  destruct (readerPushLoop leafSum nodeSum (S k) len [] r) as [t r'].
  simpl in Hne. destruct t as [|top rest]; [congruence|].
  eexists. reflexivity.
Qed.

Lemma fold_PushLeaf_nonempty (l : list bytes) : forall (t : Tree),
  t <> [] -> fold_left (fun t d => PushLeaf leafSum nodeSum d t) l t <> [].
Proof.
  induction l as [|d l IH]; intros t Ht; [exact Ht|].
  cbn [fold_left]. apply IH. apply J_nonempty.
Qed.

Lemma Root_nonempty (t : Tree) : t <> [] -> Root nodeSum t = Some (RootBytes nodeSum t).
Proof. intros H. unfold RootBytes. destruct t; [congruence|reflexivity]. Qed.

End LeafSources.

(** ** Claim C3 *)

(** C3 (counterexample): the claim says a leaf source fails with the
    no-more-leaves error exactly when no leaf remains.  Asked for [n = 0]
    leaves while one leaf remains, the streaming source runs no read, finds
    a nil root and fails with [io.EOF]; the cached source, given the same
    request, returns a nil root and no error. *)
Lemma GetSubtreeRoot_zero_request :
  fst (Merkle.reader_GetSubtreeRoot (fun d => d) (@app Byte.byte)
         (Merkle.mkSubtreeRootReader [Byte.x00] 1) 0)
    = Merkle.Err Merkle.EOF /\
  fst (Merkle.cached_GetSubtreeRoot (@app Byte.byte) (Merkle.mkCachedSubtreeRoot [[Byte.x00]]) 0)
    = Merkle.Ok [].
Proof. split; reflexivity. Qed.

(** C3 (amended): for a request of [n >= 1] leaves, and a streaming source
    whose leaf buffer holds at least one byte, both sources fail with
    [io.EOF] exactly when no leaf remains; when some but fewer than [n]
    leaves remain, the streaming source returns the Merkle root of the
    remaining leaves (pushed as leaf data, the last one possibly short) and
    the cached source the Merkle root of the remaining leaf roots, and both
    are left empty. *)
Theorem GetSubtreeRoot_boundary (leafSum : bytes -> bytes) (nodeSum : bytes -> bytes -> bytes)
    (r : list Byte.byte) (len : nat) (roots : list bytes) (n : Z) :
  1 <= n -> (1 <= len)%nat ->
  (fst (Merkle.reader_GetSubtreeRoot leafSum nodeSum (Merkle.mkSubtreeRootReader r len) n)
     = Merkle.Err Merkle.EOF <-> r = []) /\
  (fst (Merkle.cached_GetSubtreeRoot nodeSum (Merkle.mkCachedSubtreeRoot roots) n)
     = Merkle.Err Merkle.EOF <-> roots = []) /\
  (r <> [] -> Z.of_nat (length (Merkle.chunks len r)) < n ->
   Merkle.reader_GetSubtreeRoot leafSum nodeSum (Merkle.mkSubtreeRootReader r len) n
   = (Merkle.Ok (Merkle.RootBytes nodeSum
                   (Merkle.leafTree leafSum nodeSum (Merkle.chunks len r))),
      Merkle.mkSubtreeRootReader [] len)) /\
  (roots <> [] -> Z.of_nat (length roots) < n ->
   Merkle.cached_GetSubtreeRoot nodeSum (Merkle.mkCachedSubtreeRoot roots) n
   = (Merkle.Ok (Merkle.CachedTreeRoot nodeSum roots), Merkle.mkCachedSubtreeRoot [])).
Proof.
  intros Hn Hlen. split; [|split; [|split]].
  - split.
    + intros H. destruct r as [|x r']; [reflexivity|exfalso].
      destruct (reader_GetSubtreeRoot_some leafSum nodeSum len (x :: r') n Hlen Hn
                  ltac:(discriminate)) as [root Hroot].
      congruence.
    + intros ->. unfold Merkle.reader_GetSubtreeRoot. cbn [Merkle.rd Merkle.leafLen].
      rewrite (readerPushLoop_all leafSum nodeSum len Hlen) by (rewrite chunks_nil; simpl; lia).
      reflexivity.
  - rewrite cached_GetSubtreeRoot_spec.
    destruct roots; simpl; split; congruence.
  - intros Hr Hc. unfold Merkle.reader_GetSubtreeRoot. cbn [Merkle.rd Merkle.leafLen].
    rewrite (readerPushLoop_all leafSum nodeSum len Hlen) by lia.
    rewrite Root_nonempty.
    + reflexivity.
    + rewrite (chunks_cons len r) by (lia || exact Hr). unfold Merkle.leafTree.
      cbn [fold_left]. apply fold_PushLeaf_nonempty. apply J_nonempty.
  - intros Hr Hc. rewrite cached_GetSubtreeRoot_some by exact Hr.
    rewrite firstn_all2, skipn_all2 by lia.
    rewrite CachedTreeRoot_spec. reflexivity.
Qed.

Lemma GetSubtreeRoot_boundary_witness :
  (1 <= 4 /\ (1 <= 2)%nat) /\
  ((fst (Merkle.reader_GetSubtreeRoot (cons Byte.x00) (@app Byte.byte)
           (Merkle.mkSubtreeRootReader [Byte.x00; Byte.x01; Byte.x02] 2) 4)
      = Merkle.Err Merkle.EOF <-> [Byte.x00; Byte.x01; Byte.x02] = []) /\
   (fst (Merkle.cached_GetSubtreeRoot (@app Byte.byte) (Merkle.mkCachedSubtreeRoot [[Byte.x07]]) 4)
      = Merkle.Err Merkle.EOF <-> [[Byte.x07]] = []) /\
   ([Byte.x00; Byte.x01; Byte.x02] <> [] ->
    Z.of_nat (length (Merkle.chunks 2 [Byte.x00; Byte.x01; Byte.x02])) < 4 ->
    Merkle.reader_GetSubtreeRoot (cons Byte.x00) (@app Byte.byte)
      (Merkle.mkSubtreeRootReader [Byte.x00; Byte.x01; Byte.x02] 2) 4
    = (Merkle.Ok (Merkle.RootBytes (@app Byte.byte)
                    (Merkle.leafTree (cons Byte.x00) (@app Byte.byte)
                       (Merkle.chunks 2 [Byte.x00; Byte.x01; Byte.x02]))),
       Merkle.mkSubtreeRootReader [] 2)) /\
   ([[Byte.x07]] <> [] -> Z.of_nat (length [[Byte.x07]]) < 4 ->
    Merkle.cached_GetSubtreeRoot (@app Byte.byte) (Merkle.mkCachedSubtreeRoot [[Byte.x07]]) 4
    = (Merkle.Ok (Merkle.CachedTreeRoot (@app Byte.byte) [[Byte.x07]]),
       Merkle.mkCachedSubtreeRoot []))).
Proof.
  split; [split; lia|].
  apply (GetSubtreeRoot_boundary (cons Byte.x00) (@app Byte.byte)
           [Byte.x00; Byte.x01; Byte.x02] 2 [[Byte.x07]] 4); lia.
Defined.

(** ** Invalid range lists *)

Lemma checkLimitListFrom_bad_range (pre : list Merkle.SubTreeLimit) :
  forall prev r post, Merkle.Right r <= Merkle.Left r ->
  Merkle.checkLimitListFrom prev (pre ++ r :: post) = false.
Proof.
  induction pre as [|x pre IH]; intros prev r post H.
  - simpl. replace (Merkle.Right r <=? Merkle.Left r) with true
      by (symmetry; apply Z.leb_le; exact H).
    rewrite orb_true_r. reflexivity.
  - simpl. destruct ((Merkle.Left x <? 0) || (Merkle.Right x <=? Merkle.Left x)); [reflexivity|].
    destruct prev as [p|]; [destruct (Merkle.Left x <? Merkle.Right p); [reflexivity|]|];
      apply IH; exact H.
Qed.

Lemma checkLimitListFrom_overlap (pre : list Merkle.SubTreeLimit) :
  forall prev a b post, Merkle.Left b < Merkle.Right a ->
  Merkle.checkLimitListFrom prev (pre ++ a :: b :: post) = false.
Proof.
  induction pre as [|x pre IH]; intros prev a b post H.
  - cbn [app Merkle.checkLimitListFrom].
    destruct ((Merkle.Left a <? 0) || (Merkle.Right a <=? Merkle.Left a)); [reflexivity|].
    replace (Merkle.Left b <? Merkle.Right a) with true by (symmetry; apply Z.ltb_lt; exact H).
    destruct prev as [p|]; [destruct (Merkle.Left a <? Merkle.Right p)|];
      try reflexivity; destruct ((Merkle.Left b <? 0) || (Merkle.Right b <=? Merkle.Left b));
      reflexivity.
  - simpl. destruct ((Merkle.Left x <? 0) || (Merkle.Right x <=? Merkle.Left x)); [reflexivity|].
    destruct prev as [p|]; [destruct (Merkle.Left x <? Merkle.Right p); [reflexivity|]|];
      apply IH; exact H.
Qed.

(** ** Claim C4 *)

(** C4: if some range of the list has [Left >= Right], or some range's
    [Right] exceeds the [Left] of the range after it, [getLimitStorageProof]
    returns no proof and the invalid-parameter error, for any leaf source,
    and the leaf source it hands back is the one it was given: nothing was
    consumed. *)
Theorem getLimitStorageProof_invalid {Src : Type} (sr : Merkle.SubtreeRoot Src) (fuel : nat)
    (limits : list Merkle.SubTreeLimit) (src : Src) :
  (exists pre r post, limits = pre ++ r :: post /\ Merkle.Right r <= Merkle.Left r) \/
  (exists pre a b post, limits = pre ++ a :: b :: post /\ Merkle.Left b < Merkle.Right a) ->
  Merkle.getLimitStorageProof sr fuel limits src = (([], Some Merkle.ErrInvalidParam), src).
Proof.
  intros H.
  assert (Hc : Merkle.checkLimitList limits = false /\ limits <> []).
  { destruct H as [[pre [r [post [-> Hr]]]]|[pre [a [b [post [-> Hab]]]]]].
    - split; [apply checkLimitListFrom_bad_range; exact Hr|destruct pre; discriminate].
    - split; [apply checkLimitListFrom_overlap; exact Hab|destruct pre; discriminate]. }
  destruct Hc as [Hc Hne].
  unfold Merkle.getLimitStorageProof. destruct limits as [|l0 ls]; [congruence|].
  rewrite Hc. reflexivity.
Qed.

Lemma getLimitStorageProof_invalid_witness :
  ((exists pre r post, [Merkle.mkLimit 0 4; Merkle.mkLimit 2 6] = pre ++ r :: post /\
                       Merkle.Right r <= Merkle.Left r) \/
   (exists pre a b post, [Merkle.mkLimit 0 4; Merkle.mkLimit 2 6] = pre ++ a :: b :: post /\
                         Merkle.Left b < Merkle.Right a)) /\
  Merkle.getLimitStorageProof (Merkle.cachedSubtreeRoot (@app Byte.byte)) 10
    [Merkle.mkLimit 0 4; Merkle.mkLimit 2 6]
    (Merkle.mkCachedSubtreeRoot [[Byte.x00]; [Byte.x01]])
  = (([], Some Merkle.ErrInvalidParam), Merkle.mkCachedSubtreeRoot [[Byte.x00]; [Byte.x01]]).
Proof.
  assert (H : (exists pre r post, [Merkle.mkLimit 0 4; Merkle.mkLimit 2 6] = pre ++ r :: post /\
                                  Merkle.Right r <= Merkle.Left r) \/
              (exists pre a b post, [Merkle.mkLimit 0 4; Merkle.mkLimit 2 6] = pre ++ a :: b :: post /\
                                    Merkle.Left b < Merkle.Right a)).
  { right. exists [], (Merkle.mkLimit 0 4), (Merkle.mkLimit 2 6), [].
    split; [reflexivity|simpl; lia]. }
  split; [exact H|].
  apply (getLimitStorageProof_invalid (Merkle.cachedSubtreeRoot (@app Byte.byte)) 10 _ _ H).
Defined.

(** ** Upload handler *)

Lemma bindO_Return {A B : Type} (m : outcome A) (f : A -> outcome B) (b : B) :
  bindO m f = Return b -> exists a, m = Return a /\ f a = Return b.
Proof. destruct m as [a|]; simpl; [intros H; exists a; split; [reflexivity|exact H]|discriminate]. Qed.

Lemma mapO_length {A B : Type} (f : A -> outcome B) (l : list A) :
  forall ys, mapO f l = Return ys -> length ys = length l.
Proof.
  induction l as [|x l IH]; intros ys H; simpl in H.
  - inversion H; reflexivity.
  - apply bindO_Return in H as [y [_ H]]. apply bindO_Return in H as [ys' [Hys H]].
    inversion H; subst. simpl. f_equal. apply IH. exact Hys.
Qed.

Lemma index_last {A : Type} (prev : list A) (x : A) :
  index (prev ++ [x]) (length (prev ++ [x]) - 1) = Return x.
Proof.
  unfold index. rewrite length_app. simpl.
  rewrite nth_error_app2 by lia. replace (length prev + 1 - 1 - length prev)%nat with O by lia.
  reflexivity.
Qed.

Lemma firstn_length_app {A : Type} (l1 l2 : list A) : firstn (length l1) (l1 ++ l2) = l1.
Proof. induction l1 as [|x l1 IH]; simpl; [reflexivity|rewrite IH; reflexivity]. Qed.

Section UploadProofs.
Import Upload.
Variable SectorSize : Z.
Variable sha256Node : bytes -> bytes -> bytes.
Variable validate : StorageResponsibility -> StorageContractRevision -> option error.

Lemma updateRevisionFileSize_outputs (req : Req.UploadRequest) :
  forall r,
  NewValidProofOutputs (updateRevisionFileSize SectorSize r req) = NewValidProofOutputs r /\
  NewMissedProofOutputs (updateRevisionFileSize SectorSize r req) = NewMissedProofOutputs r.
Proof.
  unfold updateRevisionFileSize.
  induction (Req.Actions req) as [|a l IH]; intros r; [split; reflexivity|].
  cbn [fold_left]. destruct (Type_ a); rewrite (proj1 (IH _)), (proj2 (IH _)); split; reflexivity.
Qed.

(** The structure of every revision [constructAndVerifyNewRevision]
    returns: the outputs of the latest revision followed by one new output
    per valid-proof output of it, in both lists. *)
Lemma constructAndVerifyNewRevision_outputs (nd : uploadNegotiationData)
    (sr : StorageResponsibility) (req : Req.UploadRequest) (prev : list StorageContractRevision)
    (cur rev : StorageContractRevision) (nd' : uploadNegotiationData) :
  StorageContractRevisions sr = prev ++ [cur] ->
  constructAndVerifyNewRevision SectorSize sha256Node validate nd sr req
    = Return (ROk (rev, nd')) ->
  exists valid missed,
    NewValidProofOutputs rev = NewValidProofOutputs cur ++ valid /\
    NewMissedProofOutputs rev = NewMissedProofOutputs cur ++ missed /\
    length valid = length (NewValidProofOutputs cur) /\
    length missed = length (NewValidProofOutputs cur).
Proof.
  intros Hrevs H. unfold constructAndVerifyNewRevision in H. rewrite Hrevs, index_last in H.
  cbn [bindO] in H. unfold calcAndUpdateRevisionMerkleRoot in H.
  apply bindO_Return in H as [r2 [Hupd H]].
  destruct (validate _ r2); inversion H; subst; clear H.
  unfold updateRevisionMissedAndValidPayback in Hupd.
  apply bindO_Return in Hupd as [valid [Hv Hupd]].
  apply bindO_Return in Hupd as [missed [Hm Hupd]].
  inversion Hupd; subst; clear Hupd.
  exists valid, missed. cbn [NewValidProofOutputs NewMissedProofOutputs setProofOutputs].
  unfold setNewFileMerkleRoot. cbn [NewValidProofOutputs NewMissedProofOutputs].
  rewrite (proj1 (updateRevisionFileSize_outputs _ _)), (proj2 (updateRevisionFileSize_outputs _ _)).
  cbn [setNewRevisionNumber NewValidProofOutputs NewMissedProofOutputs].
  apply mapO_length in Hv, Hm. rewrite length_seq in Hv, Hm.
  repeat split; assumption.
Qed.

End UploadProofs.

(** ** Claim C5 *)

(** C5 (code bug): from a latest revision with two valid-proof and two
    missed-proof outputs, every revision that [constructAndVerifyNewRevision]
    returns, whatever [uploadRevisionValidation] checks, has FOUR outputs in
    each list: the predecessor's two, copied by [newRev := currentRev],
    followed by the two new ones appended by
    [updateRevisionMissedAndValidPayback]. *)
Theorem upload_revision_four_outputs (SectorSize : Z)
    (sha256Node : bytes -> bytes -> bytes)
    (validate : Upload.StorageResponsibility -> Upload.StorageContractRevision -> option Upload.error)
    (nd : Upload.uploadNegotiationData) (sr : Upload.StorageResponsibility)
    (req : Upload.Req.UploadRequest) (prev : list Upload.StorageContractRevision)
    (cur rev : Upload.StorageContractRevision) (nd' : Upload.uploadNegotiationData) :
  Upload.StorageContractRevisions sr = prev ++ [cur] ->
  length (Upload.NewValidProofOutputs cur) = 2%nat ->
  length (Upload.NewMissedProofOutputs cur) = 2%nat ->
  Upload.constructAndVerifyNewRevision SectorSize sha256Node validate nd sr req
    = Return (Upload.ROk (rev, nd')) ->
  length (Upload.NewValidProofOutputs rev) = 4%nat /\
  length (Upload.NewMissedProofOutputs rev) = 4%nat /\
  firstn 2 (Upload.NewValidProofOutputs rev) = Upload.NewValidProofOutputs cur /\
  firstn 2 (Upload.NewMissedProofOutputs rev) = Upload.NewMissedProofOutputs cur.
Proof.
  intros Hrevs Hv Hm H.
  destruct (constructAndVerifyNewRevision_outputs SectorSize sha256Node
              validate nd sr req prev cur rev nd' Hrevs H)
    as [valid [missed [Hvr [Hmr [Hlv Hlm]]]]].
  rewrite Hvr, Hmr, !length_app.
  split; [lia|]. split; [lia|].
  split.
  - rewrite <- Hv at 1. apply firstn_length_app.
  - rewrite <- Hm at 1. apply firstn_length_app.
Qed.

(** The run of the C5 failing input: a contract whose latest revision pays
    10 and 20 coins, one appended sector, new payouts 9 and 21, and the
    validation the spec describes (host revenue and risked collateral 0).
    The revision is accepted with four outputs in each list. *)
Lemma upload_revision_four_outputs_witness :
  Upload.constructAndVerifyNewRevision 64 (@app Byte.byte) (Upload.uploadRevisionValidation_spec 0 0)
    (Upload.mkNegotiationData [[Byte.x01]] [[Byte.x01]] [[Byte.x01]] [0] 0 [])
    (Upload.mkStorageResponsibility []
       [Upload.mkRevision [] 0 0 [] 100 200
          [Upload.mkDxcoinCharge 10 1; Upload.mkDxcoinCharge 20 2]
          [Upload.mkDxcoinCharge 10 1; Upload.mkDxcoinCharge 20 2] []])
    (Upload.Req.mkUploadRequest [] [Upload.mkUploadAction Upload.UploadActionAppend [Byte.x01]]
       1 [9; 21] [9; 21])
  = Return (Upload.ROk
      (Upload.mkRevision [] 1 64 [Byte.x01] 100 200
         [Upload.mkDxcoinCharge 10 1; Upload.mkDxcoinCharge 20 2;
          Upload.mkDxcoinCharge 9 1; Upload.mkDxcoinCharge 21 2]
         [Upload.mkDxcoinCharge 10 1; Upload.mkDxcoinCharge 20 2;
          Upload.mkDxcoinCharge 9 1; Upload.mkDxcoinCharge 21 2] [],
       Upload.mkNegotiationData [[Byte.x01]] [[Byte.x01]] [[Byte.x01]] [0] 0 [Byte.x01]))
  /\ (length (Upload.NewValidProofOutputs
        (Upload.mkRevision [] 1 64 [Byte.x01] 100 200
           [Upload.mkDxcoinCharge 10 1; Upload.mkDxcoinCharge 20 2;
            Upload.mkDxcoinCharge 9 1; Upload.mkDxcoinCharge 21 2]
           [Upload.mkDxcoinCharge 10 1; Upload.mkDxcoinCharge 20 2;
            Upload.mkDxcoinCharge 9 1; Upload.mkDxcoinCharge 21 2] [])) = 4%nat /\
      length (Upload.NewMissedProofOutputs
        (Upload.mkRevision [] 1 64 [Byte.x01] 100 200
           [Upload.mkDxcoinCharge 10 1; Upload.mkDxcoinCharge 20 2;
            Upload.mkDxcoinCharge 9 1; Upload.mkDxcoinCharge 21 2]
           [Upload.mkDxcoinCharge 10 1; Upload.mkDxcoinCharge 20 2;
            Upload.mkDxcoinCharge 9 1; Upload.mkDxcoinCharge 21 2] [])) = 4%nat /\
      firstn 2 (Upload.NewValidProofOutputs
        (Upload.mkRevision [] 1 64 [Byte.x01] 100 200
           [Upload.mkDxcoinCharge 10 1; Upload.mkDxcoinCharge 20 2;
            Upload.mkDxcoinCharge 9 1; Upload.mkDxcoinCharge 21 2]
           [Upload.mkDxcoinCharge 10 1; Upload.mkDxcoinCharge 20 2;
            Upload.mkDxcoinCharge 9 1; Upload.mkDxcoinCharge 21 2] []))
        = [Upload.mkDxcoinCharge 10 1; Upload.mkDxcoinCharge 20 2] /\
      firstn 2 (Upload.NewMissedProofOutputs
        (Upload.mkRevision [] 1 64 [Byte.x01] 100 200
           [Upload.mkDxcoinCharge 10 1; Upload.mkDxcoinCharge 20 2;
            Upload.mkDxcoinCharge 9 1; Upload.mkDxcoinCharge 21 2]
           [Upload.mkDxcoinCharge 10 1; Upload.mkDxcoinCharge 20 2;
            Upload.mkDxcoinCharge 9 1; Upload.mkDxcoinCharge 21 2] []))
        = [Upload.mkDxcoinCharge 10 1; Upload.mkDxcoinCharge 20 2]).
Proof.
  assert (H : Upload.constructAndVerifyNewRevision 64 (@app Byte.byte) (Upload.uploadRevisionValidation_spec 0 0)
    (Upload.mkNegotiationData [[Byte.x01]] [[Byte.x01]] [[Byte.x01]] [0] 0 [])
    (Upload.mkStorageResponsibility []
       [Upload.mkRevision [] 0 0 [] 100 200
          [Upload.mkDxcoinCharge 10 1; Upload.mkDxcoinCharge 20 2]
          [Upload.mkDxcoinCharge 10 1; Upload.mkDxcoinCharge 20 2] []])
    (Upload.Req.mkUploadRequest [] [Upload.mkUploadAction Upload.UploadActionAppend [Byte.x01]]
       1 [9; 21] [9; 21])
  = Return (Upload.ROk
      (Upload.mkRevision [] 1 64 [Byte.x01] 100 200
         [Upload.mkDxcoinCharge 10 1; Upload.mkDxcoinCharge 20 2;
          Upload.mkDxcoinCharge 9 1; Upload.mkDxcoinCharge 21 2]
         [Upload.mkDxcoinCharge 10 1; Upload.mkDxcoinCharge 20 2;
          Upload.mkDxcoinCharge 9 1; Upload.mkDxcoinCharge 21 2] [],
       Upload.mkNegotiationData [[Byte.x01]] [[Byte.x01]] [[Byte.x01]] [0] 0 [Byte.x01])))
    by (vm_compute; reflexivity).
  split; [exact H|].
  pose (cur := Upload.mkRevision [] 0 0 [] 100 200
          [Upload.mkDxcoinCharge 10 1; Upload.mkDxcoinCharge 20 2]
          [Upload.mkDxcoinCharge 10 1; Upload.mkDxcoinCharge 20 2] []).
  refine (upload_revision_four_outputs _ _ _ _ _ _ [] cur _ _ _ _ _ H);
    reflexivity.
Defined.

(** ** Claim C6 *)

(** C6 (code bug): [ContractCreate] never assembles a contract.  The
    contract literal leaves [Signatures] nil, so on the only path that
    reaches the signature assignments (the request is sent, [ReadMsg]
    reports an error and the message decodes) the write
    [storageContract.Signatures[1] = hostSign] is out of range and panics;
    on every other path the function returns before them. *)
Theorem ContractCreate_never_assembles (Msg : Type) (Decode : Msg -> option Client.error * bytes)
    (renterPayout hostPayout clientAddr hostAddr endHeight windowSize : Z)
    (unlockHash clientContractSign : bytes) :
  (forall sendErr readMsg e c,
     Client.ContractCreate Msg Decode renterPayout hostPayout clientAddr hostAddr endHeight
       windowSize unlockHash clientContractSign sendErr readMsg <> Return (e, Some c)) /\
  (forall msg readErr,
     Client.ContractCreate Msg Decode renterPayout hostPayout clientAddr hostAddr endHeight
       windowSize unlockHash clientContractSign None (msg, Some readErr)
     = match Decode msg with
       | (Some e, _) => Return (Some e, None)
       | (None, _) => Panic
       end).
Proof.
  split.
  - intros sendErr [msg err] e c. unfold Client.ContractCreate.
    destruct sendErr as [e'|]; [discriminate|].
    destruct err as [e''|]; [|discriminate].
    destruct (Decode msg) as [[e'''|] hostSign]; [discriminate|].
    cbn. discriminate.
  - intros msg readErr. unfold Client.ContractCreate.
    destruct (Decode msg) as [[e|] hostSign]; reflexivity.
Qed.

(** ** Claim C7 *)

Section ReadProofs.
Import Client.
Variable SectorSize SegmentSize : Z.

(** A section the sanity check of [Read] rejects. *)
Definition badSection (merkleProof : bool) (sec : DownloadRequestSection) : Prop :=
  SectorSize < Offset sec + Length sec \/
  (merkleProof = true /\ (Offset sec mod SegmentSize <> 0 \/ Length sec mod SegmentSize <> 0)).

Lemma checkSections_bad (merkleProof : bool) (secs : list DownloadRequestSection)
    (sec : DownloadRequestSection) :
  In sec secs -> 0 <= Offset sec < 2 ^ 32 -> 0 <= Length sec < 2 ^ 32 ->
  badSection merkleProof sec ->
  exists e, checkSections SectorSize SegmentSize merkleProof secs = Some e.
Proof.
  intros Hin Ho Hl Hbad. induction secs as [|s rest IH]; [destruct Hin|].
  cbn [checkSections].
  destruct (SectorSize <? to_uint64 (Offset s + Length s)) eqn:E1; [eexists; reflexivity|].
  destruct (merkleProof && _) eqn:E2; [eexists; reflexivity|].
  destruct Hin as [<-|Hin]; [|exact (IH Hin)].
  exfalso. unfold badSection in Hbad.
  rewrite to_uint64_small in E1 by lia.
  destruct Hbad as [Hs|[Hm Ha]].
  - apply Z.ltb_ge in E1. lia.
  - subst merkleProof. cbn [andb] in E2. apply orb_false_iff in E2 as [E2 E3].
    apply negb_false_iff, Z.eqb_eq in E2, E3. lia.
Qed.

End ReadProofs.

(** C7: if some section of a download request ends past [SectorSize], or
    a Merkle proof is requested and some section's offset or length is not
    a multiple of [SegmentSize], then [Read] returns an error and sends no
    message to the host (the exchange with the host is never run).  The
    section's uint32 fields are in range. *)
Theorem Read_rejects_bad_section (SectorSize SegmentSize : Z) (Message : Type)
    (readExchange : Client.DownloadRequest -> option Client.error * list Message)
    (req : Client.DownloadRequest) (sec : Client.DownloadRequestSection) :
  In sec (Client.Sections req) ->
  0 <= Client.Offset sec < 2 ^ 32 -> 0 <= Client.Length sec < 2 ^ 32 ->
  badSection SectorSize SegmentSize (Client.MerkleProof req) sec ->
  exists e, Client.Read SectorSize SegmentSize Message readExchange req = (Some e, []).
Proof.
  intros Hin Ho Hl Hbad. unfold Client.Read.
  destruct (checkSections_bad SectorSize SegmentSize _ _ sec Hin Ho Hl Hbad) as [e He].
  rewrite He. exists e. reflexivity.
Qed.

(** Scenario C: a proof is requested for the section at offset 32 of
    length 64 with 64-byte segments; the host is never contacted. *)
Lemma Read_rejects_bad_section_witness :
  exists e, Client.Read 4194304 64 nat (fun _ => (None, [0%nat]))
    (Client.mkDownloadRequest [Client.mkSection [] 32 64] true) = (Some e, []).
Proof.
  apply (Read_rejects_bad_section 4194304 64 nat (fun _ => (None, [0%nat]))
           (Client.mkDownloadRequest [Client.mkSection [] 32 64] true) (Client.mkSection [] 32 64)).
  - left; reflexivity.
  - cbn; lia.
  - cbn; lia.
  - right. split; [reflexivity|]. left. cbn. lia.
Defined.

(** ** Claim C8 *)

Lemma CachedTreeRoot_single (nodeSum : bytes -> bytes -> bytes) (x : bytes) :
  Merkle.CachedTreeRoot nodeSum [x] = x.
Proof. reflexivity. Qed.

Lemma updateRevisionFileSize_append (SectorSize : Z) (r : Upload.StorageContractRevision)
    (req : Upload.Req.UploadRequest) (data : bytes) :
  Upload.Req.Actions req = [Upload.mkUploadAction Upload.UploadActionAppend data] ->
  Upload.NewFileSize (Upload.updateRevisionFileSize SectorSize r req) = Upload.NewFileSize r + SectorSize.
Proof. intros H. unfold Upload.updateRevisionFileSize. rewrite H. reflexivity. Qed.

(** C8 (Scenario A): from a storage responsibility with no sector roots and
    a latest revision of file size 0, one append action yields the tentative
    sector roots [[Sha256MerkleTreeRoot data]], and every revision built from
    them has that leaf root as its file Merkle root and exactly one
    [SectorSize] as its file size. *)
Theorem upload_append_first_sector (SectorSize : Z) (Sha256MerkleTreeRoot : bytes -> bytes)
    (sha256Node : bytes -> bytes -> bytes)
    (validate : Upload.StorageResponsibility -> Upload.StorageContractRevision -> option Upload.error)
    (uploadBandwidthPrice : Z) (sr : Upload.StorageResponsibility) (req : Upload.Req.UploadRequest)
    (data : bytes) (prev : list Upload.StorageContractRevision) (cur : Upload.StorageContractRevision) :
  Upload.SectorRoots sr = [] ->
  Upload.Req.Actions req = [Upload.mkUploadAction Upload.UploadActionAppend data] ->
  Upload.StorageContractRevisions sr = prev ++ [cur] ->
  Upload.NewFileSize cur = 0 ->
  exists nd1,
    Upload.parseAndHandleUploadActions SectorSize Sha256MerkleTreeRoot req
      Upload.emptyNegotiationData sr uploadBandwidthPrice = Upload.ROk nd1 /\
    Upload.newRoots nd1 = [Sha256MerkleTreeRoot data] /\
    forall rev nd2,
      Upload.constructAndVerifyNewRevision SectorSize sha256Node validate nd1 sr req
        = Return (Upload.ROk (rev, nd2)) ->
      Upload.NewFileMerkleRoot rev = Sha256MerkleTreeRoot data /\
      Upload.NewFileSize rev = SectorSize.
Proof.
  intros Hroots Hact Hrevs Hsize.
  unfold Upload.parseAndHandleUploadActions. rewrite Hroots, Hact.
  eexists. split; [reflexivity|]. split; [reflexivity|].
  intros rev nd2 H. unfold Upload.constructAndVerifyNewRevision in H.
  rewrite Hrevs, index_last in H. cbn [bindO] in H.
  unfold Upload.calcAndUpdateRevisionMerkleRoot in H.
  apply bindO_Return in H as [r2 [Hupd H]].
  destruct (validate _ r2); inversion H; subst; clear H.
  unfold Upload.updateRevisionMissedAndValidPayback in Hupd.
  apply bindO_Return in Hupd as [valid [_ Hupd]].
  apply bindO_Return in Hupd as [missed [_ Hupd]].
  inversion Hupd; subst; clear Hupd. cbn [Upload.newRoots]. split.
  - reflexivity.
  - cbn [Upload.setProofOutputs Upload.setNewFileMerkleRoot Upload.NewFileSize].
    rewrite (updateRevisionFileSize_append SectorSize _ req data Hact).
    cbn [Upload.setNewRevisionNumber Upload.NewFileSize]. rewrite Hsize. lia.
Qed.

(** One 64-byte sector appended to an empty file. *)
Lemma upload_append_first_sector_witness :
  exists nd1,
    Upload.parseAndHandleUploadActions 64 (fun d => d)
      (Upload.Req.mkUploadRequest [] [Upload.mkUploadAction Upload.UploadActionAppend [Byte.x01]]
         1 [9; 21] [9; 21])
      Upload.emptyNegotiationData
      (Upload.mkStorageResponsibility []
         [Upload.mkRevision [] 0 0 [] 100 200 [] [] []]) 2 = Upload.ROk nd1 /\
    Upload.newRoots nd1 = [[Byte.x01]] /\
    forall rev nd2,
      Upload.constructAndVerifyNewRevision 64 (@app Byte.byte) (Upload.uploadRevisionValidation_spec 0 0) nd1
        (Upload.mkStorageResponsibility []
           [Upload.mkRevision [] 0 0 [] 100 200 [] [] []])
        (Upload.Req.mkUploadRequest [] [Upload.mkUploadAction Upload.UploadActionAppend [Byte.x01]]
           1 [9; 21] [9; 21])
        = Return (Upload.ROk (rev, nd2)) ->
      Upload.NewFileMerkleRoot rev = [Byte.x01] /\ Upload.NewFileSize rev = 64.
Proof.
  exact (upload_append_first_sector 64 (fun d => d) (@app Byte.byte)
           (Upload.uploadRevisionValidation_spec 0 0) 2
           (Upload.mkStorageResponsibility [] [Upload.mkRevision [] 0 0 [] 100 200 [] [] []])
           (Upload.Req.mkUploadRequest [] [Upload.mkUploadAction Upload.UploadActionAppend [Byte.x01]]
              1 [9; 21] [9; 21])
           [Byte.x01] [] (Upload.mkRevision [] 0 0 [] 100 200 [] [] [])
           eq_refl eq_refl eq_refl eq_refl).
Defined.

(** ** Claim C9 *)

Lemma scanEntries_range (entries : list LuckyWheel.randomSelectorEntry) :
  forall i selected j, LuckyWheel.scanEntries i entries selected = Some j ->
  i <= j < i + Z.of_nat (length entries).
Proof.
  induction entries as [|e rest IH]; intros i selected j H; cbn [LuckyWheel.scanEntries] in H;
    [discriminate|].
  cbn [length]. rewrite Nat2Z.inj_succ.
  destruct (LuckyWheel.vote e <=? selected).
  - inversion H; subst. lia.
  - apply IH in H. lia.
Qed.

(** C9: on a non-empty entry list [selectSingleEntry] returns an index of
    the list, and when the weighted scan selects nothing it returns the
    last index. *)
Theorem selectSingleEntry_in_bounds (entries : list LuckyWheel.randomSelectorEntry) (selected : Z) :
  entries <> [] ->
  0 <= LuckyWheel.selectSingleEntry entries selected < Z.of_nat (length entries) /\
  (LuckyWheel.scanEntries 0 entries selected = None ->
   LuckyWheel.selectSingleEntry entries selected = Z.of_nat (length entries) - 1).
Proof.
  intros Hne. assert (Hl : (1 <= length entries)%nat)
    by (destruct entries; [contradiction|cbn; lia]).
  unfold LuckyWheel.selectSingleEntry.
  destruct (LuckyWheel.scanEntries 0 entries selected) as [j|] eqn:E.
  - apply scanEntries_range in E. split; [lia|discriminate].
  - split; [lia|reflexivity].
Qed.

(** Three entries with votes 5, 3 and 2 and [selected = 7]: the scan
    selects the first entry, whose vote 5 is at most 7. *)
Lemma selectSingleEntry_in_bounds_witness :
  0 <= LuckyWheel.selectSingleEntry
         [LuckyWheel.mkEntry 1 5; LuckyWheel.mkEntry 2 3; LuckyWheel.mkEntry 3 2] 7 < 3 /\
  (LuckyWheel.scanEntries 0
     [LuckyWheel.mkEntry 1 5; LuckyWheel.mkEntry 2 3; LuckyWheel.mkEntry 3 2] 7 = None ->
   LuckyWheel.selectSingleEntry
     [LuckyWheel.mkEntry 1 5; LuckyWheel.mkEntry 2 3; LuckyWheel.mkEntry 3 2] 7 = 3 - 1).
Proof.
  exact (selectSingleEntry_in_bounds
           [LuckyWheel.mkEntry 1 5; LuckyWheel.mkEntry 2 3; LuckyWheel.mkEntry 3 2] 7
           ltac:(discriminate)).
Defined.

(** ** Claim C10 *)

(** C10 (code bug): [ReadSector] only ever calls itself with the same
    sector root: every state reachable from a call is a running call, one
    frame deeper per step, that can step again, and no reachable state has
    returned data or an error. *)
Theorem ReadSector_never_returns (sectorRoot : bytes) :
  (forall s, Host.steps (Host.ReadSector sectorRoot) s ->
     exists d, s = Host.Running d sectorRoot /\ Host.step s (Host.Running (S d) sectorRoot)) /\
  (forall data err, ~ Host.steps (Host.ReadSector sectorRoot) (Host.Returned data err)).
Proof.
  assert (Hreach : forall s0 s, Host.steps s0 s ->
            forall d0, s0 = Host.Running d0 sectorRoot -> exists d, s = Host.Running d sectorRoot).
  { intros s0 s Hs. induction Hs as [s|s1 s2 s3 Hst Hs IH]; intros d0 E.
    - exists d0. exact E.
    - subst s1. inversion Hst; subst. exact (IH (S d0) eq_refl). }
  split.
  - intros s Hs. destruct (Hreach _ _ Hs 0%nat eq_refl) as [d Ed].
    exists d. split; [exact Ed|]. subst s. constructor.
  - intros data err Hs. destruct (Hreach _ _ Hs 0%nat eq_refl) as [d Ed]. discriminate.
Qed.

(** Two steps of [ReadSector []]: two nested calls, still running. *)
Lemma ReadSector_never_returns_witness :
  exists d, Host.Running 2 [] = Host.Running d [] /\
            Host.step (Host.Running 2 []) (Host.Running (S d) []).
Proof.
  apply (proj1 (ReadSector_never_returns [])).
  apply (Host.steps_next _ (Host.Running 1 [])); [constructor|].
  apply (Host.steps_next _ (Host.Running 2 [])); [constructor|].
  apply Host.steps_refl.
Defined.

(** * Further properties of the code *)

(** ** Upload proof ranges *)

Section ProofRanges.
Import Upload.

Local Abbreviation ltLeft := (fun a b : Merkle.SubTreeLimit => Merkle.Left a < Merkle.Left b).

Lemma insertByLeft_In (x : Merkle.SubTreeLimit) (l : list Merkle.SubTreeLimit) r :
  In r (insertByLeft x l) <-> r = x \/ In r l.
Proof.
  induction l as [|y l IH]; simpl; [intuition congruence|].
  destruct (Merkle.Left y <? Merkle.Left x); simpl; rewrite ?IH; intuition congruence.
Qed.

Lemma sortByLeft_In (l : list Merkle.SubTreeLimit) r : In r (sortByLeft l) <-> In r l.
Proof.
  induction l as [|x l IH]; simpl; [tauto|]. rewrite insertByLeft_In, IH. intuition congruence.
Qed.

Lemma insertByLeft_sorted (x : Merkle.SubTreeLimit) (l : list Merkle.SubTreeLimit) :
  Sorted ltLeft l -> ~ In (Merkle.Left x) (map Merkle.Left l) ->
  Sorted ltLeft (insertByLeft x l).
Proof.
  induction l as [|y l IH]; intros Hs Hn; simpl.
  - repeat constructor.
  - simpl in Hn. destruct (Merkle.Left y <? Merkle.Left x) eqn:E.
    + apply Z.ltb_lt in E. inversion Hs as [|? ? Hs' Hh]; subst.
      constructor; [apply IH; tauto|].
      destruct l as [|z l]; simpl; [constructor; exact E|].
      destruct (Merkle.Left z <? Merkle.Left x); constructor; [|exact E].
      inversion Hh; assumption.
    + apply Z.ltb_ge in E. constructor; [exact Hs|]. constructor.
      assert (Merkle.Left y <> Merkle.Left x) by (intros Heq; apply Hn; left; exact Heq). lia.
Qed.

Lemma sortByLeft_sorted (l : list Merkle.SubTreeLimit) :
  NoDup (map Merkle.Left l) -> Sorted ltLeft (sortByLeft l).
Proof.
  induction l as [|x l IH]; intros Hd; simpl; [constructor|].
  inversion Hd as [|? ? Hnin Hd']; subst. apply insertByLeft_sorted; [apply IH; exact Hd'|].
  intros Hin. apply in_map_iff in Hin as [r [Hr Hin]]. rewrite sortByLeft_In in Hin.
  apply Hnin. rewrite <- Hr. apply in_map. exact Hin.
Qed.

Lemma proofRanges_collect (n : Z) (keys : list Z) : forall acc,
  fold_left (fun acc i => if i <? n then acc ++ [Merkle.mkLimit i (to_uint64 (i + 1))] else acc)
    keys acc
  = acc ++ map (fun i => Merkle.mkLimit i (to_uint64 (i + 1))) (filter (fun i => i <? n) keys).
Proof.
  induction keys as [|k keys IH]; intros acc; simpl; [rewrite app_nil_r; reflexivity|].
  destruct (k <? n); rewrite IH; [rewrite <- app_assoc|]; reflexivity.
Qed.

Lemma checkLimitListFrom_units (l : list Merkle.SubTreeLimit) : forall prev,
  Sorted ltLeft l ->
  Forall (fun r => 0 <= Merkle.Left r /\ Merkle.Right r = Merkle.Left r + 1) l ->
  (forall p, prev = Some p -> Merkle.Right p = Merkle.Left p + 1 /\ HdRel ltLeft p l) ->
  Merkle.checkLimitListFrom prev l = true.
Proof.
  induction l as [|r l IH]; intros prev Hs Hf Hp; [reflexivity|].
  inversion Hs as [|? ? Hs' Hh]; subst. inversion Hf as [|? ? [H0 H1] Hf']; subst.
  cbn [Merkle.checkLimitListFrom].
  replace ((Merkle.Left r <? 0) || (Merkle.Right r <=? Merkle.Left r)) with false
    by (symmetry; apply orb_false_iff; split; [apply Z.ltb_ge|apply Z.leb_gt]; lia).
  assert (Hr : Merkle.checkLimitListFrom (Some r) l = true).
  { apply IH; [exact Hs'|exact Hf'|]. intros p E. inversion E; subst. split; assumption. }
  destruct prev as [p|]; [|exact Hr].
  destruct (Hp p eq_refl) as [Hp1 Hp2]. inversion Hp2 as [|? ? Hlt]; subst.
  replace (Merkle.Left r <? Merkle.Right p) with false by (symmetry; apply Z.ltb_ge; lia).
  exact Hr.
Qed.

Lemma calcLeafHashes_in_range (sr : StorageResponsibility) (ranges : list Merkle.SubTreeLimit) :
  (forall r, In r ranges -> (Z.to_nat (Merkle.Left r) < length (SectorRoots sr))%nat) ->
  exists leafHashes, calcLeafHashes ranges sr = Return leafHashes /\
    map (fun r => nth_error (SectorRoots sr) (Z.to_nat (Merkle.Left r))) ranges
    = map Some leafHashes.
Proof.
  unfold calcLeafHashes. induction ranges as [|r rest IH]; intros H.
  - exists []. split; reflexivity.
  - destruct IH as [hs [Hm Hs]]; [intros r' Hr'; apply H; right; exact Hr'|].
    destruct (nth_error (SectorRoots sr) (Z.to_nat (Merkle.Left r))) as [h|] eqn:E.
    + exists (h :: hs). cbn [mapO map]. unfold index at 1. rewrite E. cbn [bindO].
      rewrite Hm, Hs. split; reflexivity.
    + apply nth_error_None in E. specialize (H r (or_introl eq_refl)). lia.
Qed.

Lemma handleUploadActions_keys_above (SectorSize : Z) (Sha : bytes -> bytes) (price N : Z)
    (actions : list UploadAction) : forall nd nd',
  (forall k, In k (sectorsChanged nd) -> N <= k) -> N <= Z.of_nat (length (newRoots nd)) ->
  handleUploadActions SectorSize Sha actions nd price = ROk nd' ->
  forall k, In k (sectorsChanged nd') -> N <= k.
Proof.
  induction actions as [|a actions IH]; intros nd nd' Hk Hl H; simpl in H.
  - inversion H; subst; exact Hk.
  - destruct (Type_ a); [|discriminate].
    refine (IH _ _ _ _ H).
    + intros k Hin. unfold handleUploadAppendType in Hin; cbn [sectorsChanged] in Hin.
      apply ListSet.set_add_elim in Hin as [->|Hin].
      * rewrite length_app; simpl; lia.
      * exact (Hk k Hin).
    + unfold handleUploadAppendType; cbn [newRoots]; rewrite length_app; simpl; lia.
Qed.

Lemma set_add_new (a : Z) (l : list Z) : ~ In a l -> ListSet.set_add Z.eq_dec a l = l ++ [a].
Proof.
  induction l as [|x l IH]; intros H; simpl; [reflexivity|].
  destruct (Z.eq_dec a x) as [->|Hne]; [exfalso; apply H; left; reflexivity|].
  rewrite IH; [reflexivity|intros Hin; apply H; right; exact Hin].
Qed.

Lemma handleUploadActions_appends (SectorSize : Z) (Sha : bytes -> bytes) (price : Z)
    (actions : list UploadAction) : forall nd,
  Forall (fun a => Type_ a = UploadActionAppend) actions ->
  (forall k, In k (sectorsChanged nd) -> k < Z.of_nat (length (newRoots nd))) ->
  handleUploadActions SectorSize Sha actions nd price =
  ROk (mkNegotiationData (newRoots nd ++ map (fun a => Sha (Data a)) actions)
         (sectorGained nd ++ map (fun a => Sha (Data a)) actions)
         (gainedSectorData nd ++ map Data actions)
         (sectorsChanged nd ++
            map (fun k => Z.of_nat (length (newRoots nd) + k)) (seq 0 (length actions)))
         (bandwidthRevenue nd + Z.of_nat (length actions) * (price * SectorSize))
         (newMerkleRoot nd)).
Proof.
  induction actions as [|a actions IH]; intros nd Ha Hk.
  - destruct nd; cbn; rewrite !app_nil_r, Z.add_0_r. reflexivity.
  - inversion Ha as [|? ? Ht Ha']; subst. cbn [handleUploadActions]. rewrite Ht.
    rewrite IH by (exact Ha' || (intros k Hin; unfold handleUploadAppendType in Hin |- *;
      cbn [sectorsChanged newRoots] in Hin |- *;
      apply ListSet.set_add_elim in Hin as [->|Hin];
      [rewrite length_app; simpl; lia|specialize (Hk k Hin); rewrite length_app; simpl; lia])).
    unfold handleUploadAppendType. cbn [newRoots sectorGained gainedSectorData sectorsChanged
                                           bandwidthRevenue newMerkleRoot].
    rewrite set_add_new
      by (rewrite length_app; simpl; intros Hin; specialize (Hk _ Hin); lia).
    rewrite !length_app. cbn [length map seq].
    rewrite <- !app_assoc. cbn [app].
    rewrite <- seq_shift, map_map.
    f_equal. f_equal.
    + f_equal. f_equal; [lia|].
      apply map_ext. intros k. lia.
    + rewrite Nat2Z.inj_succ. ring.
Qed.

End ProofRanges.

Lemma calcAndSortProofRanges_eq (sr : Upload.StorageResponsibility)
    (nd : Upload.uploadNegotiationData) :
  Upload.calcAndSortProofRanges sr nd =
  Upload.sortByLeft (map (fun i => Merkle.mkLimit i (to_uint64 (i + 1)))
    (filter (fun i => i <? to_uint64 (Z.of_nat (length (Upload.SectorRoots sr))))
       (Upload.sectorsChanged nd))).
Proof. unfold Upload.calcAndSortProofRanges. rewrite proofRanges_collect. reflexivity. Qed.

(** The proof ranges of an upload.  For a set [sectorsChanged] of (uint64,
    hence non-negative) sector indices and a responsibility with fewer than
    [2^63] sector roots, [calcAndSortProofRanges] returns exactly the unit
    ranges [[i, i+1)] of the changed indices below the old sector count, as a
    valid limit list (sorted and disjoint: [checkLimitList] accepts it), and
    [calcLeafHashes] on these ranges does not panic and returns the old
    sector roots at their left ends, in order. *)
Theorem calcAndSortProofRanges_valid (sr : Upload.StorageResponsibility)
    (nd : Upload.uploadNegotiationData) :
  NoDup (Upload.sectorsChanged nd) ->
  Forall (fun i => 0 <= i) (Upload.sectorsChanged nd) ->
  Z.of_nat (length (Upload.SectorRoots sr)) < 2 ^ 63 ->
  Merkle.checkLimitList (Upload.calcAndSortProofRanges sr nd) = true /\
  (forall r, In r (Upload.calcAndSortProofRanges sr nd) <->
     exists i, In i (Upload.sectorsChanged nd) /\
               i < Z.of_nat (length (Upload.SectorRoots sr)) /\ r = Merkle.mkLimit i (i + 1)) /\
  exists leafHashes,
    Upload.calcLeafHashes (Upload.calcAndSortProofRanges sr nd) sr = Return leafHashes /\
    map (fun r => nth_error (Upload.SectorRoots sr) (Z.to_nat (Merkle.Left r)))
      (Upload.calcAndSortProofRanges sr nd) = map Some leafHashes.
Proof.
  intros Hd Hpos Hn. rewrite Forall_forall in Hpos.
  rewrite calcAndSortProofRanges_eq.
  rewrite (to_uint64_small (Z.of_nat _)) by lia.
  assert (Hin : forall r,
    In r (Upload.sortByLeft (map (fun i => Merkle.mkLimit i (to_uint64 (i + 1)))
      (filter (fun i => i <? Z.of_nat (length (Upload.SectorRoots sr))) (Upload.sectorsChanged nd))))
    <-> exists i, In i (Upload.sectorsChanged nd) /\
               i < Z.of_nat (length (Upload.SectorRoots sr)) /\ r = Merkle.mkLimit i (i + 1)).
  { intros r. rewrite sortByLeft_In, in_map_iff. split.
    - intros [i [Hr Hi]]. apply filter_In in Hi as [Hi Hlt]. apply Z.ltb_lt in Hlt.
      specialize (Hpos i Hi). rewrite to_uint64_small in Hr by lia.
      exists i. split; [exact Hi|]. split; [exact Hlt|symmetry; exact Hr].
    - intros [i [Hi [Hlt ->]]]. specialize (Hpos i Hi). exists i.
      rewrite to_uint64_small by lia. split; [reflexivity|].
      apply filter_In. split; [exact Hi|apply Z.ltb_lt; exact Hlt]. }
  split; [|split; [exact Hin|]].
  - apply checkLimitListFrom_units.
    + apply sortByLeft_sorted. rewrite map_map. cbn [Merkle.Left]. rewrite map_id.
      apply NoDup_filter. exact Hd.
    + apply Forall_forall. intros r Hr. apply Hin in Hr as [i [Hi [_ ->]]].
      specialize (Hpos i Hi). cbn. lia.
    + intros p E. discriminate.
  - apply calcLeafHashes_in_range. intros r Hr. apply Hin in Hr as [i [Hi [Hlt ->]]].
    specialize (Hpos i Hi). cbn [Merkle.Left]. lia.
Qed.

(** Three changed sectors 2, 0 and 5 of a responsibility with four sector
    roots. *)
Lemma calcAndSortProofRanges_valid_witness :
  NoDup [2; 0; 5] /\
  Merkle.checkLimitList (Upload.calcAndSortProofRanges
    (Upload.mkStorageResponsibility [[Byte.x00]; [Byte.x01]; [Byte.x02]; [Byte.x03]] [])
    (Upload.mkNegotiationData [] [] [] [2; 0; 5] 0 [])) = true.
Proof.
  assert (Hd : NoDup [2; 0; 5]).
  { repeat constructor; simpl; intuition discriminate. }
  split; [exact Hd|].
  exact (proj1 (calcAndSortProofRanges_valid
    (Upload.mkStorageResponsibility [[Byte.x00]; [Byte.x01]; [Byte.x02]; [Byte.x03]] [])
    (Upload.mkNegotiationData [] [] [] [2; 0; 5] 0 []) Hd
    ltac:(repeat constructor; discriminate) ltac:(simpl; lia))).
Defined.

(** An upload only appends: after [parseAndHandleUploadActions] succeeds,
    whatever negotiation data it started from, every index in
    [sectorsChanged] is at least the old number of sector roots, so
    [calcAndSortProofRanges] returns no proof range and [calcLeafHashes] no
    leaf hash. *)
Theorem upload_no_proof_ranges (SectorSize : Z) (Sha256MerkleTreeRoot : bytes -> bytes)
    (req : Upload.Req.UploadRequest) (nd : Upload.uploadNegotiationData)
    (sr : Upload.StorageResponsibility) (price : Z) (nd' : Upload.uploadNegotiationData) :
  Upload.parseAndHandleUploadActions SectorSize Sha256MerkleTreeRoot req nd sr price
    = Upload.ROk nd' ->
  Upload.calcAndSortProofRanges sr nd' = [] /\
  Upload.calcLeafHashes (Upload.calcAndSortProofRanges sr nd') sr = Return [].
Proof.
  intros H. unfold Upload.parseAndHandleUploadActions in H.
  assert (Hk : forall k, In k (Upload.sectorsChanged nd') ->
                          Z.of_nat (length (Upload.SectorRoots sr)) <= k).
  { eapply handleUploadActions_keys_above; [| |exact H].
    - cbn [Upload.sectorsChanged]. intros k [].
    - cbn [Upload.newRoots]. rewrite length_app. lia. }
  assert (E : Upload.calcAndSortProofRanges sr nd' = []).
  { rewrite calcAndSortProofRanges_eq.
    assert (Hf : filter (fun i => i <? to_uint64 (Z.of_nat (length (Upload.SectorRoots sr))))
                   (Upload.sectorsChanged nd') = []).
    { assert (Hm : to_uint64 (Z.of_nat (length (Upload.SectorRoots sr)))
                     <= Z.of_nat (length (Upload.SectorRoots sr)))
        by (unfold to_uint64; apply Z.mod_le; lia).
      induction (Upload.sectorsChanged nd') as [|k ks IH]; [reflexivity|].
      cbn [filter]. specialize (Hk k (or_introl eq_refl)) as Hk0.
      replace (k <? _) with false by (symmetry; apply Z.ltb_ge; lia).
      apply IH. intros k' Hk'. apply Hk. right. exact Hk'. }
    rewrite Hf. reflexivity. }
  rewrite E. split; reflexivity.
Qed.

(** Two sectors appended to a responsibility with one sector root: the
    changed indices are 1 and 2, none of them an old sector. *)
Lemma upload_no_proof_ranges_witness :
  Upload.parseAndHandleUploadActions 64 (fun d => d)
    (Upload.Req.mkUploadRequest []
       [Upload.mkUploadAction Upload.UploadActionAppend [Byte.x01];
        Upload.mkUploadAction Upload.UploadActionAppend [Byte.x02]] 1 [] [])
    Upload.emptyNegotiationData (Upload.mkStorageResponsibility [[Byte.x00]] []) 1
  = Upload.ROk (Upload.mkNegotiationData [[Byte.x00]; [Byte.x01]; [Byte.x02]]
                  [[Byte.x01]; [Byte.x02]] [[Byte.x01]; [Byte.x02]] [1; 2] 128 []) /\
  Upload.calcAndSortProofRanges (Upload.mkStorageResponsibility [[Byte.x00]] [])
    (Upload.mkNegotiationData [[Byte.x00]; [Byte.x01]; [Byte.x02]]
       [[Byte.x01]; [Byte.x02]] [[Byte.x01]; [Byte.x02]] [1; 2] 128 []) = [].
Proof.
  assert (H : Upload.parseAndHandleUploadActions 64 (fun d => d)
    (Upload.Req.mkUploadRequest []
       [Upload.mkUploadAction Upload.UploadActionAppend [Byte.x01];
        Upload.mkUploadAction Upload.UploadActionAppend [Byte.x02]] 1 [] [])
    Upload.emptyNegotiationData (Upload.mkStorageResponsibility [[Byte.x00]] []) 1
  = Upload.ROk (Upload.mkNegotiationData [[Byte.x00]; [Byte.x01]; [Byte.x02]]
                  [[Byte.x01]; [Byte.x02]] [[Byte.x01]; [Byte.x02]] [1; 2] 128 []))
    by reflexivity.
  split; [exact H|].
  exact (proj1 (upload_no_proof_ranges _ _ _ _ _ _ _ H)).
Defined.

(** [parseAndHandleUploadActions] on a request whose actions are all
    appends, from the zero negotiation data of [ContractUploadHandler]:
    the tentative roots are the old sector roots followed by the root of
    each appended sector, in order; the gained sectors and their data are
    the appended ones; the changed indices are the new positions
    [len(SectorRoots) + k] of the appended sectors; the bandwidth revenue is
    the price times [SectorSize] per append; no Merkle root is set yet. *)
Theorem parseAndHandleUploadActions_appends (SectorSize : Z) (Sha256MerkleTreeRoot : bytes -> bytes)
    (req : Upload.Req.UploadRequest) (sr : Upload.StorageResponsibility) (price : Z) :
  Forall (fun a => Upload.Type_ a = Upload.UploadActionAppend) (Upload.Req.Actions req) ->
  Upload.parseAndHandleUploadActions SectorSize Sha256MerkleTreeRoot req
    Upload.emptyNegotiationData sr price =
  Upload.ROk (Upload.mkNegotiationData
    (Upload.SectorRoots sr ++ map (fun a => Sha256MerkleTreeRoot (Upload.Data a)) (Upload.Req.Actions req))
    (map (fun a => Sha256MerkleTreeRoot (Upload.Data a)) (Upload.Req.Actions req))
    (map Upload.Data (Upload.Req.Actions req))
    (map (fun k => Z.of_nat (length (Upload.SectorRoots sr) + k))
       (seq 0 (length (Upload.Req.Actions req))))
    (Z.of_nat (length (Upload.Req.Actions req)) * (price * SectorSize))
    []).
Proof.
  intros Ha. unfold Upload.parseAndHandleUploadActions.
  rewrite handleUploadActions_appends by (exact Ha || (cbn; intros k [])).
  reflexivity.
Qed.

Lemma parseAndHandleUploadActions_appends_witness :
  Forall (fun a => Upload.Type_ a = Upload.UploadActionAppend)
    [Upload.mkUploadAction Upload.UploadActionAppend [Byte.x07]] /\
  Upload.parseAndHandleUploadActions 64 (fun d => d)
    (Upload.Req.mkUploadRequest [] [Upload.mkUploadAction Upload.UploadActionAppend [Byte.x07]] 1 [] [])
    Upload.emptyNegotiationData (Upload.mkStorageResponsibility [[Byte.x00]] []) 3 =
  Upload.ROk (Upload.mkNegotiationData [[Byte.x00]; [Byte.x07]] [[Byte.x07]] [[Byte.x07]]
                [1] 192 []).
Proof.
  assert (Ha : Forall (fun a => Upload.Type_ a = Upload.UploadActionAppend)
                 [Upload.mkUploadAction Upload.UploadActionAppend [Byte.x07]])
    by (repeat constructor).
  split; [exact Ha|].
  exact (parseAndHandleUploadActions_appends 64 (fun d => d)
    (Upload.Req.mkUploadRequest [] [Upload.mkUploadAction Upload.UploadActionAppend [Byte.x07]] 1 [] [])
    (Upload.mkStorageResponsibility [[Byte.x00]] []) 3 Ha).
Defined.

(** A request with an action of an unknown type is refused by
    [parseAndHandleUploadActions] with the unknown-action-type error,
    wherever the action stands among the appends. *)
Theorem parseAndHandleUploadActions_unknown (SectorSize : Z) (Sha256MerkleTreeRoot : bytes -> bytes)
    (req : Upload.Req.UploadRequest) (nd : Upload.uploadNegotiationData)
    (sr : Upload.StorageResponsibility) (price : Z) (a : Upload.UploadAction) :
  In a (Upload.Req.Actions req) -> Upload.Type_ a = Upload.UploadActionOther ->
  Upload.parseAndHandleUploadActions SectorSize Sha256MerkleTreeRoot req nd sr price
    = Upload.RErr Upload.ErrUnknownActionType.
Proof.
  intros Hin Ht. unfold Upload.parseAndHandleUploadActions.
  generalize (Upload.mkNegotiationData (Upload.newRoots nd ++ Upload.SectorRoots sr)
    (Upload.sectorGained nd) (Upload.gainedSectorData nd) [] (Upload.bandwidthRevenue nd)
    (Upload.newMerkleRoot nd)).
  induction (Upload.Req.Actions req) as [|b rest IH]; [destruct Hin|]; intros nd1.
  cbn [Upload.handleUploadActions]. destruct Hin as [->|Hin].
  - rewrite Ht. reflexivity.
  - destruct (Upload.Type_ b); [apply IH; exact Hin|reflexivity].
Qed.

Lemma parseAndHandleUploadActions_unknown_witness :
  Upload.parseAndHandleUploadActions 64 (fun d => d)
    (Upload.Req.mkUploadRequest []
       [Upload.mkUploadAction Upload.UploadActionAppend [Byte.x01];
        Upload.mkUploadAction Upload.UploadActionOther [Byte.x02]] 1 [] [])
    Upload.emptyNegotiationData (Upload.mkStorageResponsibility [] []) 1
  = Upload.RErr Upload.ErrUnknownActionType.
Proof.
  apply (parseAndHandleUploadActions_unknown _ _ _ _ _ _
           (Upload.mkUploadAction Upload.UploadActionOther [Byte.x02])).
  - right. left. reflexivity.
  - reflexivity.
Defined.

Lemma mapO_seq_Panic {B : Type} (f : nat -> outcome B) (n : nat) : forall s,
  mapO f (seq s n) = Panic <-> exists i, (s <= i < s + n)%nat /\ f i = Panic.
Proof.
  induction n as [|n IH]; intros s; cbn [seq mapO].
  - split; [discriminate|intros [i [Hi _]]; lia].
  - specialize (IH (S s)).
    destruct (f s) as [y|] eqn:E; cbn [bindO].
    + destruct (mapO f (seq (S s) n)) eqn:Em; cbn [bindO].
      * split; [discriminate|]. intros [i [Hi Hf]].
        assert (Hne : i <> s) by (intros ->; congruence).
        assert (Hx : exists i, (S s <= i < S s + n)%nat /\ f i = Panic)
          by (exists i; split; [lia|exact Hf]).
        apply IH in Hx. discriminate.
      * split; [intros _|reflexivity].
        destruct (proj1 IH eq_refl) as [i [Hi Hf]]. exists i. split; [lia|exact Hf].
    + split; [intros _; exists s; split; [lia|exact E]|reflexivity].
Qed.

Lemma index_Panic {A : Type} (l : list A) (i : nat) : index l i = Panic <-> (length l <= i)%nat.
Proof.
  unfold index. rewrite <- nth_error_None.
  destruct (nth_error l i); split; congruence.
Qed.

Lemma payback_step_Panic (vs : list Z) (os : list Upload.DxcoinCharge) (i : nat) :
  (let! v := index vs i in let! o := index os i in Return (Upload.mkDxcoinCharge v (Upload.Address o)))
    = Panic <-> (length vs <= i \/ length os <= i)%nat.
Proof.
  rewrite <- !index_Panic.
  destruct (index vs i), (index os i); cbn [bindO]; intuition congruence.
Qed.

Lemma updateRevisionMissedAndValidPayback_Panic (newRev cur : Upload.StorageContractRevision)
    (req : Upload.Req.UploadRequest) :
  Upload.updateRevisionMissedAndValidPayback newRev cur req = Panic <->
  (length (Upload.Req.NewValidProofValues req) < length (Upload.NewValidProofOutputs cur) \/
   length (Upload.Req.NewMissedProofValues req) < length (Upload.NewValidProofOutputs cur) \/
   length (Upload.NewMissedProofOutputs cur) < length (Upload.NewValidProofOutputs cur))%nat.
Proof.
  unfold Upload.updateRevisionMissedAndValidPayback.
  set (n := length (Upload.NewValidProofOutputs cur)).
  set (valid := mapO _ (seq 0 n)). set (missed := mapO _ (seq 0 n)).
  assert (Hv : valid = Panic <-> (length (Upload.Req.NewValidProofValues req) < n)%nat).
  { unfold valid. rewrite mapO_seq_Panic. split.
    - intros [i [Hi Hf]]. apply payback_step_Panic in Hf. unfold n in *. lia.
    - intros H. exists (length (Upload.Req.NewValidProofValues req)). split; [lia|].
      apply payback_step_Panic. lia. }
  assert (Hm : missed = Panic <->
    (length (Upload.Req.NewMissedProofValues req) < n \/
     length (Upload.NewMissedProofOutputs cur) < n)%nat).
  { unfold missed. rewrite mapO_seq_Panic. split.
    - intros [i [Hi Hf]]. apply payback_step_Panic in Hf. lia.
    - intros [H|H].
      + exists (length (Upload.Req.NewMissedProofValues req)). split; [lia|].
        apply payback_step_Panic. lia.
      + exists (length (Upload.NewMissedProofOutputs cur)). split; [lia|].
        apply payback_step_Panic. lia. }
  destruct valid, missed; cbn [bindO]; intuition congruence.
Qed.

(** When [constructAndVerifyNewRevision] panics.  With no revision in the
    responsibility, [sr.StorageContractRevisions[len-1]] is out of range.
    Otherwise, with [cur] the latest revision and [n] the number of its
    valid-proof outputs, over which both payback loops range, it panics
    exactly when the request has fewer than [n] new valid or missed proof
    values or [cur] has fewer than [n] missed-proof outputs; the result of
    the validation does not matter. *)
Theorem constructAndVerifyNewRevision_Panic (SectorSize : Z) (sha256Node : bytes -> bytes -> bytes)
    (validate : Upload.StorageResponsibility -> Upload.StorageContractRevision -> option Upload.error)
    (nd : Upload.uploadNegotiationData) (sr : Upload.StorageResponsibility)
    (req : Upload.Req.UploadRequest) :
  (Upload.StorageContractRevisions sr = [] ->
   Upload.constructAndVerifyNewRevision SectorSize sha256Node validate nd sr req = Panic) /\
  (forall prev cur, Upload.StorageContractRevisions sr = prev ++ [cur] ->
   (Upload.constructAndVerifyNewRevision SectorSize sha256Node validate nd sr req = Panic <->
    (length (Upload.Req.NewValidProofValues req) < length (Upload.NewValidProofOutputs cur) \/
     length (Upload.Req.NewMissedProofValues req) < length (Upload.NewValidProofOutputs cur) \/
     length (Upload.NewMissedProofOutputs cur) < length (Upload.NewValidProofOutputs cur))%nat)).
Proof.
  split.
  - intros E. unfold Upload.constructAndVerifyNewRevision. rewrite E. reflexivity.
  - intros prev cur E. unfold Upload.constructAndVerifyNewRevision. rewrite E, index_last.
    cbn [bindO]. unfold Upload.calcAndUpdateRevisionMerkleRoot.
    match goal with |- context [Upload.updateRevisionMissedAndValidPayback ?x cur req] =>
      rewrite <- (updateRevisionMissedAndValidPayback_Panic x cur req);
      destruct (Upload.updateRevisionMissedAndValidPayback x cur req)
    end; cbn [bindO].
    + destruct (validate _ _); split; intros H; discriminate H.
    + split; reflexivity.
Qed.




(** ** Lucky wheel selection *)

Lemma selectSingleEntry_range (es : list LuckyWheel.randomSelectorEntry) (selected : Z) :
  es <> [] -> 0 <= LuckyWheel.selectSingleEntry es selected < Z.of_nat (length es).
Proof.
  intros Hne. assert (Hl : (1 <= length es)%nat) by (destruct es; [contradiction|cbn; lia]).
  unfold LuckyWheel.selectSingleEntry.
  destruct (LuckyWheel.scanEntries 0 es selected) as [j|] eqn:E.
  - apply scanEntries_range in E. lia.
  - lia.
Qed.

Lemma split_at_index {A : Type} (es : list A) (k : nat) :
  (k < length es)%nat ->
  exists e, nth_error es k = Some e /\ es = firstn k es ++ e :: skipn (S k) es.
Proof.
  revert es. induction k as [|k IH]; intros es Hk; destruct es as [|x es]; cbn in Hk; try lia.
  - exists x. split; reflexivity.
  - destruct (IH es ltac:(lia)) as [e [He Hes]]. exists e. split; [exact He|].
    change (skipn (S (S k)) (x :: es)) with (skipn (S k) es).
    cbn [firstn app]. f_equal. exact Hes.
Qed.

Lemma randomSelectLoop_spec (draws : nat -> Z) (n : nat) : forall i lw,
  (n <= length (LuckyWheel.entries lw))%nat ->
  exists S rest,
    LuckyWheel.randomSelectLoop draws i n lw =
      Return (LuckyWheel.mkLuckyWheel rest (LuckyWheel.target lw)
                (LuckyWheel.results lw ++ map LuckyWheel.addr S)
                (LuckyWheel.sumVotes lw) (LuckyWheel.done lw)) /\
    length S = n /\ Permutation (LuckyWheel.entries lw) (S ++ rest).
Proof.
  induction n as [|n IH]; intros i lw Hn.
  - exists [], (LuckyWheel.entries lw). split; [|split; [reflexivity|reflexivity]].
    destruct lw; cbn. rewrite app_nil_r. reflexivity.
  - set (es := LuckyWheel.entries lw) in *.
    assert (Hne : es <> []) by (intros E; rewrite E in Hn; cbn in Hn; lia).
    set (k := LuckyWheel.selectSingleEntry es (draws i)).
    assert (Hk := selectSingleEntry_range es (draws i) Hne). fold k in Hk.
    destruct (split_at_index es (Z.to_nat k) ltac:(lia)) as [e [He Hes]].
    set (es' := firstn (Z.to_nat k) es ++ skipn (S (Z.to_nat k)) es).
    assert (Hrem : (if k =? Z.of_nat (length es) - 1
                    then firstn (length es - 1) es
                    else firstn (Z.to_nat k) es ++ skipn (Z.to_nat (k + 1)) es) = es').
    { unfold es'. replace (Z.to_nat (k + 1)) with (S (Z.to_nat k)) by lia.
      destruct (k =? Z.of_nat (length es) - 1) eqn:Ek; [|reflexivity].
      apply Z.eqb_eq in Ek. rewrite (skipn_all2 es) by lia. rewrite app_nil_r. f_equal. lia. }
    assert (Hlen : length es = S (length es')).
    { rewrite Hes at 1. unfold es'. rewrite !length_app. cbn. lia. }
    cbn [LuckyWheel.randomSelectLoop]. fold es. fold k.
    unfold LuckyWheel.indexZ. replace (k <? 0) with false by (symmetry; apply Z.ltb_ge; lia).
    unfold index. rewrite He. cbn [bindO]. rewrite Hrem.
    destruct (IH (S i) (LuckyWheel.mkLuckyWheel es' (LuckyWheel.target lw)
                 (LuckyWheel.results lw ++ [LuckyWheel.addr e]) (LuckyWheel.sumVotes lw)
                 (LuckyWheel.done lw)) ltac:(cbn; lia)) as [S [rest [HL [HS HP]]]].
    exists (e :: S), rest. rewrite HL. cbn [LuckyWheel.target LuckyWheel.results
      LuckyWheel.sumVotes LuckyWheel.done LuckyWheel.entries] in *.
    split; [|split].
    + rewrite <- app_assoc. reflexivity.
    + cbn. lia.
    + apply (Permutation_trans (l' := e :: es')).
      * unfold es'. rewrite Hes at 1. apply Permutation_sym, Permutation_middle.
      * cbn [app]. apply perm_skip. exact HP.
Qed.

(** The lucky wheel, for every sequence of random draws.  For a target
    between 0 and the number of entries, [newLuckyWheel] succeeds, and
    [RandomSelect] does not panic: it returns the [target] zero addresses
    pre-allocated by [make([]common.Address, target)] followed by the
    addresses of [target] selected entries, the selected entries and the
    entries left over are a permutation of the original entries (no entry is
    selected twice), and a second call returns the same list. *)
Theorem RandomSelect_results (es : list LuckyWheel.randomSelectorEntry) (target : Z)
    (draws : nat -> Z) :
  0 <= target <= Z.of_nat (length es) ->
  exists lw, LuckyWheel.newLuckyWheel es target = Return (Some lw, None) /\
  exists S rest lw',
    LuckyWheel.RandomSelect draws lw =
      Return (repeat 0 (Z.to_nat target) ++ map LuckyWheel.addr S, lw') /\
    length S = Z.to_nat target /\
    Permutation es (S ++ rest) /\
    LuckyWheel.entries lw' = rest /\
    LuckyWheel.RandomSelect draws lw' =
      Return (repeat 0 (Z.to_nat target) ++ map LuckyWheel.addr S, lw').
Proof.
  intros Ht. unfold LuckyWheel.newLuckyWheel.
  replace (Z.of_nat (length es) <? target) with false by (symmetry; apply Z.ltb_ge; lia).
  replace (target <? 0) with false by (symmetry; apply Z.ltb_ge; lia).
  eexists. split; [reflexivity|].
  destruct (randomSelectLoop_spec draws (Z.to_nat target) 0
              (LuckyWheel.mkLuckyWheel es target (repeat 0 (Z.to_nat target))
                 (fold_left (fun s e => s + LuckyWheel.vote e) es 0) false)
              ltac:(cbn; lia)) as [S [rest [HL [HS HP]]]].
  exists S, rest. eexists. unfold LuckyWheel.RandomSelect, LuckyWheel.randomSelect.
  cbn [LuckyWheel.done LuckyWheel.target]. rewrite HL. cbn. 
  split; [reflexivity|]. split; [exact HS|]. split; [exact HP|]. split; reflexivity.
Qed.

(** Three entries, two to select, with draws that always hit the first
    remaining entry. *)
Lemma RandomSelect_results_witness :
  exists lw, LuckyWheel.newLuckyWheel
    [LuckyWheel.mkEntry 1 5; LuckyWheel.mkEntry 2 3; LuckyWheel.mkEntry 3 2] 2
    = Return (Some lw, None) /\
  exists S rest lw',
    LuckyWheel.RandomSelect (fun _ => 100) lw =
      Return (repeat 0 (Z.to_nat 2) ++ map LuckyWheel.addr S, lw') /\
    length S = Z.to_nat 2 /\
    Permutation [LuckyWheel.mkEntry 1 5; LuckyWheel.mkEntry 2 3; LuckyWheel.mkEntry 3 2]
      (S ++ rest) /\
    LuckyWheel.entries lw' = rest /\
    LuckyWheel.RandomSelect (fun _ => 100) lw' =
      Return (repeat 0 (Z.to_nat 2) ++ map LuckyWheel.addr S, lw').
Proof.
  apply RandomSelect_results. cbn. lia.
Defined.

(** The errors of [newLuckyWheel]: more targets than entries is refused
    with [errRandomSelectNotEnoughEntries]; a negative target passes that
    check and panics in [make]; otherwise the wheel holds the entries, the
    target, [target] zero addresses as results and the sum of the votes. *)
Theorem newLuckyWheel_cases (es : list LuckyWheel.randomSelectorEntry) (target : Z) :
  (Z.of_nat (length es) < target ->
   LuckyWheel.newLuckyWheel es target
     = Return (None, Some LuckyWheel.errRandomSelectNotEnoughEntries)) /\
  (target < 0 -> LuckyWheel.newLuckyWheel es target = Panic) /\
  (0 <= target <= Z.of_nat (length es) ->
   LuckyWheel.newLuckyWheel es target
     = Return (Some (LuckyWheel.mkLuckyWheel es target (repeat 0 (Z.to_nat target))
                       (fold_right (fun e s => LuckyWheel.vote e + s) 0 es) false), None)).
Proof.
  unfold LuckyWheel.newLuckyWheel. split; [|split].
  - intros H. replace (Z.of_nat (length es) <? target) with true by (symmetry; apply Z.ltb_lt; lia).
    reflexivity.
  - intros H. replace (Z.of_nat (length es) <? target) with false by (symmetry; apply Z.ltb_ge; lia).
    replace (target <? 0) with true by (symmetry; apply Z.ltb_lt; lia). reflexivity.
  - intros H. replace (Z.of_nat (length es) <? target) with false by (symmetry; apply Z.ltb_ge; lia).
    replace (target <? 0) with false by (symmetry; apply Z.ltb_ge; lia).
    do 3 f_equal. clear H.
    assert (Hsum : forall acc, fold_left (fun s e => s + LuckyWheel.vote e) es acc
                               = acc + fold_right (fun e s => LuckyWheel.vote e + s) 0 es).
    { induction es as [|e es' IH]; intros acc; cbn; [lia|]. rewrite IH. lia. }
    rewrite Hsum, Z.add_0_l. reflexivity.
Qed.

(** ** Client upload and download *)

Lemma writeLoop_nil_price (SectorSize p : Z) (actions : list Upload.UploadAction) :
  forall nfs r, Client.writeLoop SectorSize p actions None nfs = Return r -> fst r = None.
Proof.
  induction actions as [|a rest IH]; intros nfs r H; cbn [Client.writeLoop] in H.
  - inversion H; reflexivity.
  - destruct (Upload.Type_ a); [discriminate|exact (IH _ _ H)].
Qed.

(** [Write] never reaches the upload exchange: [bandwidthPrice] is a nil
    [*big.Int], so [bandwidthPrice.Add(bandwidthPrice, ...)] panics, in the
    loop at the first append action or, for a request without appends,
    right after it.  Every call of [Write], and so of [Append], panics
    before any message is sent, whatever the host prices, the block height
    and the actions. *)
Theorem Write_always_panics (SectorSize HashSize currentBlockHeight : Z) (Message : Type)
    (writeRest : option Z -> option Z -> option Z -> Z -> outcome (option Client.error * list Message))
    (hostInfo : Client.HostInfo) :
  (forall actions,
     Client.Write SectorSize HashSize currentBlockHeight Message writeRest hostInfo actions = Panic) /\
  (forall data,
     Client.Append SectorSize HashSize currentBlockHeight Message writeRest hostInfo data = Panic).
Proof.
  assert (Hw : forall actions,
     Client.Write SectorSize HashSize currentBlockHeight Message writeRest hostInfo actions = Panic).
  { intros actions. unfold Client.Write.
    destruct (Client.writeLoop SectorSize _ actions None _) as [r|] eqn:E; [|reflexivity].
    cbn [bindO]. apply writeLoop_nil_price in E. rewrite E. reflexivity. }
  split; [exact Hw|]. intros data. apply Hw.
Qed.

(** [Read] never gets past the funds check: when the sanity check of the
    sections fails it returns that error, having sent nothing and written
    nothing; when it passes, [lastRevision.NewValidProofOutputs[0]] indexes
    the nil slice of the empty revision and panics. *)
Theorem ReadPriced_never_reads (SectorSize SegmentSize HashSize RPCMinLen : Z) (Message : Type)
    (readRest : Z -> outcome (option Client.error * list Message * bytes))
    (hostInfo : Client.HostInfo) (req : Client.DownloadRequest) :
  Client.ReadPriced SectorSize SegmentSize HashSize RPCMinLen Message readRest hostInfo req =
  match Client.checkSections SectorSize SegmentSize (Client.MerkleProof req) (Client.Sections req) with
  | Some e => Return (Some e, [], [])
  | None => Panic
  end.
Proof.
  unfold Client.ReadPriced.
  destruct (Client.checkSections SectorSize SegmentSize _ _); reflexivity.
Qed.

(** [Download] of a section given by a uint32 offset and length never
    returns data: it returns an empty buffer with the offset/length error
    when the section does not fit in a sector, with the alignment error when
    it fits but is not made of whole segments, and it panics otherwise. *)
Theorem Download_never_returns_data (SectorSize SegmentSize HashSize RPCMinLen : Z) (Message : Type)
    (readRest : Z -> outcome (option Client.error * list Message * bytes))
    (hostInfo : Client.HostInfo) (root : bytes) (offset length : Z) :
  0 <= offset < 2 ^ 32 -> 0 <= length < 2 ^ 32 ->
  Client.Download SectorSize SegmentSize HashSize RPCMinLen Message readRest hostInfo root offset length =
  if SectorSize <? offset + length then Return ([], Some Client.ErrIllegalOffsetLength)
  else if negb (offset mod SegmentSize =? 0) || negb (length mod SegmentSize =? 0)
  then Return ([], Some Client.ErrSegmentAlignment)
  else Panic.
Proof.
  intros Ho Hl. unfold Client.Download, Client.ReadPriced.
  cbn [Client.MerkleProof Client.Sections Client.checkSections Client.Offset Client.Length].
  rewrite to_uint64_small by lia.
  destruct (SectorSize <? offset + length); [reflexivity|].
  cbn [andb]. destruct (negb (offset mod SegmentSize =? 0) || negb (length mod SegmentSize =? 0));
    reflexivity.
Qed.

(** Three downloads from a 64-byte sector of 16-byte segments: a section
    overrunning the sector, a misaligned one and a valid one. *)
Lemma Download_never_returns_data_witness :
  Client.Download 64 16 32 0 unit (fun _ => Return (None, [], [Byte.x00])) (Client.mkHostInfo 1 1 1 1 1 1)
    [] 48 32 = Return ([], Some Client.ErrIllegalOffsetLength) /\
  Client.Download 64 16 32 0 unit (fun _ => Return (None, [], [Byte.x00])) (Client.mkHostInfo 1 1 1 1 1 1)
    [] 8 16 = Return ([], Some Client.ErrSegmentAlignment) /\
  Client.Download 64 16 32 0 unit (fun _ => Return (None, [], [Byte.x00])) (Client.mkHostInfo 1 1 1 1 1 1)
    [] 16 32 = Panic.
Proof.
  split; [|split].
  - refine (eq_trans (Download_never_returns_data 64 16 32 0 unit _ _ [] 48 32 _ _) _);
      [lia|lia|reflexivity].
  - refine (eq_trans (Download_never_returns_data 64 16 32 0 unit _ _ [] 8 16 _ _) _);
      [lia|lia|reflexivity].
  - refine (eq_trans (Download_never_returns_data 64 16 32 0 unit _ _ [] 16 32 _ _) _);
      [lia|lia|reflexivity].
Defined.

(** ** The public single-range wrappers and the streaming leaf source *)

Section LeafStream.
Import Merkle.

Lemma chunks_skipn (n : nat) (Hn : (1 <= n)%nat) (a : nat) : forall (d : list Byte.byte),
  chunks n (skipn (a * n) d) = skipn a (chunks n d).
Proof.
  induction a as [|a IH]; intros d; [reflexivity|].
  destruct d as [|x d']; [rewrite skipn_nil; reflexivity|].
  rewrite (chunks_cons n (x :: d')) by (assumption || discriminate).
  replace (S a * n)%nat with (a * n + n)%nat by lia.
  rewrite <- skipn_skipn. cbn [skipn]. apply IH.
Qed.

Lemma chunks_firstn (n : nat) (Hn : (1 <= n)%nat) (k : nat) : forall (d : list Byte.byte),
  chunks n (firstn (k * n) d) = firstn k (chunks n d).
Proof.
  induction k as [|k IH]; intros d; [reflexivity|].
  destruct d as [|x d']; [rewrite firstn_nil; reflexivity|].
  rewrite (chunks_cons n (x :: d')) by (assumption || discriminate).
  rewrite chunks_cons.
  - rewrite firstn_firstn, skipn_firstn_comm.
    replace (Nat.min n (S k * n)) with n by lia.
    replace (S k * n - n)%nat with (k * n)%nat by lia.
    rewrite IH. reflexivity.
  - exact Hn.
  - destruct (S k * n)%nat as [|m] eqn:E; [lia|]. discriminate.
Qed.

Lemma reader_GetLeafRoot_sim (leafSum : bytes -> bytes) (n : nat) (Hn : (1 <= n)%nat)
    (r : list Byte.byte) :
  cached_GetLeafRoot (mkLeafRootCached (map leafSum (chunks n r))) =
    (fst (reader_GetLeafRoot leafSum (mkLeafRootReader r n)),
     mkLeafRootCached (map leafSum (chunks n (lrd (snd (reader_GetLeafRoot leafSum (mkLeafRootReader r n))))))) /\
  lleafLen (snd (reader_GetLeafRoot leafSum (mkLeafRootReader r n))) = n.
Proof.
  unfold reader_GetLeafRoot, ReadFull. cbn [lrd lleafLen].
  replace (Nat.eqb n 0) with false by (symmetry; apply Nat.eqb_neq; lia).
  destruct r as [|x r']; [split; reflexivity|].
  destruct (Nat.ltb (length (x :: r')) n) eqn:E.
  - apply Nat.ltb_lt in E.
    rewrite chunks_short by (lia || discriminate). split; reflexivity.
  - apply Nat.ltb_ge in E.
    rewrite chunks_cons by (lia || discriminate).
    rewrite length_firstn. replace (Nat.eqb (Nat.min n (length (x :: r'))) 0) with false
      by (symmetry; apply Nat.eqb_neq; lia).
    split; reflexivity.
Qed.

Section Simulation.
Variable nodeSum : bytes -> bytes -> bytes.
Context {L1 L2 : Type} (lr1 : LeafRoot L1) (lr2 : LeafRoot L2) (f : L1 -> L2) (I : L1 -> Prop).
Hypothesis Hsim : forall x, I x ->
  GetLeafRoot lr2 (f x) = (fst (GetLeafRoot lr1 x), f (snd (GetLeafRoot lr1 x))) /\
  I (snd (GetLeafRoot lr1 x)).

Lemma pushClaimedLeaves_sim (k : nat) : forall t x, I x ->
  pushClaimedLeaves nodeSum lr2 k t (f x) =
    (fst (pushClaimedLeaves nodeSum lr1 k t x), f (snd (pushClaimedLeaves nodeSum lr1 k t x))) /\
  I (snd (pushClaimedLeaves nodeSum lr1 k t x)).
Proof.
  induction k as [|k IH]; intros t x Hx; [split; [reflexivity|exact Hx]|].
  cbn [pushClaimedLeaves]. destruct (Hsim x Hx) as [E HI]. rewrite E.
  destruct (GetLeafRoot lr1 x) as [r x'] eqn:G. cbn [fst snd] in HI |- *.
  destruct r as [h|e]; [|split; [reflexivity|exact HI]].
  destruct (PushSubTree nodeSum 0 h t) as [t'|e]; [apply IH; exact HI|split; [reflexivity|exact HI]].
Qed.

Lemma verifyRanges_sim (limits : list SubTreeLimit) : forall proofs i t x, I x ->
  verifyRanges nodeSum lr2 limits proofs i t (f x) =
    (fst (verifyRanges nodeSum lr1 limits proofs i t x),
     f (snd (verifyRanges nodeSum lr1 limits proofs i t x))) /\
  I (snd (verifyRanges nodeSum lr1 limits proofs i t x)).
Proof.
  induction limits as [|r rest IH]; intros proofs i t x Hx; [split; [reflexivity|exact Hx]|].
  cbn [verifyRanges].
  destruct (vConsumeUntil nodeSum (Left r) proofs i t) as [[e|] [[i' proofs'] t']];
    [split; [reflexivity|exact Hx]|].
  destruct (pushClaimedLeaves_sim (Z.to_nat (Right r - Left r)) t' x Hx) as [E HI].
  rewrite E.
  destruct (pushClaimedLeaves nodeSum lr1 (Z.to_nat (Right r - Left r)) t' x)
    as [[[[e|] t'']|] x'] eqn:G; cbn [fst snd] in HI |- *;
    [split; [reflexivity|exact HI]|apply IH; exact HI|split; [reflexivity|exact HI]].
Qed.

Lemma checkLimitStorageProof_sim (limits : list SubTreeLimit) (proofs : list bytes)
    (root : bytes) (x : L1) : I x ->
  fst (checkLimitStorageProof nodeSum lr2 (f x) limits proofs root) =
  fst (checkLimitStorageProof nodeSum lr1 x limits proofs root).
Proof.
  intros Hx. unfold checkLimitStorageProof.
  destruct limits as [|r0 rest0]; [reflexivity|].
  destruct (negb (checkLimitList (r0 :: rest0))); [reflexivity|].
  destruct (verifyRanges_sim (r0 :: rest0) proofs 0 [] x Hx) as [E _]. rewrite E.
  destruct (verifyRanges nodeSum lr1 (r0 :: rest0) proofs 0 [] x)
    as [[[[e|] [[i ps] t]]|] x'] eqn:G; cbn [fst]; [reflexivity| |reflexivity].
  destruct (vConsumeUntil nodeSum MaxUint64 ps i t) as [[e|] [[? ?] t']]; reflexivity.
Qed.

End Simulation.

Lemma reader_sim_step (leafSum : bytes -> bytes) (x : LeafRootReader) :
  (1 <= lleafLen x)%nat ->
  GetLeafRoot leafRootCached (mkLeafRootCached (map leafSum (chunks (lleafLen x) (lrd x)))) =
    (fst (GetLeafRoot (leafRootReader leafSum) x),
     mkLeafRootCached (map leafSum (chunks (lleafLen (snd (GetLeafRoot (leafRootReader leafSum) x)))
                                      (lrd (snd (GetLeafRoot (leafRootReader leafSum) x)))))) /\
  (1 <= lleafLen (snd (GetLeafRoot (leafRootReader leafSum) x)))%nat.
Proof.
  destruct x as [r m]. cbn [lleafLen lrd]. intros Hm.
  destruct (reader_GetLeafRoot_sim leafSum m Hm r) as [E Hl].
  cbn [GetLeafRoot leafRootCached leafRootReader]. rewrite E, Hl.
  split; [reflexivity|lia].
Qed.

Lemma checkLimitStorageProof_reader (leafSum : bytes -> bytes) (nodeSum : bytes -> bytes -> bytes)
    (n : nat) (Hn : (1 <= n)%nat) (s : list Byte.byte) (limits : list SubTreeLimit)
    (proofs : list bytes) (root : bytes) :
  fst (checkLimitStorageProof nodeSum (leafRootReader leafSum) (mkLeafRootReader s n) limits proofs root) =
  fst (checkLimitStorageProof nodeSum leafRootCached
         (mkLeafRootCached (map leafSum (chunks n s))) limits proofs root).
Proof.
  symmetry.
  exact (checkLimitStorageProof_sim nodeSum (leafRootReader leafSum) leafRootCached
           (fun x => mkLeafRootCached (map leafSum (chunks (lleafLen x) (lrd x))))
           (fun x => (1 <= lleafLen x)%nat) (reader_sim_step leafSum)
           limits proofs root (mkLeafRootReader s n) Hn).
Qed.

(** The round trip of [C1]'s engine, shared by the wrappers' properties. *)
Lemma limit_roundtrip_core (nodeSum : bytes -> bytes -> bytes)
    (leaves : list bytes) (limits : list SubTreeLimit) (fuel : nat) :
  checkLimitList limits = true ->
  Forall (fun r => Right r <= Z.of_nat (length leaves)) limits ->
  Z.of_nat (length leaves) < 2 ^ 63 ->
  (length leaves <= fuel)%nat ->
  exists proofs,
    fst (getLimitStorageProof (cachedSubtreeRoot nodeSum) fuel limits
           (mkCachedSubtreeRoot leaves)) = (proofs, None) /\
    fst (checkLimitStorageProof nodeSum leafRootCached
           (mkLeafRootCached (claimedLeaves limits leaves))
           limits proofs (CachedTreeRoot nodeSum leaves)) = Return (true, None).
Proof.
  intros Hc Hb HN Hf.
  destruct limits as [|r0 rest0]; [exists []; split; reflexivity|].
  assert (Hv := checkLimitListFrom_valid _ None Hc).
  destruct (ranges_roundtrip nodeSum leaves HN fuel (r0 :: rest0) O [] Hv Hb
              ltac:(lia) Hf) as [j [G [Hj [Hj1 [HC HV]]]]].
  cbn [skipn firstn Z.of_nat app] in HC, HV.
  specialize (Hj1 ltac:(discriminate)).
  destruct (drain_roundtrip nodeSum leaves HN fuel j G ltac:(lia) ltac:(lia))
    as [j2 [D [HCd [j' [t' [HVd Ht']]]]]].
  exists (G ++ D). split.
  - unfold getLimitStorageProof. rewrite Hc. cbn [negb].
    rewrite HC, HCd. reflexivity.
  - unfold checkLimitStorageProof. rewrite Hc. cbn [negb].
    specialize (HV D []). rewrite app_nil_r in HV. cbn [push0All fold_left] in HV.
    rewrite HV, HVd.
    rewrite CachedTreeRoot_spec, Ht', bytes_Equal_refl. reflexivity.
Qed.

Lemma single_range_ok (left right : Z) (m : nat) :
  0 <= left < right -> right <= Z.of_nat m -> Z.of_nat m < 2 ^ 63 ->
  checkLimitList [mkLimit (to_uint64 left) (to_uint64 right)] = true /\
  Forall (fun r => Right r <= Z.of_nat m) [mkLimit (to_uint64 left) (to_uint64 right)].
Proof.
  intros Hlr Hm HN.
  rewrite (to_uint64_small left), (to_uint64_small right) by lia.
  split.
  - unfold checkLimitList. cbn [checkLimitListFrom Left Right].
    replace ((left <? 0) || (right <=? left)) with false by (symmetry; apply orb_false_iff; split;
      [apply Z.ltb_ge|apply Z.leb_gt]; lia).
    reflexivity.
  - constructor; [|constructor]. cbn [Right]. exact Hm.
Qed.

End LeafStream.

Lemma claimedLeaves_single (l r : Z) (leaves : list bytes) :
  Merkle.claimedLeaves [Merkle.mkLimit l r] leaves =
  firstn (Z.to_nat (r - l)) (skipn (Z.to_nat l) leaves).
Proof. unfold Merkle.claimedLeaves. cbn [flat_map Merkle.Left Merkle.Right]. apply app_nil_r. Qed.

Lemma wrapper_guard_false (left right : Z) :
  0 <= left < right -> (left <? 0) || (right <? left) || (left =? right) = false.
Proof.
  intros H. apply orb_false_iff; split; [apply orb_false_iff; split|];
    [apply Z.ltb_ge|apply Z.ltb_ge|apply Z.eqb_neq]; lia.
Qed.

(** The public single-range API round trip.  For leaf roots [leaves] held
    by cached sources (fewer than [2^63]) and Go ints
    [0 <= left < right <= len(leaves)], [GetLimitStorageProof(left, right)]
    returns a proof with no error, and [CheckLimitStorageProof] given that
    proof, the claimed leaf roots [leaves[left:right]] and the Merkle root
    of all the leaves returns [true] with no error. *)
Theorem LimitStorageProof_single_range_roundtrip (nodeSum : bytes -> bytes -> bytes)
    (leaves : list bytes) (left right : Z) (fuel : nat) :
  Z.of_nat (length leaves) < 2 ^ 63 -> (length leaves <= fuel)%nat ->
  0 <= left < right -> right <= Z.of_nat (length leaves) ->
  exists proofs,
    fst (Merkle.GetLimitStorageProof (Merkle.cachedSubtreeRoot nodeSum) fuel left right
           (Merkle.mkCachedSubtreeRoot leaves)) = (proofs, None) /\
    fst (Merkle.CheckLimitStorageProof nodeSum Merkle.leafRootCached
           (Merkle.mkLeafRootCached (firstn (Z.to_nat (right - left)) (skipn (Z.to_nat left) leaves)))
           left right proofs (Merkle.CachedTreeRoot nodeSum leaves)) = Return (true, None).
Proof.
  intros HN Hf Hlr Hr.
  destruct (single_range_ok left right (length leaves) Hlr Hr HN) as [Hc Hb].
  destruct (limit_roundtrip_core nodeSum leaves _ fuel Hc Hb HN Hf) as [proofs [HG HC]].
  exists proofs. unfold Merkle.GetLimitStorageProof, Merkle.CheckLimitStorageProof.
  rewrite wrapper_guard_false by exact Hlr. split; [exact HG|].
  rewrite claimedLeaves_single in HC. rewrite !to_uint64_small in HC |- * by lia. exact HC.
Qed.

Lemma LimitStorageProof_single_range_roundtrip_witness :
  exists proofs,
    fst (Merkle.GetLimitStorageProof (Merkle.cachedSubtreeRoot (@app Byte.byte)) 5 1 3
           (Merkle.mkCachedSubtreeRoot [[Byte.x00]; [Byte.x01]; [Byte.x02]; [Byte.x03]; [Byte.x04]]))
      = (proofs, None) /\
    fst (Merkle.CheckLimitStorageProof (@app Byte.byte) Merkle.leafRootCached
           (Merkle.mkLeafRootCached (firstn (Z.to_nat (3 - 1)) (skipn (Z.to_nat 1)
              [[Byte.x00]; [Byte.x01]; [Byte.x02]; [Byte.x03]; [Byte.x04]])))
           1 3 proofs
           (Merkle.CachedTreeRoot (@app Byte.byte)
              [[Byte.x00]; [Byte.x01]; [Byte.x02]; [Byte.x03]; [Byte.x04]]))
      = Return (true, None).
Proof. apply LimitStorageProof_single_range_roundtrip; simpl; lia. Defined.

(** A streaming verifier behaves as a cached one.  For a leaf size
    [n >= 1], [CheckLimitStorageProof] reading its claimed leaves from a
    [LeafRootReader] over the bytes [s] returns what it returns reading
    them from a [LeafRootCached] holding the leaf hashes of the [n]-byte
    pieces of [s] (the last one possibly shorter), for every range, proof
    and root. *)
Theorem CheckLimitStorageProof_reader_as_cached (leafSum : bytes -> bytes)
    (nodeSum : bytes -> bytes -> bytes) (n : nat) (s : list Byte.byte) (left right : Z)
    (proofs : list bytes) (root : bytes) :
  (1 <= n)%nat ->
  fst (Merkle.CheckLimitStorageProof nodeSum (Merkle.leafRootReader leafSum)
         (Merkle.mkLeafRootReader s n) left right proofs root) =
  fst (Merkle.CheckLimitStorageProof nodeSum Merkle.leafRootCached
         (Merkle.mkLeafRootCached (map leafSum (Merkle.chunks n s))) left right proofs root).
Proof.
  intros Hn. unfold Merkle.CheckLimitStorageProof.
  destruct ((left <? 0) || (right <? left) || (left =? right)); [reflexivity|].
  apply checkLimitStorageProof_reader. exact Hn.
Qed.

Lemma CheckLimitStorageProof_reader_as_cached_witness :
  (1 <= 2)%nat /\
  fst (Merkle.CheckLimitStorageProof (@app Byte.byte) (Merkle.leafRootReader (fun d => d))
         (Merkle.mkLeafRootReader [Byte.x01; Byte.x02; Byte.x03] 2) 0 2 [] [Byte.x01; Byte.x02; Byte.x03])
  = fst (Merkle.CheckLimitStorageProof (@app Byte.byte) Merkle.leafRootCached
         (Merkle.mkLeafRootCached (map (fun d => d) (Merkle.chunks 2 [Byte.x01; Byte.x02; Byte.x03])))
         0 2 [] [Byte.x01; Byte.x02; Byte.x03]).
Proof. split; [lia|]. apply CheckLimitStorageProof_reader_as_cached. lia. Defined.

(** Streaming round trip.  For data [data] cut into leaves of [n >= 1]
    bytes (fewer than [2^63] leaves), a prover holding the leaf hashes and
    Go ints [0 <= left < right <= #leaves]: the proof that
    [GetLimitStorageProof(left, right)] returns is accepted by
    [CheckLimitStorageProof] when the verifier streams the claimed bytes
    [data[left*n : right*n]] through a [LeafRootReader] of leaf size [n]
    and checks against the Merkle root of all the leaf hashes. *)
Theorem LimitStorageProof_streamed_roundtrip (leafSum : bytes -> bytes)
    (nodeSum : bytes -> bytes -> bytes) (data : list Byte.byte) (n : nat)
    (left right : Z) (fuel : nat) :
  (1 <= n)%nat ->
  Z.of_nat (length (Merkle.chunks n data)) < 2 ^ 63 -> (length (Merkle.chunks n data) <= fuel)%nat ->
  0 <= left < right -> right <= Z.of_nat (length (Merkle.chunks n data)) ->
  exists proofs,
    fst (Merkle.GetLimitStorageProof (Merkle.cachedSubtreeRoot nodeSum) fuel left right
           (Merkle.mkCachedSubtreeRoot (map leafSum (Merkle.chunks n data)))) = (proofs, None) /\
    fst (Merkle.CheckLimitStorageProof nodeSum (Merkle.leafRootReader leafSum)
           (Merkle.mkLeafRootReader
              (firstn (Z.to_nat (right - left) * n) (skipn (Z.to_nat left * n) data)) n)
           left right proofs (Merkle.CachedTreeRoot nodeSum (map leafSum (Merkle.chunks n data))))
      = Return (true, None).
Proof.
  intros Hn HN Hf Hlr Hr.
  set (leaves := map leafSum (Merkle.chunks n data)).
  assert (Hlen : length leaves = length (Merkle.chunks n data)) by apply length_map.
  rewrite <- Hlen in HN, Hf, Hr.
  destruct (single_range_ok left right (length leaves) Hlr Hr HN) as [Hc Hb].
  destruct (limit_roundtrip_core nodeSum leaves _ fuel Hc Hb HN Hf) as [proofs [HG HC]].
  exists proofs. unfold Merkle.GetLimitStorageProof, Merkle.CheckLimitStorageProof.
  rewrite wrapper_guard_false by exact Hlr. split; [exact HG|].
  rewrite checkLimitStorageProof_reader by exact Hn.
  rewrite chunks_firstn, chunks_skipn by exact Hn.
  rewrite <- firstn_map, <- skipn_map. fold leaves.
  rewrite claimedLeaves_single in HC. rewrite !to_uint64_small in HC |- * by lia. exact HC.
Qed.

Lemma LimitStorageProof_streamed_roundtrip_witness :
  exists proofs,
    fst (Merkle.GetLimitStorageProof (Merkle.cachedSubtreeRoot (@app Byte.byte)) 3 1 3
           (Merkle.mkCachedSubtreeRoot (map (fun d => d)
              (Merkle.chunks 2 [Byte.x00; Byte.x01; Byte.x02; Byte.x03; Byte.x04])))) = (proofs, None) /\
    fst (Merkle.CheckLimitStorageProof (@app Byte.byte) (Merkle.leafRootReader (fun d => d))
           (Merkle.mkLeafRootReader
              (firstn (Z.to_nat (3 - 1) * 2) (skipn (Z.to_nat 1 * 2)
                 [Byte.x00; Byte.x01; Byte.x02; Byte.x03; Byte.x04])) 2)
           1 3 proofs (Merkle.CachedTreeRoot (@app Byte.byte) (map (fun d => d)
              (Merkle.chunks 2 [Byte.x00; Byte.x01; Byte.x02; Byte.x03; Byte.x04]))))
      = Return (true, None).
Proof. apply LimitStorageProof_streamed_roundtrip; simpl; lia. Defined.

(** ** Host scoring *)

Section HostScoring.
Import HostScore Floats.

Lemma ageAdjustment_fold (bh fs : Z) :
  ageAdjustment bh fs = if fs <=? bh then thresholdFold (bh - fs) ageSteps 1 else 1%float.
Proof. reflexivity. Qed.

Lemma storageRemainingAdjustment_fold (m a : Z) :
  storageRemainingAdjustment m a = thresholdFold a (storageSteps m) 1.
Proof. reflexivity. Qed.

(** The number of thresholds [x] lies below. *)
Local Abbreviation nBelow x l := (length (filter (fun p : Z * (float -> float) => x <? fst p) l)).

Lemma filter_below_none (x : Z) (l : list (Z * (float -> float))) :
  Forall (fun p => fst p <= x) l -> filter (fun p : Z * (float -> float) => x <? fst p) l = [].
Proof.
  induction l as [|p l IH]; intros H; [reflexivity|].
  inversion H as [|? ? Hp Hl]; subst. cbn [filter].
  replace (x <? fst p) with false by (symmetry; apply Z.ltb_ge; exact Hp).
  apply IH. exact Hl.
Qed.

Lemma thresholdFold_none (x : Z) (l : list (Z * (float -> float))) (b : float) :
  Forall (fun p => fst p <= x) l -> thresholdFold x l b = b.
Proof.
  revert b. induction l as [|p l IH]; intros b H; [reflexivity|].
  inversion H as [|? ? Hp Hl]; subst. unfold thresholdFold. cbn [fold_left].
  replace (x <? fst p) with false by (symmetry; apply Z.ltb_ge; exact Hp).
  apply IH. exact Hl.
Qed.

Lemma thresholdFold_prefix (x : Z) (l : list (Z * (float -> float))) :
  StronglySorted (fun p q => fst q <= fst p) l ->
  forall b, thresholdFold x l b = applyAll (firstn (nBelow x l) l) b.
Proof.
  induction l as [|p l IH]; intros Hs b; [reflexivity|].
  inversion Hs as [|? ? Hs' Hall]; subst.
  unfold thresholdFold. cbn [fold_left filter].
  destruct (x <? fst p) eqn:E.
  - cbn [length firstn]. unfold applyAll. cbn [fold_left]. apply IH. exact Hs'.
  - apply Z.ltb_ge in E.
    assert (Hl : Forall (fun q => fst q <= x) l).
    { eapply Forall_impl; [|exact Hall]. intros q Hq. cbn beta in Hq. lia. }
    rewrite (filter_below_none x l Hl). cbn [length firstn].
    apply thresholdFold_none. exact Hl.
Qed.

Lemma nBelow_antitone (x y : Z) (l : list (Z * (float -> float))) :
  x <= y -> (nBelow y l <= nBelow x l)%nat.
Proof.
  intros Hxy. induction l as [|p l IH]; [reflexivity|]. cbn [filter].
  destruct (y <? fst p) eqn:Ey.
  - replace (x <? fst p) with true by (symmetry; apply Z.ltb_lt; apply Z.ltb_lt in Ey; lia).
    cbn [length]. lia.
  - destruct (x <? fst p); cbn [length]; lia.
Qed.

Lemma nBelow_le (x : Z) (l : list (Z * (float -> float))) : (nBelow x l <= length l)%nat.
Proof. apply filter_length_le. Qed.

Lemma nBelow_zero (x : Z) (l : list (Z * (float -> float))) :
  nBelow x l = O <-> Forall (fun p => fst p <= x) l.
Proof.
  split.
  - induction l as [|p l IH]; intros H; [constructor|]. cbn [filter] in H.
    destruct (x <? fst p) eqn:E; [discriminate|]. apply Z.ltb_ge in E.
    constructor; [exact E|apply IH; exact H].
  - intros H. rewrite filter_below_none by exact H. reflexivity.
Qed.

Lemma nBelow_all (x : Z) (l : list (Z * (float -> float))) :
  Forall (fun p => x < fst p) l -> nBelow x l = length l.
Proof.
  induction l as [|p l IH]; intros H; [reflexivity|].
  inversion H as [|? ? Hp Hl]; subst. cbn [filter].
  replace (x <? fst p) with true by (symmetry; apply Z.ltb_lt; exact Hp).
  cbn [length]. rewrite IH by exact Hl. reflexivity.
Qed.

(** A boolean check over every pair of prefixes. *)
Lemma forallb_seq_pairs (P : nat -> nat -> bool) (n : nat) :
  forallb (fun i => forallb (fun j => P i j) (seq 0 n)) (seq 0 n) = true ->
  forall i j, (i < n)%nat -> (j < n)%nat -> P i j = true.
Proof.
  intros H i j Hi Hj.
  rewrite forallb_forall in H. specialize (H i (proj2 (in_seq n 0 i) ltac:(lia))).
  rewrite forallb_forall in H. exact (H j (proj2 (in_seq n 0 j) ltac:(lia))).
Qed.

Lemma prefix_table_mono (l : list (Z * (float -> float))) :
  forallb (fun i => forallb (fun j => implb (Nat.leb j i)
      (PrimFloat.leb (applyAll (firstn i l) 1) (applyAll (firstn j l) 1)))
    (seq 0 (S (length l)))) (seq 0 (S (length l))) = true ->
  forall i j, (j <= i <= length l)%nat ->
  PrimFloat.leb (applyAll (firstn i l) 1) (applyAll (firstn j l) 1) = true.
Proof.
  intros H i j Hij.
  pose proof (forallb_seq_pairs _ _ H i j ltac:(lia) ltac:(lia)) as E.
  cbn beta in E. replace (Nat.leb j i) with true in E by (symmetry; apply Nat.leb_le; lia).
  exact E.
Qed.

Lemma prefix_table_pointwise (l : list (Z * (float -> float))) (P : float -> bool) :
  forallb (fun i => P (applyAll (firstn i l) 1)) (seq 0 (S (length l))) = true ->
  forall i, (i <= length l)%nat -> P (applyAll (firstn i l) 1) = true.
Proof.
  intros H i Hi. rewrite forallb_forall in H. exact (H i (proj2 (in_seq (S (length l)) 0 i) ltac:(lia))).
Qed.

Lemma float_neq_of_eqb (x y : float) : PrimFloat.eqb x y = false -> PrimFloat.eqb y y = true -> x <> y.
Proof. intros H1 H2 E. subst. congruence. Qed.

Lemma ageSteps_sorted : StronglySorted (fun p q => fst q <= fst p) ageSteps.
Proof. unfold ageSteps. repeat constructor; cbn [fst]; lia. Qed.

Lemma storageSteps_sorted (m : Z) : 0 <= m -> StronglySorted (fun p q => fst q <= fst p) (storageSteps m).
Proof. intros Hm. unfold storageSteps. repeat constructor; cbn [fst]; lia. Qed.

End HostScoring.

Section HostScoreTheorems.
Import HostScore Floats.

Local Abbreviation nBelow x l := (length (filter (fun p : Z * (float -> float) => x <? fst p) l)).

Lemma ageSteps_table_mono : forall i j, (j <= i <= length ageSteps)%nat ->
  PrimFloat.leb (applyAll (firstn i ageSteps) 1) (applyAll (firstn j ageSteps) 1) = true.
Proof. apply prefix_table_mono. vm_compute. reflexivity. Qed.

Lemma ageSteps_table_bounds : forall i, (i <= length ageSteps)%nat ->
  (PrimFloat.leb 0x1p-10 (applyAll (firstn i ageSteps) 1) &&
   PrimFloat.leb (applyAll (firstn i ageSteps) 1) 1)%bool = true.
Proof.
  apply (prefix_table_pointwise ageSteps (fun v => PrimFloat.leb 0x1p-10 v && PrimFloat.leb v 1)%bool).
  vm_compute. reflexivity.
Qed.

Lemma ageSteps_table_not_one : forall i, (1 <= i <= length ageSteps)%nat ->
  applyAll (firstn i ageSteps) 1 <> 1%float.
Proof.
  intros i Hi. apply float_neq_of_eqb; [|vm_compute; reflexivity].
  cbn [length ageSteps] in Hi.
  do 9 (destruct i as [|i]; [try lia; vm_compute; reflexivity|]). lia.
Qed.

Lemma storageSteps_table_mono (m : Z) : forall i j, (j <= i <= length (storageSteps m))%nat ->
  PrimFloat.leb (applyAll (firstn i (storageSteps m)) 1) (applyAll (firstn j (storageSteps m)) 1) = true.
Proof. apply prefix_table_mono. vm_compute. reflexivity. Qed.

Lemma storageSteps_table_bounds (m : Z) : forall i, (i <= length (storageSteps m))%nat ->
  (PrimFloat.leb 0x1p-10 (applyAll (firstn i (storageSteps m)) 1) &&
   PrimFloat.leb (applyAll (firstn i (storageSteps m)) 1) 1)%bool = true.
Proof.
  apply (prefix_table_pointwise (storageSteps m) (fun v => PrimFloat.leb 0x1p-10 v && PrimFloat.leb v 1)%bool).
  vm_compute. reflexivity.
Qed.

Lemma storageSteps_table_not_one (m : Z) : forall i, (1 <= i <= length (storageSteps m))%nat ->
  applyAll (firstn i (storageSteps m)) 1 <> 1%float.
Proof.
  intros i Hi. apply float_neq_of_eqb; [|vm_compute; reflexivity].
  cbn [length storageSteps] in Hi.
  do 11 (destruct i as [|i]; [try lia; vm_compute; reflexivity|]). lia.
Qed.

(** The age score of a host.  [ageAdjustment] never lets a host lose score
    by being known longer: for the same block height, an earlier
    [FirstSeen] (not after the height) scores at least as much.  The score
    is exactly [1] when the host is at least 12000 blocks old, and also
    when its [FirstSeen] lies after the current height; it always lies
    between [2^-10] and [1]. *)
Theorem ageAdjustment_score :
  (forall bh fs1 fs2, fs2 <= fs1 <= bh ->
     PrimFloat.leb (HostScore.ageAdjustment bh fs1) (HostScore.ageAdjustment bh fs2) = true) /\
  (forall bh fs, HostScore.ageAdjustment bh fs = 1%float <-> bh < fs \/ 12000 <= bh - fs) /\
  (forall bh fs, PrimFloat.leb 0x1p-10 (HostScore.ageAdjustment bh fs) = true /\
                 PrimFloat.leb (HostScore.ageAdjustment bh fs) 1 = true).
Proof.
  split; [|split].
  - intros bh fs1 fs2 H. rewrite !ageAdjustment_fold.
    replace (fs1 <=? bh) with true by (symmetry; apply Z.leb_le; lia).
    replace (fs2 <=? bh) with true by (symmetry; apply Z.leb_le; lia).
    rewrite !(thresholdFold_prefix _ _ ageSteps_sorted).
    apply ageSteps_table_mono. split.
    + apply nBelow_antitone. lia.
    + apply nBelow_le.
  - intros bh fs. rewrite ageAdjustment_fold.
    destruct (fs <=? bh) eqn:E.
    + apply Z.leb_le in E. rewrite (thresholdFold_prefix _ _ ageSteps_sorted).
      destruct (nBelow (bh - fs) ageSteps) as [|c] eqn:Ec.
      * apply nBelow_zero in Ec. inversion Ec as [|? ? H1 _]; subst. cbn [fst] in H1.
        split; [intros _; right; lia|reflexivity].
      * split; [intros Hv; exfalso; revert Hv; apply ageSteps_table_not_one;
                rewrite <- Ec; split; [lia|apply nBelow_le]|].
        intros [H|H]; [lia|]. exfalso.
        assert (Hz : nBelow (bh - fs) ageSteps = O).
        { apply nBelow_zero. unfold ageSteps. repeat constructor; cbn [fst]; lia. }
        congruence.
    + apply Z.leb_gt in E. split; [intros _; left; exact E|reflexivity].
  - intros bh fs. rewrite ageAdjustment_fold.
    destruct (fs <=? bh); [|split; vm_compute; reflexivity].
    rewrite (thresholdFold_prefix _ _ ageSteps_sorted).
    apply andb_prop. apply ageSteps_table_bounds. apply nBelow_le.
Qed.

(** The remaining-storage score of a host.  For a non-negative
    [minStorage], [storageRemainingAdjustment] halves the score once for
    each threshold [k*minStorage] (k = 100, 80, 40, 20, 15, 10, 5, 3, 2, 1)
    the remaining storage is below: the score never decreases as the
    remaining storage grows, is exactly [1] if and only if the host has at
    least [100*minStorage] left, is [2^-10] below [minStorage], and always
    lies between [2^-10] and [1]. *)
Theorem storageRemainingAdjustment_score (minStorage : Z) :
  0 <= minStorage ->
  (forall a b, a <= b ->
     PrimFloat.leb (HostScore.storageRemainingAdjustment minStorage a)
                   (HostScore.storageRemainingAdjustment minStorage b) = true) /\
  (forall a, HostScore.storageRemainingAdjustment minStorage a = 1%float <-> 100 * minStorage <= a) /\
  (forall a, a < minStorage -> HostScore.storageRemainingAdjustment minStorage a = 0x1p-10%float) /\
  (forall a, PrimFloat.leb 0x1p-10 (HostScore.storageRemainingAdjustment minStorage a) = true /\
             PrimFloat.leb (HostScore.storageRemainingAdjustment minStorage a) 1 = true).
Proof.
  intros Hm. pose proof (storageSteps_sorted minStorage Hm) as Hs.
  split; [|split; [|split]].
  - intros a b H. rewrite !storageRemainingAdjustment_fold, !(thresholdFold_prefix _ _ Hs).
    apply storageSteps_table_mono. split.
    + apply nBelow_antitone. exact H.
    + apply nBelow_le.
  - intros a. rewrite storageRemainingAdjustment_fold, (thresholdFold_prefix _ _ Hs).
    destruct (nBelow a (storageSteps minStorage)) as [|c] eqn:Ec.
    + apply nBelow_zero in Ec. inversion Ec as [|? ? H1 _]; subst. cbn [fst] in H1.
      split; [intros _; exact H1|reflexivity].
    + split; [intros Hv; exfalso; revert Hv; apply storageSteps_table_not_one;
              rewrite <- Ec; split; [lia|apply nBelow_le]|].
      intros H. exfalso.
      assert (Hz : nBelow a (storageSteps minStorage) = O).
      { apply nBelow_zero. unfold storageSteps. repeat constructor; cbn [fst]; lia. }
      congruence.
  - intros a H. rewrite storageRemainingAdjustment_fold, (thresholdFold_prefix _ _ Hs).
    rewrite nBelow_all by (unfold storageSteps; repeat constructor; cbn [fst]; lia).
    vm_compute. reflexivity.
  - intros a. rewrite storageRemainingAdjustment_fold, (thresholdFold_prefix _ _ Hs).
    apply andb_prop. apply storageSteps_table_bounds. apply nBelow_le.
Qed.

(** The score of a host with 10 bytes left, for [minStorage = 4]: it is
    below the thresholds 100*4 down to 3*4. *)
Lemma storageRemainingAdjustment_score_witness :
  0 <= 4 /\ PrimFloat.leb (HostScore.storageRemainingAdjustment 4 10)
                           (HostScore.storageRemainingAdjustment 4 400) = true.
Proof.
  split; [lia|].
  exact (proj1 (storageRemainingAdjustment_score 4 ltac:(lia)) 10 400 ltac:(lia)).
Defined.

End HostScoreTheorems.
